(** * Offer tracking and notification engine of the Epic free-games bot

    A shallow embedding of [bot.py]: the catalog classifier
    ([fetch_free_games], [fetch_upcoming_games]), the TTL cache, the store-URL
    builder, the trailer scan over content documents, the persisted
    subscription document and the daily scheduler tick, followed by the
    properties proved about them. *)

From Stdlib Require Import ZArith Ascii String List Bool Lia.
From stdpp Require Import base option list gmap strings sorting.

(** ** Python values and exceptions *)

(** The exceptions the modelled code can raise. *)
Inductive exn : Type :=
| TypeError        (* comparing a naive with an aware datetime *)
| AttributeError   (* a method looked up on a value that lacks it *)
| UpstreamError.   (* the HTTP request or its JSON body failed *)

(** A computation that returns a value or raises. *)
Inductive exc (A : Type) : Type :=
| Ok (a : A)
| Raise (e : exn).
Arguments Ok {A} a.
Arguments Raise {A} e.

(** Sequencing: the first exception raised ends the computation. *)
Definition bind {A B : Type} (m : exc A) (f : A -> exc B) : exc B :=
  match m with
  | Ok a => f a
  | Raise e => Raise e
  end.

Notation "'let*' x ':=' m 'in' k" := (bind m (fun x => k))
  (at level 10, x name, m at level 100, k at level 200).

(** [x or y] on optional strings: [None] and the empty string are falsy. *)
Definition truthy (s : option string) : bool :=
  match s with
  | Some (String _ _) => true
  | _ => false
  end.

Definition or_else (a b : option string) : option string :=
  if truthy a then a else b.

(** [s or ""]. *)
Definition or_empty (s : option string) : string :=
  match s with
  | Some s => s
  | None => EmptyString
  end.

(** ** String methods

    A [string] holds the UTF-8 bytes of a Python [str]. *)

Module Str.

Definition ascii_lower (c : ascii) : ascii :=
  let n := N_of_ascii c in
  if ((65 <=? n) && (n <=? 90))%N then ascii_of_N (n + 32) else c.

(** [s.lower()], on ASCII letters; bytes outside ASCII stay as they are. The
    program only searches lowered texts for ASCII words without [i] and [k],
    the two letters a character outside ASCII can lower to. *)
Fixpoint lower (s : string) : string :=
  match s with
  | EmptyString => EmptyString
  | String c s' => String (ascii_lower c) (lower s')
  end.

Definition rev (s : string) : string :=
  string_of_list_ascii (List.rev (list_ascii_of_string s)).

(** [s.startswith(p)]. *)
Definition startswith (s p : string) : bool := String.prefix p s.

(** [s.endswith(p)]. *)
Definition endswith (s p : string) : bool := String.prefix (rev p) (rev s).

(** [needle in s]. *)
Fixpoint contains (needle s : string) : bool :=
  String.prefix needle s ||
  match s with
  | EmptyString => false
  | String _ s' => contains needle s'
  end.

Fixpoint lstrip_with (p : ascii -> bool) (s : string) : string :=
  match s with
  | EmptyString => EmptyString
  | String c s' => if p c then lstrip_with p s' else s
  end.

Definition is_slash (c : ascii) : bool := Ascii.eqb c "/".

(** The ASCII white space [str.strip()] removes: U+0009 to U+000D, U+001C to
    U+001F and the space. *)
Definition is_space (c : ascii) : bool :=
  let n := N_of_ascii c in
  (((9 <=? n) && (n <=? 13)) || ((28 <=? n) && (n <=? 32)))%N.

(** [s.lstrip("/")]. *)
Definition lstrip_slash (s : string) : string := lstrip_with is_slash s.

(** The other white space [str.strip()] removes, by its UTF-8 bytes: U+0085
    and U+00A0 take two bytes ([C2 85], [C2 A0]); U+1680 ([E1 9A 80]), U+2000
    to U+200A ([E2 80 80] to [E2 80 8A]), U+2028, U+2029, U+202F
    ([E2 80 A8], [E2 80 A9], [E2 80 AF]), U+205F ([E2 81 9F]) and U+3000
    ([E3 80 80]) take three. *)
Definition is_space2 (b1 b2 : ascii) : bool :=
  let n1 := N_of_ascii b1 in
  let n2 := N_of_ascii b2 in
  ((n1 =? 194) && ((n2 =? 133) || (n2 =? 160)))%N.

Definition is_space3 (b1 b2 b3 : ascii) : bool :=
  let n1 := N_of_ascii b1 in
  let n2 := N_of_ascii b2 in
  let n3 := N_of_ascii b3 in
  (((n1 =? 225) && (n2 =? 154) && (n3 =? 128))
   || ((n1 =? 226) && (n2 =? 128)
       && (((128 <=? n3) && (n3 <=? 138)) || (n3 =? 168) || (n3 =? 169) || (n3 =? 175)))
   || ((n1 =? 226) && (n2 =? 129) && (n3 =? 159))
   || ((n1 =? 227) && (n2 =? 128) && (n3 =? 128)))%N.

(** The white space at the front of [s] removed, a character of one, two or
    three bytes at a time; [sp2] and [sp3] recognise the longer ones. *)
Fixpoint strip_front (sp2 : ascii -> ascii -> bool) (sp3 : ascii -> ascii -> ascii -> bool)
    (s : string) : string :=
  match s with
  | EmptyString => EmptyString
  | String b1 s1 =>
      if is_space b1 then strip_front sp2 sp3 s1
      else
        match s1 with
        | EmptyString => s
        | String b2 s2 =>
            if sp2 b1 b2 then strip_front sp2 sp3 s2
            else
              match s2 with
              | EmptyString => s
              | String b3 s3 => if sp3 b1 b2 b3 then strip_front sp2 sp3 s3 else s
              end
        end
  end.

(** [s.lstrip()]. *)
Definition lstrip (s : string) : string := strip_front is_space2 is_space3 s.

(** [s.rstrip()]: the same from the end, on the bytes in reverse. *)
Definition rstrip (s : string) : string :=
  rev (strip_front (fun b2 b1 => is_space2 b1 b2) (fun b3 b2 b1 => is_space3 b1 b2 b3) (rev s)).

(** [s.strip()]. *)
Definition strip (s : string) : string := rstrip (lstrip s).

(** [s.replace(c, by)] for a one-character [c]. *)
Fixpoint replace_char (c : ascii) (by_ : string) (s : string) : string :=
  match s with
  | EmptyString => EmptyString
  | String a s' =>
      if Ascii.eqb a c then String.append by_ (replace_char c by_ s')
      else String a (replace_char c by_ s')
  end.

(** [s.replace("Z", "+00:00")]. *)
Definition replace_Z (s : string) : string := replace_char "Z" "+00:00" s.

End Str.

(** ** Datetimes *)

Module Datetime.

Local Open Scope Z_scope.

(** A [datetime] object: its calendar fields and its UTC offset in seconds,
    [None] for a naive value. *)
Record datetime : Type := mk_datetime {
  year : Z; month : Z; day : Z;
  hour : Z; minute : Z; second : Z; microsecond : Z;
  tzinfo : option Z
}.

Definition is_leap (y : Z) : bool :=
  (y mod 4 =? 0) && (negb (y mod 100 =? 0) || (y mod 400 =? 0)).

Definition days_in_month (y m : Z) : Z :=
  if m =? 2 then (if is_leap y then 29 else 28)
  else if (m =? 4) || (m =? 6) || (m =? 9) || (m =? 11) then 30
  else 31.

Definition days_before_year (y : Z) : Z :=
  let y1 := y - 1 in y1 * 365 + y1 / 4 - y1 / 100 + y1 / 400.

Definition days_before_month (y m : Z) : Z :=
  nth (Z.to_nat (m - 1)) [0; 31; 59; 90; 120; 151; 181; 212; 243; 273; 304; 334] 0
  + (if (2 <? m) && is_leap y then 1 else 0).

(** [d.toordinal()]. *)
Definition toordinal (d : datetime) : Z :=
  days_before_year (year d) + days_before_month (year d) (month d) + day d.

(** Microseconds of the calendar fields since ordinal 0, offset not applied. *)
Definition wall_us (d : datetime) : Z :=
  ((toordinal d * 24 + hour d) * 60 + minute d) * 60 * 1000000
  + second d * 1000000 + microsecond d.

(** The instant of an aware datetime of offset [off]: microseconds, in UTC. *)
Definition instant_us (d : datetime) (off : Z) : Z := wall_us d - off * 1000000.

(** The instant an aware datetime denotes. *)
Definition instant (d : datetime) : option Z :=
  match tzinfo d with
  | Some off => Some (instant_us d off)
  | None => None
  end.

(** Ordering of two datetimes: by instant when both are aware, by their
    fields when both are naive; mixing the two raises. *)
Definition dt_cmp (a b : datetime) : exc comparison :=
  match tzinfo a, tzinfo b with
  | Some oa, Some ob => Ok (instant_us a oa ?= instant_us b ob)
  | None, None => Ok (wall_us a ?= wall_us b)
  | _, _ => Raise TypeError
  end.

(** Ordering against [datetime.now(timezone.utc)], an aware datetime given by
    its instant [now]. *)
Definition cmp_now (d : datetime) (now : Z) : exc comparison :=
  match tzinfo d with
  | Some off => Ok (instant_us d off ?= now)
  | None => Raise TypeError
  end.

Definition digit (n : Z) : ascii := ascii_of_N (48 + Z.to_N (n mod 10)).

(** [n] printed in decimal on exactly [w] digits. *)
Fixpoint pad (w : nat) (n : Z) : string :=
  match w with
  | O => EmptyString
  | S w' => String.append (pad w' (n / 10)) (String (digit n) EmptyString)
  end.

Definition format_offset (off : Z) : string :=
  let a := Z.abs off in
  String.append (if off <? 0 then "-" else "+")
   (String.append (pad 2 (a / 3600))
    (String.append ":"
     (String.append (pad 2 (a / 60 mod 60))
       (if a mod 60 =? 0 then "" else String.append ":" (pad 2 (a mod 60)))))).

(** [d.isoformat()]. *)
Definition isoformat (d : datetime) : string :=
  String.append (pad 4 (year d))
   (String.append "-" (String.append (pad 2 (month d))
    (String.append "-" (String.append (pad 2 (day d))
     (String.append "T" (String.append (pad 2 (hour d))
      (String.append ":" (String.append (pad 2 (minute d))
       (String.append ":" (String.append (pad 2 (second d))
        (String.append
          (if microsecond d =? 0 then "" else String.append "." (pad 6 (microsecond d)))
          (match tzinfo d with
           | Some off => format_offset off
           | None => ""
           end)))))))))))).

Definition digit_val (c : ascii) : option Z :=
  let n := N_of_ascii c in
  if ((48 <=? n) && (n <=? 57))%N then Some (Z.of_N n - 48) else None.

Fixpoint number (cs : list ascii) (acc : Z) : option Z :=
  match cs with
  | [] => Some acc
  | c :: cs' =>
      match digit_val c with
      | Some v => number cs' (acc * 10 + v)
      | None => None
      end
  end.

Definition num (cs : list ascii) : option Z := number cs 0.

(** The offset suffix: nothing (a naive value) or [+HH:MM] / [-HH:MM]. *)
Definition parse_offset (cs : list ascii) : option (option Z) :=
  match cs with
  | [] => Some None
  | [sg; h1; h2; c; m1; m2] =>
      match num [h1; h2], num [m1; m2] with
      | Some h, Some m =>
          if (Ascii.eqb c ":") && (h <? 24) && (m <? 60) then
            if Ascii.eqb sg "+" then Some (Some (h * 3600 + m * 60))
            else if Ascii.eqb sg "-" then Some (Some (- (h * 3600 + m * 60)))
            else None
          else None
      | _, _ => None
      end
  | _ => None
  end.

(** The fraction, of three or six digits, and the offset after the seconds. *)
Definition parse_tail (cs : list ascii) : option (Z * option Z) :=
  match cs with
  | dot :: f1 :: f2 :: f3 :: rest =>
      if Ascii.eqb dot "." then
        match num [f1; f2; f3] with
        | None => None
        | Some ms =>
            match rest with
            | f4 :: f5 :: f6 :: rest' =>
                match num [f4; f5; f6] with
                | Some us => option_map (pair (ms * 1000 + us)) (parse_offset rest')
                | None => option_map (pair (ms * 1000)) (parse_offset rest)
                end
            | _ => option_map (pair (ms * 1000)) (parse_offset rest)
            end
        end
      else option_map (pair 0) (parse_offset cs)
  | _ => option_map (pair 0) (parse_offset cs)
  end.

(** [datetime.fromisoformat] on strings of the shape
    [YYYY-MM-DDTHH:MM:SS[.fff[fff]][+HH:MM]], the shape of the catalog's dates
    once their [Z] is replaced and of what [isoformat] prints, where [None]
    stands for the [ValueError] raised. Other shapes the library accepts (a
    date alone, a space for the [T]) are not covered: the general statements
    take [fromisoformat] as a parameter, and this function serves the sample
    catalogs, whose date strings have this shape or are no dates at all. *)
Definition iso_parse (s : string) : option datetime :=
  match list_ascii_of_string s with
  | y1 :: y2 :: y3 :: y4 :: c1 :: m1 :: m2 :: c2 :: d1 :: d2 :: t ::
    h1 :: h2 :: c3 :: n1 :: n2 :: c4 :: s1 :: s2 :: rest =>
      match num [y1; y2; y3; y4], num [m1; m2], num [d1; d2],
            num [h1; h2], num [n1; n2], num [s1; s2], parse_tail rest with
      | Some y, Some mo, Some d, Some h, Some mi, Some se, Some (us, tz) =>
          if (Ascii.eqb c1 "-") && (Ascii.eqb c2 "-") && (Ascii.eqb t "T")
             && (Ascii.eqb c3 ":") && (Ascii.eqb c4 ":")
             && (1 <=? y) && (1 <=? mo) && (mo <=? 12)
             && (1 <=? d) && (d <=? days_in_month y mo)
             && (h <? 24) && (mi <? 60) && (se <? 60)
          then Some (mk_datetime y mo d h mi se us tz)
          else None
      | _, _, _, _, _, _, _ => None
      end
  | _ => None
  end.

End Datetime.

(** ** Catalog elements *)

(** A promotional window as the catalog sends it: two optional date strings. *)
Record PromoWindow : Type := mk_window {
  startDate : option string;
  endDate : option string
}.

(** An entry of [promotions.promotionalOffers] (or of
    [promotions.upcomingPromotionalOffers]): it nests the windows under its own
    [promotionalOffers] key. *)
Record OfferGroup : Type := mk_group {
  group_windows : list PromoWindow
}.

Record Promotions : Type := mk_promotions {
  promotionalOffers : list OfferGroup;
  upcomingPromotionalOffers : list OfferGroup
}.

(** An entry of [catalogNs.mappings] or of [offerMappings]. *)
Record Mapping : Type := mk_mapping {
  pageType : option string;
  pageSlug : option string
}.

(** One element of [data.Catalog.searchStore.elements], with the keys the bot
    reads; [upcomingStart] is the [__upcomingStart] key the upcoming
    classifier adds. *)
Record Element : Type := mk_element {
  title : option string;
  id : option string;
  items : list (option string);      (* the ids of the nested line items *)
  mappings : list Mapping;           (* catalogNs.mappings *)
  offerMappings : list Mapping;
  productSlug : option string;
  urlSlug : option string;
  promotions : option Promotions;
  upcomingStart : option string
}.

#[global] Instance PromoWindow_eq_dec : EqDecision PromoWindow.
Proof. solve_decision. Defined.
#[global] Instance OfferGroup_eq_dec : EqDecision OfferGroup.
Proof. solve_decision. Defined.
#[global] Instance Promotions_eq_dec : EqDecision Promotions.
Proof. solve_decision. Defined.
#[global] Instance Mapping_eq_dec : EqDecision Mapping.
Proof. solve_decision. Defined.
#[global] Instance Element_eq_dec : EqDecision Element.
Proof. solve_decision. Defined.

(** [el["__upcomingStart"] = v]. *)
Definition set_upcomingStart (v : option string) (el : Element) : Element :=
  mk_element (title el) (id el) (items el) (mappings el) (offerMappings el)
             (productSlug el) (urlSlug el) (promotions el) v.

(** [(el.get("promotions") or {}).get("promotionalOffers") or []]. *)
Definition current_offers (el : Element) : list OfferGroup :=
  match promotions el with
  | Some p => promotionalOffers p
  | None => []
  end.

(** [(el.get("promotions") or {}).get("upcomingPromotionalOffers") or []]. *)
Definition upcoming_offers (el : Element) : list OfferGroup :=
  match promotions el with
  | Some p => upcomingPromotionalOffers p
  | None => []
  end.

(** ** The offer classifier *)

Section Classifier.

Import Datetime.

(** [datetime.fromisoformat]; [None] when it raises [ValueError]. *)
Variable fromisoformat : string -> option datetime.

(** [fromisoformat(s.replace("Z", "+00:00")) if s else None]: the outer
    [None] is the exception the [try] block catches. *)
Definition parse_bound (s : option string) : option (option datetime) :=
  if truthy s then
    match fromisoformat (Str.replace_Z (or_empty s)) with
    | Some d => Some (Some d)
    | None => None
    end
  else Some None.

(** The [try] block of [fetch_free_games]: both bounds, or [start = end = None]
    when either parse raises. *)
Definition window_bounds (po : PromoWindow) : option datetime * option datetime :=
  match parse_bound (startDate po) with
  | None => (None, None)
  | Some start =>
      match parse_bound (endDate po) with
      | None => (None, None)
      | Some end_ => (start, end_)
      end
  end.

(** [start is None or start <= now]. *)
Definition starts_by (now : Z) (start : option datetime) : exc bool :=
  match start with
  | None => Ok true
  | Some d => let* c := cmp_now d now in Ok (match c with Gt => false | _ => true end)
  end.

(** [end is None or now < end]. *)
Definition ends_after (now : Z) (end_ : option datetime) : exc bool :=
  match end_ with
  | None => Ok true
  | Some d => let* c := cmp_now d now in Ok (match c with Gt => true | _ => false end)
  end.

(** [(start is None or start <= now) and (end is None or now < end)]. *)
Definition window_active (now : Z) (b : option datetime * option datetime) : exc bool :=
  let* a := starts_by now (fst b) in
  if a then ends_after now (snd b) else Ok false.

(** The inner loop over [offer.get("promotionalOffers", [])], left at the
    first active window. *)
Fixpoint any_window_active (now : Z) (pos : list PromoWindow) : exc bool :=
  match pos with
  | [] => Ok false
  | po :: rest =>
      let* a := window_active now (window_bounds po) in
      if a then Ok true else any_window_active now rest
  end.

(** The outer loop over [current], left as soon as [is_active] is set. *)
Fixpoint is_active (now : Z) (current : list OfferGroup) : exc bool :=
  match current with
  | [] => Ok false
  | offer :: rest =>
      let* a := any_window_active now (group_windows offer) in
      if a then Ok true else is_active now rest
  end.

(** The loop of [fetch_free_games] that builds [free_now]. *)
Fixpoint free_now (now : Z) (elements : list Element) : exc (list Element) :=
  match elements with
  | [] => Ok []
  | el :: rest =>
      match current_offers el with
      | [] => free_now now rest
      | current =>
          let* a := is_active now current in
          let* tl := free_now now rest in
          Ok (if a then el :: tl else tl)
      end
  end.

(** The [try] block of [fetch_upcoming_games]. *)
Definition parse_start (po : PromoWindow) : option datetime :=
  match parse_bound (startDate po) with
  | Some start => start
  | None => None
  end.

(** The body of the window loop of [fetch_upcoming_games] on the pair
    [(is_future, starts_at)]. *)
Definition upcoming_window (now : Z) (acc : bool * option datetime) (po : PromoWindow)
  : exc (bool * option datetime) :=
  match parse_start po with
  | None => Ok acc
  | Some start =>
      let* c := cmp_now start now in
      match c with
      | Gt =>
          match snd acc with
          | None => Ok (true, Some start)
          | Some starts_at =>
              let* c' := dt_cmp start starts_at in
              Ok (true, Some (match c' with Lt => start | _ => starts_at end))
          end
      | _ => Ok acc
      end
  end.

Fixpoint upcoming_windows (now : Z) (acc : bool * option datetime) (pos : list PromoWindow)
  : exc (bool * option datetime) :=
  match pos with
  | [] => Ok acc
  | po :: rest => let* acc' := upcoming_window now acc po in upcoming_windows now acc' rest
  end.

Fixpoint upcoming_groups (now : Z) (acc : bool * option datetime) (offers : list OfferGroup)
  : exc (bool * option datetime) :=
  match offers with
  | [] => Ok acc
  | offer :: rest =>
      let* acc' := upcoming_windows now acc (group_windows offer) in
      upcoming_groups now acc' rest
  end.

(** The loop of [fetch_upcoming_games] that builds [upcoming]. *)
Fixpoint upcoming (now : Z) (elements : list Element) : exc (list Element) :=
  match elements with
  | [] => Ok []
  | el :: rest =>
      match upcoming_offers el with
      | [] => upcoming now rest
      | offers =>
          let* r := upcoming_groups now (false, None) offers in
          let* tl := upcoming now rest in
          Ok (if fst r then set_upcomingStart (isoformat <$> snd r) el :: tl else tl)
      end
  end.

(** [e.get("__upcomingStart") or ""]. *)
Definition sort_key (e : Element) : string := or_empty (upcomingStart e).

Fixpoint insert_by_key (x : Element) (l : list Element) : list Element :=
  match l with
  | [] => [x]
  | y :: l' =>
      if String.leb (sort_key x) (sort_key y) then x :: l
      else y :: insert_by_key x l'
  end.

(** [l.sort(key=...)]: the stable ascending sort on the string keys. *)
Fixpoint sort_upcoming (l : list Element) : list Element :=
  match l with
  | [] => []
  | x :: l' => insert_by_key x (sort_upcoming l')
  end.

(** What [fetch_upcoming_games] computes from the elements of a response. *)
Definition upcoming_sorted (now : Z) (elements : list Element) : exc (list Element) :=
  let* l := upcoming now elements in Ok (sort_upcoming l).

(** *** The data model's reading of an active offer

    The definitions below follow the specification's words, not the loops:
    a window is active at [now] when its start is absent or not after [now]
    and its end is absent or after [now], the bounds being those the [try]
    block leaves; an offer is free when one of its windows is active. *)

Definition absent_or_past (now : Z) (start : option datetime) : bool :=
  match start with
  | None => true
  | Some d => match instant d with Some t => (t <=? now)%Z | None => false end
  end.

Definition absent_or_future (now : Z) (end_ : option datetime) : bool :=
  match end_ with
  | None => true
  | Some d => match instant d with Some t => (now <? t)%Z | None => false end
  end.

Definition window_free_at (now : Z) (po : PromoWindow) : bool :=
  absent_or_past now (fst (window_bounds po)) && absent_or_future now (snd (window_bounds po)).

(** All the windows an element carries under [promotions.promotionalOffers]. *)
Definition windows (el : Element) : list PromoWindow :=
  concat (map group_windows (current_offers el)).

Definition is_free_at (now : Z) (el : Element) : bool :=
  existsb (window_free_at now) (windows el).

(** A bound that carries a UTC offset, or is absent. *)
Definition aware_bound (b : option datetime) : Prop :=
  match b with
  | Some d => is_Some (tzinfo d)
  | None => True
  end.

(** Every bound of every current window of the element denotes an instant. *)
Definition offset_aware (el : Element) : Prop :=
  Forall (fun po => aware_bound (fst (window_bounds po)) /\ aware_bound (snd (window_bounds po)))
         (windows el).

(** Parsing one of the window's two date strings raises. *)
Definition parse_fails (po : PromoWindow) : Prop :=
  parse_bound (startDate po) = None \/ parse_bound (endDate po) = None.

(** The soonest start of an upcoming element, as an instant: the least
    instant among its windows' starts that lie after [now]. *)
Definition future_starts (now : Z) (el : Element) : list Z :=
  omap (fun po =>
          match parse_start po with
          | Some d => match instant d with
                      | Some t => if (now <? t)%Z then Some t else None
                      | None => None
                      end
          | None => None
          end)
       (concat (map group_windows (upcoming_offers el))).

Definition soonestStart (now : Z) (el : Element) : option Z :=
  match future_starts now el with
  | [] => None
  | t :: ts => Some (fold_right Z.min t ts)
  end.

End Classifier.

(** ** The TTL cache *)

(** A value of [FREE_GAMES_CACHE]: the keys [at] and [items]. *)
Record CacheEntry : Type := mk_entry {
  fetched_at : Z;
  cached_items : list Element
}.

Definition CACHE_TTL_SECONDS : Z := 600.

Definition _cache_key (locale country kind : string) : string :=
  String.append locale (String.append "|" (String.append country (String.append "|" kind))).

(** [delta.total_seconds() > secs], for a difference [delta] of two instants
    in microseconds. *)
Definition total_seconds_gt (delta secs : Z) : bool := (secs * 1000000 <? delta)%Z.

(** [_get_cached] at the instant [now]: the value returned and the cache it
    leaves behind. *)
Definition _get_cached (now : Z) (locale country kind : string)
    (cache : gmap string CacheEntry) : option (list Element) * gmap string CacheEntry :=
  let key := _cache_key locale country kind in
  match cache !! key with
  | None => (None, cache)
  | Some entry =>
      if total_seconds_gt (now - fetched_at entry) CACHE_TTL_SECONDS
      then (None, delete key cache)
      else (Some (cached_items entry), cache)
  end.

Definition _set_cached (now : Z) (locale country kind : string) (items : list Element)
    (cache : gmap string CacheEntry) : gmap string CacheEntry :=
  <[_cache_key locale country kind := mk_entry now items]> cache.

(** ** The catalog client *)

(** What the fetch functions read and write: the cache, and the URLs requested
    from the catalog API so far. *)
Record World : Type := mk_world {
  FREE_GAMES_CACHE : gmap string CacheEntry;
  requests : list string
}.

(** What one call meets outside the program: the clock at its three readings
    and the elements the GET request yields, if it does not fail. *)
Record Call : Type := mk_call {
  t_lookup : Z;                      (* the clock in [_get_cached] *)
  response : exc (list Element);     (* [data.Catalog.searchStore.elements] *)
  t_now : Z;                         (* [now] of the classifier loop *)
  t_store : Z                        (* the clock in [_set_cached] *)
}.

Definition promotions_url (locale country : string) : string :=
  String.append "https://store-site-backend-static.ak.epicgames.com/freeGamesPromotions?locale="
   (String.append locale (String.append "&country="
    (String.append country (String.append "&allowCountries=" country)))).

Section CatalogClient.

Variable fromisoformat : string -> option Datetime.datetime.

(** The part both fetch functions share around their classifier [classify]. *)
Definition fetch_with_cache (kind : string)
    (classify : Z -> list Element -> exc (list Element))
    (c : Call) (locale country : string) (w : World) : exc (list Element) * World :=
  let '(cached, cache) := _get_cached (t_lookup c) locale country kind (FREE_GAMES_CACHE w) in
  match cached with
  | Some items => (Ok items, mk_world cache (requests w))
  | None =>
      let w' := mk_world cache (requests w ++ [promotions_url locale country]) in
      match (let* elements := response c in classify (t_now c) elements) with
      | Raise e => (Raise e, w')
      | Ok items =>
          (Ok items,
           mk_world (_set_cached (t_store c) locale country kind items cache) (requests w'))
      end
  end.

Definition fetch_free_games : Call -> string -> string -> World -> exc (list Element) * World :=
  fetch_with_cache "current" (free_now fromisoformat).

Definition fetch_upcoming_games : Call -> string -> string -> World -> exc (list Element) * World :=
  fetch_with_cache "upcoming" (upcoming_sorted fromisoformat).

End CatalogClient.

(** ** Store URLs and offer ids *)

Definition slug_to_url (locale : string) (slug : option string) : string :=
  let slug := Str.lstrip_slash (or_empty slug) in
  if Str.startswith slug "p/" || Str.startswith slug "bundles/" || Str.startswith slug "store/"
  then String.append "https://store.epicgames.com/" (String.append locale (String.append "/" slug))
  else String.append "https://store.epicgames.com/" (String.append locale (String.append "/p/" slug)).

(** [(m.get("pageType") or "").lower() == "producthome" and m.get("pageSlug")]. *)
Definition is_producthome (m : Mapping) : bool :=
  String.eqb (Str.lower (or_empty (pageType m))) "producthome" && truthy (pageSlug m).

(** The first loop over [mappings]: the slug it returns with, if any. *)
Fixpoint producthome_slug (ms : list Mapping) : option (option string) :=
  match ms with
  | [] => None
  | m :: rest => if is_producthome m then Some (pageSlug m) else producthome_slug rest
  end.

(** The loops that take the first mapping with a [pageSlug]. *)
Fixpoint any_slug (ms : list Mapping) : option (option string) :=
  match ms with
  | [] => None
  | m :: rest => if truthy (pageSlug m) then Some (pageSlug m) else any_slug rest
  end.

Definition build_store_url (el : Element) (locale : string) : string :=
  match producthome_slug (mappings el) with
  | Some slug => slug_to_url locale slug
  | None =>
  match any_slug (mappings el) with
  | Some slug => slug_to_url locale slug
  | None =>
  match any_slug (offerMappings el) with
  | Some slug => slug_to_url locale slug
  | None =>
      if truthy (productSlug el) then slug_to_url locale (productSlug el)
      else if truthy (urlSlug el) then slug_to_url locale (urlSlug el)
      else "https://store.epicgames.com/"
  end end end.

Definition get_offer_id (el : Element) : option string :=
  if truthy (id el) then id el
  else match items el with
       | iid :: _ => if truthy iid then iid else None
       | [] => None
       end.

(** ** The subscription store *)

(** A per-offer record of [offer_subs]: the keys [title], [pageSlug] and
    [notified]. *)
Record SubMeta : Type := mk_meta {
  sub_title : option string;
  sub_pageSlug : string;
  notified : bool
}.

#[global] Instance SubMeta_eq_dec : EqDecision SubMeta.
Proof. solve_decision. Defined.

(** The document kept in [subscribers.json]. *)
Record Store : Type := mk_store {
  chat_ids : list Z;
  users : gmap Z (gmap string string);
  offer_subs : gmap Z (gmap string SubMeta)
}.

(** [data.get("offer_subs", {}).get(str(chat_id), {})]. *)
Definition user_subs (chat_id : Z) (data : Store) : gmap string SubMeta :=
  default ∅ (offer_subs data !! chat_id).

Definition is_subscribed_to_offer (chat_id : Z) (offer_id : string) (data : Store) : bool :=
  bool_decide (is_Some (user_subs chat_id data !! offer_id)).

Definition subscribe_to_offer (chat_id : Z) (offer_id : string) (title : option string)
    (page_slug : option string) (data : Store) : Store :=
  mk_store (chat_ids data) (users data)
    (<[chat_id := <[offer_id := mk_meta title (or_empty page_slug) false]> (user_subs chat_id data)]>
       (offer_subs data)).

Definition unsubscribe_from_offer (chat_id : Z) (offer_id : string) (data : Store) : Store :=
  if bool_decide (is_Some (user_subs chat_id data !! offer_id)) then
    mk_store (chat_ids data) (users data)
      (<[chat_id := delete offer_id (user_subs chat_id data)]> (offer_subs data))
  else data.

(** ** The notification scheduler *)

(** What one run of [daily_job] meets outside the program: for each chat the
    outcome of its [fetch_free_games] call, and whether the message about an
    offer reaches the chat. *)
Record Tick : Type := mk_tick {
  free_games : Z -> exc (list Element);
  delivers : Z -> string -> bool
}.

(** What the run does towards the chats: [NowFree] is a [send_message] of the
    per-offer loop with its outcome; [Digest] is the call
    [send_free_games(chat_id, context)] of the digest loop, whose own fetch
    and sends are not followed here. *)
Inductive Message : Type :=
| NowFree (chat_id : Z) (oid : string) (text : string) (sent : bool)
| Digest (chat_id : Z).

(** The set [free_ids] built from [current]. *)
Definition free_ids_of (current : list Element) : gset string :=
  list_to_set (omap get_offer_id current).

(** [free_ids and oid in free_ids and not meta.get("notified")]. *)
Definition due (free_ids : gset string) (oid : string) (meta : SubMeta) : bool :=
  bool_decide (oid ∈ free_ids) && negb (notified meta).

Definition now_free_text (oid : string) (meta : SubMeta) : string :=
  String.append "Now free: "
   (String.append (if truthy (sub_title meta) then or_empty (sub_title meta) else oid)
    (String.append (String "010" EmptyString)
      (match sub_pageSlug meta with
       | EmptyString => "https://store.epicgames.com/"
       | slug => String.append "https://store.epicgames.com/en-US/p/" slug
       end))).

(** The body of the loop over [user_offer_subs.items()]: the record after it. *)
Definition notify_one (t : Tick) (chat_id : Z) (free_ids : gset string)
    (oid : string) (meta : SubMeta) : SubMeta :=
  if due free_ids oid meta && delivers t chat_id oid
  then mk_meta (sub_title meta) (sub_pageSlug meta) true
  else meta.

Definition notify_offers (t : Tick) (chat_id : Z) (free_ids : gset string)
    (user_offer_subs : gmap string SubMeta) : gmap string SubMeta :=
  map_imap (fun oid meta => Some (notify_one t chat_id free_ids oid meta)) user_offer_subs.

Definition any_sent (t : Tick) (chat_id : Z) (free_ids : gset string)
    (user_offer_subs : gmap string SubMeta) : bool :=
  existsb (fun '(oid, meta) => due free_ids oid meta && delivers t chat_id oid)
          (map_to_list user_offer_subs).

(** The [send_message] calls of the loop, with their outcome. *)
Definition offer_messages (t : Tick) (chat_id : Z) (free_ids : gset string)
    (user_offer_subs : gmap string SubMeta) : list Message :=
  omap (fun '(oid, meta) =>
          if due free_ids oid meta
          then Some (NowFree chat_id oid (now_free_text oid meta) (delivers t chat_id oid))
          else None)
       (map_to_list user_offer_subs).

(** [try: current = await fetch_free_games(...)  except Exception: current = []]. *)
Definition current_of (t : Tick) (chat_id : Z) : list Element :=
  match free_games t chat_id with
  | Ok l => l
  | Raise _ => []
  end.

(** [data["offer_subs"][str(chat_id)] = user_offer_subs; save_json(...)]. *)
Definition persist (chat_id : Z) (user_offer_subs : gmap string SubMeta) (file : Store) : Store :=
  mk_store (chat_ids file) (users file) (<[chat_id := user_offer_subs]> (offer_subs file)).

(** The loop over [chat_ids_to_process]: [snapshot] is the [offer_subs] read at
    the start of the run, [file] the document as saved so far. *)
Fixpoint process_chats (t : Tick) (snapshot : gmap Z (gmap string SubMeta))
    (chats : list Z) (file : Store) : Store * list Message :=
  match chats with
  | [] => (file, [])
  | chat_id :: rest =>
      let free_ids := free_ids_of (current_of t chat_id) in
      let user_offer_subs := default ∅ (snapshot !! chat_id) in
      let file' :=
        if any_sent t chat_id free_ids user_offer_subs
        then persist chat_id (notify_offers t chat_id free_ids user_offer_subs) file
        else file in
      let '(final, msgs) := process_chats t snapshot rest file' in
      (final, offer_messages t chat_id free_ids user_offer_subs ++ msgs)
  end.

(** The user's map as one pass of the loop leaves it, and whether the pass
    saves it. *)
Definition subs_after (t : Tick) (snapshot : gmap Z (gmap string SubMeta)) (chat : Z)
  : gmap string SubMeta :=
  notify_offers t chat (free_ids_of (current_of t chat)) (default ∅ (snapshot !! chat)).

Definition sent_any (t : Tick) (snapshot : gmap Z (gmap string SubMeta)) (chat : Z) : bool :=
  any_sent t chat (free_ids_of (current_of t chat)) (default ∅ (snapshot !! chat)).

(** [set(map(int, subs)) | set(map(int, offer_subs.keys()))]. *)
Definition chat_ids_to_process (store : Store) : gset Z :=
  list_to_set (chat_ids store) ∪ dom (offer_subs store).

(** One run of the scheduled job: the document it leaves, the messages of
    its per-offer loop and, last, the calls of [send_free_games] it makes for
    the chats of the digest list. *)
Definition daily_job (t : Tick) (store : Store) : Store * list Message :=
  let '(final, msgs) :=
    process_chats t (offer_subs store) (elements (chat_ids_to_process store)) store in
  (final, msgs ++ map Digest (chat_ids store)).

(** Successive runs of the job. *)
Fixpoint run_ticks (ts : list Tick) (store : Store) : Store * list Message :=
  match ts with
  | [] => (store, [])
  | t :: rest =>
      let '(store', msgs) := daily_job t store in
      let '(final, msgs') := run_ticks rest store' in
      (final, msgs ++ msgs')
  end.

(** ** Content documents *)

(** A parsed JSON value. A float is kept by what the scan can observe of it:
    whether it is non-zero and how it prints. An object lists its keys, which
    are distinct, in insertion order. *)
#[warnings="-register-all"]
Inductive json : Type :=
| JNull
| JBool (b : bool)
| JNum (z : Z)
| JFloat (nonzero : bool) (repr : string)
| JStr (s : string)
| JArr (l : list json)
| JObj (kvs : list (string * json)).

(** [bool(v)]. *)
Definition json_truthy (v : json) : bool :=
  match v with
  | JNull => false
  | JBool b => b
  | JNum z => negb (z =? 0)%Z
  | JFloat nz _ => nz
  | JStr s => truthy (Some s)
  | JArr l => match l with [] => false | _ => true end
  | JObj kvs => match kvs with [] => false | _ => true end
  end.

(** [k in obj] and [obj[k]]. *)
Fixpoint lookup_key (k : string) (kvs : list (string * json)) : option json :=
  match kvs with
  | [] => None
  | (k', v) :: rest => if String.eqb k k' then Some v else lookup_key k rest
  end.

(** [obj.get(k)], [None] read as [JNull]. *)
Definition get (k : string) (kvs : list (string * json)) : json :=
  default JNull (lookup_key k kvs).

(** ** The media resolver *)

(** The pair [(direct, yt)]. *)
Definition found : Type := option string * option string.

(** [direct = direct or d; yt = yt or y]. *)
Definition merge (a r : found) : found :=
  (or_else (fst a) (fst r), or_else (snd a) (snd r)).

(** [low.endswith((".mp4", ".webm", ".mov")) or ".mp4" in low]. *)
Definition is_video (low : string) : bool :=
  Str.endswith low ".mp4" || Str.endswith low ".webm" || Str.endswith low ".mov"
  || Str.contains ".mp4" low.

Definition is_youtube (low : string) : bool :=
  Str.contains "youtube.com" low || Str.contains "youtu.be" low.

(** [(src or {}).get(k)]. *)
Definition src_get (src : json) (k : string) : exc json :=
  if json_truthy src then
    match src with
    | JObj kvs => Ok (get k kvs)
    | _ => Raise AttributeError
    end
  else Ok JNull.

Fixpoint pick_from_list (sources : list json) : exc (option string) :=
  match sources with
  | [] => Ok None
  | src :: rest =>
      let* a := src_get src "src" in
      let* url := (if json_truthy a then Ok a else src_get src "url") in
      match url with
      | JStr u => if is_video (Str.lower u) then Ok (Some u) else pick_from_list rest
      | _ => pick_from_list rest
      end
  end.

Definition pick_from_sources (sources : json) : exc (option string) :=
  match sources with
  | JArr l => pick_from_list l
  | _ => Ok None
  end.

(** [consider] on a string. *)
Definition consider_str (value : string) (a : found) : found :=
  let v := Str.strip value in
  let low := Str.lower v in
  let direct := if is_video low && negb (truthy (fst a)) then Some v else fst a in
  let yt := if is_youtube low && negb (truthy (snd a)) then Some v else snd a in
  (direct, yt).

(** [consider(value)]: [(value or "").strip()] needs a string. *)
Definition consider (value : json) (a : found) : exc found :=
  if json_truthy value then
    match value with
    | JStr s => Ok (consider_str s a)
    | _ => Raise AttributeError
    end
  else Ok (consider_str "" a).

Section MediaResolver.

(** What an f-string prints for a value. *)
Variable format_value : json -> string.

(** [if k in obj and obj[k] and not <found>: consider(obj[k])]. *)
Definition hint (k : string) (already : bool) (kvs : list (string * json)) (a : found)
  : exc found :=
  match lookup_key k kvs with
  | Some v => if json_truthy v && negb already then consider v a else Ok a
  | None => Ok a
  end.

(** The "common patterns" of [scan_modules] on a dict, in their order. *)
Definition hints (kvs : list (string * json)) : exc found :=
  let a : found := (None, None) in
  let a :=
    match get "provider" kvs with
    | JStr p =>
        if String.eqb p "youtube" && json_truthy (get "id" kvs) && negb (truthy (snd a))
        then (fst a, Some (String.append "https://youtu.be/" (format_value (get "id" kvs))))
        else a
    | _ => a
    end in
  let* a := hint "youTubeUrl" (truthy (snd a)) kvs a in
  let* a := hint "youtubeUrl" (truthy (snd a)) kvs a in
  let* a := hint "videoUrl" (truthy (fst a)) kvs a in
  let* a :=
    match lookup_key "video" kvs with
    | Some (JObj video) =>
        let* cand := pick_from_sources (get "sources" video) in
        Ok (or_else (fst a) cand, snd a)
    | _ => Ok a
    end in
  match lookup_key "sources" kvs with
  | Some sources =>
      let* cand := pick_from_sources sources in
      Ok (or_else (fst a) cand, snd a)
  | None => Ok a
  end.

(** [for item in obj: d, y = scan(item); direct = direct or d; yt = yt or y]. *)
Definition scan_items (scan : json -> exc found) : list json -> found -> exc found :=
  fix each (l : list json) (a : found) : exc found :=
    match l with
    | [] => Ok a
    | item :: rest => let* r := scan item in each rest (merge a r)
    end.

(** The same loop over [obj.values()], which skips what is neither a dict nor
    a list. *)
Definition scan_values (scan : json -> exc found)
  : list (string * json) -> found -> exc found :=
  fix each (kvs : list (string * json)) (a : found) : exc found :=
    match kvs with
    | [] => Ok a
    | (_, v) :: rest =>
        match v with
        | JObj _ | JArr _ => let* r := scan v in each rest (merge a r)
        | _ => each rest a
        end
    end.

Fixpoint scan_modules (obj : json) : exc found :=
  match obj with
  | JObj kvs => let* a := hints kvs in scan_values scan_modules kvs a
  | JArr l => scan_items scan_modules l (None, None)
  | JStr s => consider (JStr s) (None, None)
  | _ => Ok (None, None)
  end.

(** [re.sub(r"-[0-9a-f]{6}$", "", page_slug, flags=re.IGNORECASE)], on the
    reversed characters: the match sits at the end of the string, or just
    before a newline that ends it. *)
Definition is_hex (c : ascii) : bool :=
  let n := N_of_ascii c in
  (((48 <=? n) && (n <=? 57)) || ((97 <=? n) && (n <=? 102)) || ((65 <=? n) && (n <=? 70)))%N.

Definition drop_hex_suffix (r : list ascii) : option (list ascii) :=
  match r with
  | h6 :: h5 :: h4 :: h3 :: h2 :: h1 :: dash :: rest =>
      if is_hex h6 && is_hex h5 && is_hex h4 && is_hex h3 && is_hex h2 && is_hex h1
         && Ascii.eqb dash "-"
      then Some rest else None
  | _ => None
  end.

Definition strip_content_id (page_slug : string) : string :=
  let r := List.rev (list_ascii_of_string page_slug) in
  match drop_hex_suffix r with
  | Some rest => string_of_list_ascii (List.rev rest)
  | None =>
      match r with
      | nl :: r' =>
          if Ascii.eqb nl "010" then
            match drop_hex_suffix r' with
            | Some rest => string_of_list_ascii (List.rev rest ++ [nl])
            | None => page_slug
            end
          else page_slug
      | [] => page_slug
      end
  end.

Definition nonempty (s : string) : bool := truthy (Some s).

Definition slug_candidates (page_slug namespace : string) : list string :=
  let stripped := strip_content_id page_slug in
  let candidates :=
    page_slug :: (if nonempty stripped && negb (String.eqb stripped page_slug)
                  then [stripped] else []) in
  if nonempty namespace then
    List.filter nonempty
      (candidates ++ [String.append namespace (String.append "/" page_slug)]
                  ++ (if nonempty stripped
                      then [String.append namespace (String.append "/" stripped)] else []))
  else candidates.

(** The content API: the parsed body of a GET on a URL, or the exception the
    request or its decoding raises. *)
Variable content : string -> exc json.

(** The loop over [slug_candidates]: [data] when it is left. *)
Fixpoint try_slugs (base : string) (slugs : list string) : json :=
  match slugs with
  | [] => JNull
  | attempt_slug :: rest =>
      match content (String.append base attempt_slug) with
      | Ok data => data
      | Raise _ => try_slugs base rest
      end
  end.

(** The loop over [locales_to_try]. *)
Fixpoint try_locales (locales : list string) (slugs : list string) : json :=
  match locales with
  | [] => JNull
  | loc :: rest =>
      match try_slugs (String.append "https://store-content.ak.epicgames.com/api/"
                         (String.append loc "/content/products/")) slugs with
      | JNull => try_locales rest slugs
      | data => data
      end
  end.

(** The loop over [pages] that collects the modules of the product-home
    pages. *)
Fixpoint producthome_modules (pages : list json) : exc (list json) :=
  match pages with
  | [] => Ok []
  | JObj page :: rest =>
      let ty :=
        if json_truthy (get "_type" page) then get "_type" page
        else if json_truthy (get "type" page) then get "type" page
        else JStr "" in
      match ty with
      | JStr s =>
          let* tl := producthome_modules rest in
          Ok (if String.eqb (Str.lower s) "producthome" then get "modules" page :: tl else tl)
      | _ => Raise AttributeError
      end
  | _ :: _ => Raise AttributeError
  end.

(** [fetch_trailer_urls] once the document [data] is there. *)
Definition resolve (data : json) : exc found :=
  match data with
  | JObj kvs =>
      let pages := get "pages" kvs in
      let* from_pages :=
        (if json_truthy pages then
           match pages with
           | JArr l => producthome_modules l
           | JObj _ | JStr _ => Raise AttributeError
           | _ => Raise TypeError
           end
         else Ok []) in
      let modules_candidates :=
        match from_pages, lookup_key "modules" kvs with
        | [], Some modules => [modules]
        | _, _ => from_pages
        end in
      let* r := scan_items scan_modules modules_candidates (None, None) in
      if negb (truthy (fst r)) && negb (truthy (snd r))
      then let* g := scan_modules data in Ok (merge r g)
      else Ok r
  | _ => Raise AttributeError
  end.

Definition fetch_trailer_urls (page_slug locale namespace : string) : exc found :=
  match try_locales [locale; "en"; "en-GB"] (slug_candidates page_slug namespace) with
  | JNull => Ok (None, None)
  | data => resolve data
  end.

End MediaResolver.

(** ** Statements and auxiliary definitions *)

(** The records kept for one offer id in a user's map. *)
Definition records_for (offer : string) (subs : gmap string SubMeta) : list (string * SubMeta) :=
  filter (fun kv => fst kv = offer) (map_to_list subs).

(** The statement of C4's last clause: a subscribe never resets the flag of an
    offer that is already tracked and notified. *)
Definition subscribe_keeps_notified : Prop :=
  forall chat offer title slug data meta,
    user_subs chat data !! offer = Some meta ->
    notified meta = true ->
    exists meta',
      user_subs chat (subscribe_to_offer chat offer title slug data) !! offer = Some meta'
      /\ notified meta' = true.

(** [m.get("pageSlug")] is truthy. *)
Definition has_slug (m : Mapping) : bool := truthy (pageSlug m).

(** The slug rule as C8 words it: a slug that begins with [p/], [bundles/] or
    [store/] is used as it is, any other slug is prefixed with [p/]. *)
Definition claimed_slug_url (locale slug : string) : string :=
  if Str.startswith slug "p/" || Str.startswith slug "bundles/" || Str.startswith slug "store/"
  then String.append "https://store.epicgames.com/" (String.append locale (String.append "/" slug))
  else String.append "https://store.epicgames.com/" (String.append locale (String.append "/p/" slug)).

(** The statement of C8's slug rule on an element whose only slug is its
    [productSlug]. *)
Definition slug_used_as_claimed : Prop :=
  forall el locale slug,
    mappings el = [] -> offerMappings el = [] -> productSlug el = Some slug ->
    build_store_url el locale = claimed_slug_url locale slug.


(** ** Sample catalogs *)

(** An element with one current window and nothing else. *)
Definition offer_with_window (name : string) (start end_ : option string) : Element :=
  mk_element (Some name) (Some name) [] [] [] None None
    (Some (mk_promotions [mk_group [mk_window start end_]] [])) None.

(** An element with one upcoming window and nothing else. *)
Definition offer_upcoming (name : string) (start : string) : Element :=
  mk_element (Some name) (Some name) [] [] [] None None
    (Some (mk_promotions [] [mk_group [mk_window (Some start) None]])) None.

(** 2025-01-01T00:00:00 UTC. *)
Definition new_year_2025 : Z :=
  Datetime.instant_us (Datetime.mk_datetime 2025 1 1 0 0 0 0 None) 0.

(** A call that reads the clock at 2025-01-01T00:00:00 UTC throughout. *)
Definition call_2025 (elements : list Element) : Call :=
  mk_call new_year_2025 (Ok elements) new_year_2025 new_year_2025.

Definition empty_world : World := mk_world ∅ [].

Definition alpha : Element := offer_with_window "Alpha" None (Some "2999-01-01T00:00:00Z").
Definition beta : Element := offer_with_window "Beta" (Some "2999-01-01T00:00:00Z") None.

(** A start that does not parse, and an end long past. *)
Definition gamma_window : PromoWindow := mk_window (Some "soon") (Some "2000-01-01T00:00:00Z").
Definition gamma : Element :=
  mk_element (Some "Gamma") (Some "Gamma") [] [] [] None None
    (Some (mk_promotions [mk_group [gamma_window]] [])) None.

(** ** The windows' own dates

    The specification speaks of a window's start and end. Below each date
    string is read on its own: [own_date] is the datetime the string denotes
    once a [Z] suffix is written as an offset, and is absent when there is no
    string or the string denotes none. *)

Section OwnDates.

Variable fromisoformat : string -> option Datetime.datetime.

Definition own_date (s : option string) : option Datetime.datetime :=
  if truthy s then fromisoformat (Str.replace_Z (or_empty s)) else None.

(** The string is there and denotes no date. *)
Definition unreadable (s : option string) : bool :=
  truthy s &&
  match fromisoformat (Str.replace_Z (or_empty s)) with
  | Some _ => false
  | None => true
  end.

(** One of the window's two date strings is unreadable. *)
Definition garbled (po : PromoWindow) : bool :=
  unreadable (startDate po) || unreadable (endDate po).

(** The window's start is absent or not after [now], and its end is absent
    or after [now]. *)
Definition open_at (now : Z) (po : PromoWindow) : bool :=
  absent_or_past now (own_date (startDate po))
  && absent_or_future now (own_date (endDate po)).

(** The element has a window with an unreadable date, or one open at
    [now]. *)
Definition listed_at (now : Z) (el : Element) : bool :=
  existsb (fun po => garbled po || open_at now po) (windows el).

(** Every date of every current window of the element carries a UTC offset. *)
Definition dates_aware (el : Element) : Prop :=
  Forall (fun po => aware_bound (own_date (startDate po))
                    /\ aware_bound (own_date (endDate po)))
         (windows el).

(** The statement of C2: on a fresh fetch an element is in the result exactly
    when it is in the catalog and has a window open at [now]. *)
Definition listed_iff_open_window : Prop :=
  forall (c : Call) (locale country : string) (w : World) (elements l : list Element)
         (el : Element),
    fst (_get_cached (t_lookup c) locale country "current" (FREE_GAMES_CACHE w)) = None ->
    response c = Ok elements ->
    fst (fetch_free_games fromisoformat c locale country w) = Ok l ->
    (In el l <-> In el elements /\ exists po, In po (windows el) /\ open_at (t_now c) po = true).

End OwnDates.

(** An offer whose only window starts in the year 2999 and has an end that
    is no date. *)
Definition not_yet : Element :=
  offer_with_window "NotYet" (Some "2999-01-01T00:00:00Z") (Some "tbd").

(** The second call reads the clock within the TTL of the entry the cache holds
    for the key. *)
Definition within_ttl (kind locale country : string) (c : Call) (w : World) : Prop :=
  forall entry,
    FREE_GAMES_CACHE w !! _cache_key locale country kind = Some entry ->
    (t_lookup c - fetched_at entry <= CACHE_TTL_SECONDS * 1000000)%Z.

(** Cache idempotence of a fetch function of class [kind]: a call that
    returns, followed by a call for the same key within the TTL. *)
Definition cache_idempotent (kind : string)
    (fetch : Call -> string -> string -> World -> exc (list Element) * World) : Prop :=
  forall c1 c2 locale country w0 r1 w1,
    fetch c1 locale country w0 = (Ok r1, w1) ->
    within_ttl kind locale country c2 w1 ->
    (* the second call returns the same items and changes nothing: no request *)
    fetch c2 locale country w1 = (Ok r1, w1)
    (* the two calls together issue at most one request *)
    /\ length (requests w1) <= length (requests w0) + 1
    (* a hit returns the cached items and issues no request *)
    /\ (forall items,
          fst (_get_cached (t_lookup c1) locale country kind (FREE_GAMES_CACHE w0)) = Some items ->
          r1 = items /\ w1 = w0)
    (* a fresh fetch issues one request and has populated the cache *)
    /\ (fst (_get_cached (t_lookup c1) locale country kind (FREE_GAMES_CACHE w0)) = None ->
          requests w1 = requests w0 ++ [promotions_url locale country]
          /\ FREE_GAMES_CACHE w1 !! _cache_key locale country kind
             = Some (mk_entry (t_store c1) r1)).

(** ** Sample runs of the scheduler *)

(** Chat 7 watches the offer [Alpha]. *)
Definition watching_store : Store :=
  subscribe_to_offer 7 "Alpha" (Some "Alpha") (Some "alpha") (mk_store [] ∅ ∅).

(** A run in which the catalog lists [offers] as free and every message is
    delivered, or none is. *)
Definition tick_with (offers : list Element) (delivered : bool) : Tick :=
  mk_tick (fun _ => Ok offers) (fun _ _ => delivered).

(** ** The media resolver: auxiliary notions *)

(** A found value is never an empty string. *)
Definition clean1 (o : option string) : bool :=
  match o with
  | Some EmptyString => false
  | _ => true
  end.

Definition clean (a : found) : Prop := clean1 (fst a) = true /\ clean1 (snd a) = true.

(** A stripped string counts as a direct video, as a YouTube link. *)
Definition is_direct (v : string) : bool := is_video (Str.lower v).
Definition is_youtube_link (v : string) : bool := is_youtube (Str.lower v).

(** A no-break space, U+00A0. *)
Definition nbsp : string := String "194" (String "160" EmptyString).

(** The document of the specification's trailer scenario. *)
Definition trailer_document : json :=
  JObj [("modules", JArr [JObj [("youTubeUrl", JStr "https://youtu.be/abc123")]])].

(** Structural induction on documents, through the lists they nest. *)
Section JsonInduction.

Variable P : json -> Prop.
Hypothesis HNull : P JNull.
Hypothesis HBool : forall b, P (JBool b).
Hypothesis HNum : forall z, P (JNum z).
Hypothesis HFloat : forall nz r, P (JFloat nz r).
Hypothesis HStr : forall s, P (JStr s).
Hypothesis HArr : forall l, Forall P l -> P (JArr l).
Hypothesis HObj : forall kvs, Forall (fun kv => P (snd kv)) kvs -> P (JObj kvs).

Fixpoint json_nested_ind (j : json) : P j :=
  match j with
  | JNull => HNull
  | JBool b => HBool b
  | JNum z => HNum z
  | JFloat nz r => HFloat nz r
  | JStr s => HStr s
  | JArr l =>
      HArr l ((fix all (l : list json) : Forall P l :=
                 match l with
                 | [] => List.Forall_nil P
                 | x :: l' => @List.Forall_cons _ P x l' (json_nested_ind x) (all l')
                 end) l)
  | JObj kvs =>
      HObj kvs ((fix all (kvs : list (string * json)) : Forall (fun kv => P (snd kv)) kvs :=
                   match kvs with
                   | [] => List.Forall_nil _
                   | kv :: kvs' =>
                       @List.Forall_cons _ (fun kv => P (snd kv)) kv kvs'
                         (json_nested_ind (snd kv)) (all kvs')
                   end) kvs)
  end.

End JsonInduction.

(** A computation of the scan returns a clean pair or raises
    [AttributeError]. *)
Definition good (m : exc found) : Prop :=
  match m with
  | Ok r => clean r
  | Raise e => e = AttributeError
  end.

Definition good1 (m : exc (option string)) : Prop :=
  match m with
  | Ok o => clean1 o = true
  | Raise e => e = AttributeError
  end.

(** *** The hints of a dict, one at a time

    [r] keeps what [a] has found: a found value of either kind is the same in
    [r]. *)
Definition keeps (a r : found) : Prop :=
  (truthy (fst a) = true -> fst r = fst a) /\ (truthy (snd a) = true -> snd r = snd a).

Section HintSteps.

Variable format_value : json -> string.

(** [if obj.get("provider") == "youtube" and obj.get("id") and not yt]. *)
Definition provider_hint (kvs : list (string * json)) (a : found) : exc found :=
  Ok match get "provider" kvs with
     | JStr p =>
         if String.eqb p "youtube" && json_truthy (get "id" kvs) && negb (truthy (snd a))
         then (fst a, Some (String.append "https://youtu.be/" (format_value (get "id" kvs))))
         else a
     | _ => a
     end.

(** [if "video" in obj and isinstance(obj["video"], dict)]. *)
Definition video_sources_hint (kvs : list (string * json)) (a : found) : exc found :=
  match lookup_key "video" kvs with
  | Some (JObj video) =>
      let* cand := pick_from_sources (get "sources" video) in
      Ok (or_else (fst a) cand, snd a)
  | _ => Ok a
  end.

(** [if "sources" in obj]. *)
Definition sources_hint (kvs : list (string * json)) (a : found) : exc found :=
  match lookup_key "sources" kvs with
  | Some sources =>
      let* cand := pick_from_sources sources in
      Ok (or_else (fst a) cand, snd a)
  | None => Ok a
  end.

(** The six "common patterns" in the order [scan_modules] tries them, each
    acting on what has been found so far. *)
Definition hint_steps (kvs : list (string * json)) : list (found -> exc found) :=
  [provider_hint kvs;
   fun a => hint "youTubeUrl" (truthy (snd a)) kvs a;
   fun a => hint "youtubeUrl" (truthy (snd a)) kvs a;
   fun a => hint "videoUrl" (truthy (fst a)) kvs a;
   video_sources_hint kvs;
   sources_hint kvs].

Fixpoint run_steps (steps : list (found -> exc found)) (a : found) : exc found :=
  match steps with
  | [] => Ok a
  | step :: rest => let* a' := step a in run_steps rest a'
  end.

End HintSteps.

(** Two upcoming offers whose starts carry different UTC offsets: [early_bird]
    starts at 2999-02-28T23:00:00 UTC, [late_riser] an hour later. *)
Definition early_bird : Element := offer_upcoming "Early" "2999-03-01T01:00:00+02:00".
Definition late_riser : Element := offer_upcoming "Late" "2999-03-01T00:00:00Z".

(** The order the sort compares keys with. *)
Definition key_le (a b : Element) : Prop := String.leb (sort_key a) (sort_key b) = true.

(** The elements of a list that carry the key [k], in their order. *)
Definition with_key (k : string) (l : list Element) : list Element :=
  filter (fun e => sort_key e = k) l.

(** ** Further statements *)

(** [m] is the least element of [ts]. *)
Definition least (m : Z) (ts : list Z) : Prop := m ∈ ts /\ forall t, t ∈ ts -> (m <= t)%Z.

(** The instant of a window's start when it parses, carries an offset and
    lies after [now]. *)
Definition future_start (fromisoformat : string -> option Datetime.datetime)
    (now : Z) (po : PromoWindow) : option Z :=
  match parse_start fromisoformat po with
  | Some d => match Datetime.instant d with
              | Some t => if (now <? t)%Z then Some t else None
              | None => None
              end
  | None => None
  end.

(** What the window loop of [fetch_upcoming_games] holds in
    [(is_future, starts_at)] once it has met the future starts [ts]. *)
Definition tracks_soonest (acc : bool * option Datetime.datetime) (ts : list Z) : Prop :=
  match snd acc with
  | None => fst acc = false /\ ts = []
  | Some d => fst acc = true
              /\ exists off, Datetime.tzinfo d = Some off /\ least (Datetime.instant_us d off) ts
  end.

(** The start the window loop holds is the parsed start of one of the
    windows [pos] it has met. *)
Definition from_window (fromisoformat : string -> option Datetime.datetime)
    (acc : bool * option Datetime.datetime) (pos : list PromoWindow) : Prop :=
  forall d, snd acc = Some d ->
    exists po, po ∈ pos /\ parse_start fromisoformat po = Some d.

(** All the windows an element carries under
    [promotions.upcomingPromotionalOffers]. *)
Definition upcoming_windows_of (el : Element) : list PromoWindow :=
  concat (map group_windows (upcoming_offers el)).

(** No [|] occurs in the string. *)
Definition no_bar (s : string) : Prop := Str.contains "|" s = false.

(** A fetch of class [kind] that raises has asked the catalog API once, leaves
    no entry under its key and no other entry changed, and the next fetch for
    the key asks again. *)
Definition failure_not_cached (kind : string)
    (fetch : Call -> string -> string -> World -> exc (list Element) * World) : Prop :=
  forall c locale country w e w1,
    fetch c locale country w = (Raise e, w1) ->
    requests w1 = requests w ++ [promotions_url locale country]
    /\ FREE_GAMES_CACHE w1 !! _cache_key locale country kind = None
    /\ (forall k, k <> _cache_key locale country kind ->
          FREE_GAMES_CACHE w1 !! k = FREE_GAMES_CACHE w !! k)
    /\ (forall c2, requests (snd (fetch c2 locale country w1))
                   = requests w1 ++ [promotions_url locale country]).

(** ** The digest list and the user preferences *)

(** [l.remove(x)] on a list that holds [x]: the first occurrence goes. *)
Fixpoint remove_first (x : Z) (l : list Z) : list Z :=
  match l with
  | [] => []
  | y :: l' => if decide (x = y) then l' else y :: remove_first x l'
  end.

(** [subscribe_cmd]: the document it leaves and its reply. *)
Definition subscribe_cmd (chat_id : Z) (data : Store) : Store * string :=
  if bool_decide (chat_id ∈ chat_ids data)
  then (data, "You're already subscribed.")
  else (mk_store (chat_ids data ++ [chat_id]) (users data) (offer_subs data),
        "Subscribed. You'll get a daily reminder.").

(** [unsubscribe_cmd]: the document it leaves and its reply. *)
Definition unsubscribe_cmd (chat_id : Z) (data : Store) : Store * string :=
  if bool_decide (chat_id ∈ chat_ids data)
  then (mk_store (remove_first chat_id (chat_ids data)) (users data) (offer_subs data),
        "Unsubscribed.")
  else (data, "You were not subscribed.").

(** [get_user_prefs]: the pair [(locale, country)]. *)
Definition get_user_prefs (chat_id : Z) (data : Store) : string * string :=
  let prefs := default ∅ (users data !! chat_id) in
  (default "en-US" (prefs !! "locale"), default "US" (prefs !! "country")).

Definition set_user_pref (chat_id : Z) (key value : string) (data : Store) : Store :=
  mk_store (chat_ids data)
    (<[chat_id := <[key := value]> (default ∅ (users data !! chat_id))]> (users data))
    (offer_subs data).

(** [setlocale_cmd] with the arguments [args] of the command. *)
Definition setlocale_cmd (chat_id : Z) (args : list string) (data : Store) : Store * string :=
  match args with
  | [] => (data, "Usage: /setlocale en-US")
  | locale :: _ =>
      (set_user_pref chat_id "locale" locale data, String.append "Locale set to " locale)
  end.

Section Country.

(** [str.upper]: the upper-case form of a text, which for letters outside
    ASCII follows the Unicode tables and can differ in length. *)
Variable upper : string -> string.

(** [setcountry_cmd] with the arguments [args] of the command. *)
Definition setcountry_cmd (chat_id : Z) (args : list string) (data : Store) : Store * string :=
  match args with
  | [] => (data, "Usage: /setcountry US")
  | country :: _ =>
      (set_user_pref chat_id "country" (upper country) data,
       String.append "Country set to " (upper country))
  end.

End Country.

(** ** Images *)

(** An entry of [keyImages]. *)
Record KeyImage : Type := mk_image {
  image_type : option string;
  image_url : option string
}.

Definition preferred_types : list string :=
  ["OfferImageWide"; "DieselStoreFrontWide"; "DieselStoreFront"; "Thumbnail"].

(** The inner loop of the first pass: the first image of type [ptype] with a
    url. *)
Fixpoint first_with_type (ptype : string) (key_images : list KeyImage) : option (option string) :=
  match key_images with
  | [] => None
  | img :: rest =>
      if bool_decide (image_type img = Some ptype) && truthy (image_url img)
      then Some (image_url img)
      else first_with_type ptype rest
  end.

(** The first pass, over the preferred types in their order. *)
Fixpoint first_preferred (ptypes : list string) (key_images : list KeyImage)
  : option (option string) :=
  match ptypes with
  | [] => None
  | ptype :: rest =>
      match first_with_type ptype key_images with
      | Some url => Some url
      | None => first_preferred rest key_images
      end
  end.

(** [pick_image_url], on [el.get("keyImages") or []]. *)
Definition pick_image_url (key_images : list KeyImage) : option string :=
  match first_preferred preferred_types key_images with
  | Some url => url
  | None =>
      match key_images with
      | img :: _ => image_url img
      | [] => None
      end
  end.

(** An image the first pass can return: its type is the preferred type of
    rank [i] and its url is not empty. *)
Definition candidate (ptypes : list string) (i : nat) (img : KeyImage) : Prop :=
  (exists ptype, ptypes !! i = Some ptype /\ image_type img = Some ptype)
  /\ truthy (image_url img) = true.

(** ** Page slugs *)

(** [s.split("/")]. *)
Fixpoint split_slash (s : string) : list string :=
  match s with
  | EmptyString => [EmptyString]
  | String c s' =>
      if Str.is_slash c then EmptyString :: split_slash s'
      else match split_slash s' with
           | part :: parts => String c part :: parts
           | [] => [String c EmptyString]
           end
  end.

(** ["/".join(parts)]. *)
Fixpoint join_slash (parts : list string) : string :=
  match parts with
  | [] => EmptyString
  | [part] => part
  | part :: rest => String.append part (String "/" (join_slash rest))
  end.

(** [part in {"p", "bundles", "store"}]. *)
Definition is_store_prefix (part : string) : bool :=
  String.eqb part "p" || String.eqb part "bundles" || String.eqb part "store".

(** [normalize_slug] of [get_page_slug]. *)
Definition normalize_slug (slug : option string) : string :=
  let slug := Str.lstrip_slash (Str.strip (or_empty slug)) in
  let parts := split_slash slug in
  let parts :=
    match parts with
    | part :: rest => if is_store_prefix part then rest else parts
    | [] => parts
    end in
  join_slash parts.

Definition get_page_slug (el : Element) : option string :=
  match producthome_slug (mappings el) with
  | Some slug => Some (normalize_slug slug)
  | None =>
  match any_slug (mappings el) with
  | Some slug => Some (normalize_slug slug)
  | None =>
  match any_slug (offerMappings el) with
  | Some slug => Some (normalize_slug slug)
  | None =>
      if truthy (productSlug el) then Some (normalize_slug (productSlug el))
      else if truthy (urlSlug el) then Some (normalize_slug (urlSlug el))
      else None
  end end end.

(** The slug both [build_store_url] and [get_page_slug] start from: the first
    source, in their common order, that yields one. *)
Definition source_slug (el : Element) : option (option string) :=
  match producthome_slug (mappings el) with
  | Some slug => Some slug
  | None =>
  match any_slug (mappings el) with
  | Some slug => Some slug
  | None =>
  match any_slug (offerMappings el) with
  | Some slug => Some slug
  | None =>
      if truthy (productSlug el) then Some (productSlug el)
      else if truthy (urlSlug el) then Some (urlSlug el)
      else None
  end end end.

(** The link a "now free" notification carries for a stored page slug. *)
Definition notification_link (page_slug : string) : string :=
  match page_slug with
  | EmptyString => "https://store.epicgames.com/"
  | slug => String.append "https://store.epicgames.com/en-US/p/" slug
  end.

(** ** Trailer lookups *)

(** The address [fetch_trailer_urls] requests for a locale and a candidate. *)
Definition content_url (loc attempt_slug : string) : string :=
  String.append
    (String.append "https://store-content.ak.epicgames.com/api/"
       (String.append loc "/content/products/"))
    attempt_slug.

(** Six hexadecimal digits, of either case. *)
Definition hex6 (h : string) : bool :=
  (String.length h =? 6) && forallb is_hex (list_ascii_of_string h).

(** A request that yields no document: it raises, or its body is [null]. *)
Definition no_document (response : exc json) : Prop :=
  response = Ok JNull \/ exists e, response = Raise e.

(** A content service that knows one address only. *)
Definition only_at (url : string) (data : json) : string -> exc json :=
  fun u => if String.eqb u url then Ok data else Raise UpstreamError.

(** ** The YouTube search *)

(** [urllib.parse.quote_plus], on the bytes of the query: letters, digits and
    [_.-~] are kept, a space becomes [+], any other byte [%XX]. *)
Definition is_alnum (c : ascii) : bool :=
  let n := N_of_ascii c in
  (((48 <=? n) && (n <=? 57)) || ((65 <=? n) && (n <=? 90)) || ((97 <=? n) && (n <=? 122)))%N.

Definition is_unreserved (c : ascii) : bool :=
  is_alnum c || Ascii.eqb c "_" || Ascii.eqb c "." || Ascii.eqb c "-" || Ascii.eqb c "~".

Definition hex_digit (n : N) : ascii :=
  if (n <? 10)%N then ascii_of_N (48 + n) else ascii_of_N (55 + n).

Fixpoint quote_plus (s : string) : string :=
  match s with
  | EmptyString => EmptyString
  | String c s' =>
      if is_unreserved c then String c (quote_plus s')
      else if Ascii.eqb c " " then String "+" (quote_plus s')
      else String "%" (String (hex_digit (N_of_ascii c / 16))
                        (String (hex_digit (N_of_ascii c mod 16)) (quote_plus s')))
  end.

Definition search_url (query : string) : string :=
  String.append "https://www.youtube.com/results?search_query=" (quote_plus query).

(** The pattern [\"videoId\":\"([A-Za-z0-9_-]{11})\"]. *)
Definition dquote : ascii := "034".

Definition video_id_key : string :=
  String dquote (String.append "videoId" (String dquote (String ":" (String dquote EmptyString)))).

Definition is_id_char (c : ascii) : bool :=
  is_alnum c || Ascii.eqb c "_" || Ascii.eqb c "-".

(** [s] without the literal [p] it starts with. *)
Fixpoint strip_prefix (p s : string) : option string :=
  match p with
  | EmptyString => Some s
  | String a p' =>
      match s with
      | EmptyString => None
      | String b s' => if Ascii.eqb a b then strip_prefix p' s' else None
      end
  end.

(** [n] characters of the class at the start of [s], and what follows. *)
Fixpoint take_id (n : nat) (s : string) : option (string * string) :=
  match n with
  | O => Some (EmptyString, s)
  | S n' =>
      match s with
      | EmptyString => None
      | String c s' =>
          if is_id_char c then
            match take_id n' s' with
            | Some (id, rest) => Some (String c id, rest)
            | None => None
            end
          else None
      end
  end.

(** A match of the pattern at the start of [s]: its group. *)
Definition match_here (s : string) : option string :=
  match strip_prefix video_id_key s with
  | Some t =>
      match take_id 11 t with
      | Some (id, String q _) => if Ascii.eqb q dquote then Some id else None
      | _ => None
      end
  | None => None
  end.

(** [re.search]: the leftmost match. *)
Fixpoint find_video_id (html : string) : option string :=
  match match_here html with
  | Some id => Some id
  | None =>
      match html with
      | EmptyString => None
      | String _ html' => find_video_id html'
      end
  end.

Section YouTubeSearch.

(** The reply to a GET on an address: status and text, or the exception the
    request raises. *)
Variable http_get : string -> exc (Z * string).

Definition search_youtube_trailer (query : string) : exc (option string) :=
  let* resp := http_get (search_url query) in
  if negb (fst resp =? 200)%Z then Ok None
  else match find_video_id (snd resp) with
       | None => Ok None
       | Some id => Ok (Some (String.append "https://youtu.be/" id))
       end.

End YouTubeSearch.

(** An id the pattern's group accepts. *)
Definition valid_id (id : string) : Prop :=
  String.length id = 11 /\ forallb is_id_char (list_ascii_of_string id) = true.

(** [html] holds a quoted [videoId] entry with the id [id]. *)
Definition occurs_in (id html : string) : Prop :=
  exists pre post,
    html = String.append pre
             (String.append video_id_key (String.append id (String dquote post))).

(** Every character of [s] may stand in a query string as it is. *)
Definition query_safe (s : string) : Prop :=
  forall c, c ∈ list_ascii_of_string s ->
    is_unreserved c = true \/ c = "+"%char \/ c = "%"%char.

(** A search that is answered with a given status and page, and a page with
    one [videoId] entry. *)
Definition answers (status : Z) (html : string) : string -> exc (Z * string) :=
  fun _ => Ok (status, html).

Definition results_page : string :=
  String.append "{"
    (String.append video_id_key (String.append "dQw4w9WgXcQ" (String dquote "}"))).

(** The value of a hexadecimal digit as [quote_plus] writes it. *)
Definition hex_value (a : ascii) : N :=
  let n := N_of_ascii a in if (n <? 58)%N then (n - 48)%N else (n - 55)%N.
(** * Properties *)

(** ** The TTL cache *)

Lemma total_seconds_gt_spec (delta secs : Z) :
  total_seconds_gt delta secs = false <-> (delta <= secs * 1000000)%Z.
Proof. unfold total_seconds_gt. rewrite Z.ltb_ge. reflexivity. Qed.

Lemma get_cached_hit now locale country kind cache entry :
  cache !! _cache_key locale country kind = Some entry ->
  (now - fetched_at entry <= CACHE_TTL_SECONDS * 1000000)%Z ->
  _get_cached now locale country kind cache = (Some (cached_items entry), cache).
Proof.
  intros Hlook Hfresh. unfold _get_cached. rewrite Hlook.
  apply total_seconds_gt_spec in Hfresh. now rewrite Hfresh.
Qed.

Lemma get_cached_stale now locale country kind cache entry :
  cache !! _cache_key locale country kind = Some entry ->
  (CACHE_TTL_SECONDS * 1000000 < now - fetched_at entry)%Z ->
  _get_cached now locale country kind cache
  = (None, delete (_cache_key locale country kind) cache).
Proof.
  intros Hlook Hstale. unfold _get_cached. rewrite Hlook.
  unfold total_seconds_gt. apply Z.ltb_lt in Hstale. now rewrite Hstale.
Qed.

Lemma get_cached_absent now locale country kind cache :
  cache !! _cache_key locale country kind = None ->
  _get_cached now locale country kind cache = (None, cache).
Proof. intros Hlook. unfold _get_cached. now rewrite Hlook. Qed.

(** C5: a lookup returns the stored items exactly when the key has an entry
    whose age is at most 600 seconds; in every other case it returns nothing
    and leaves no entry under the key, and an entry older than 600 seconds is
    never returned. Other keys are not touched. *)
Theorem get_cached_fresh_iff (now : Z) (locale country kind : string)
    (cache : gmap string CacheEntry) :
  let key := _cache_key locale country kind in
  let r := _get_cached now locale country kind cache in
  (forall items, fst r = Some items <->
     exists entry, cache !! key = Some entry /\ cached_items entry = items
                   /\ (now - fetched_at entry <= 600 * 1000000)%Z)
  /\ (is_Some (fst r) -> snd r = cache)
  /\ (fst r = None -> snd r = delete key cache /\ snd r !! key = None)
  /\ (forall entry, cache !! key = Some entry ->
        (600 * 1000000 < now - fetched_at entry)%Z -> fst r = None)
  /\ (forall k, k <> key -> snd r !! k = cache !! k).
Proof.
  intros key r. subst r.
  destruct (cache !! key) as [entry|] eqn:Hlook.
  - destruct (Z_le_gt_dec (now - fetched_at entry) (CACHE_TTL_SECONDS * 1000000)) as [Hle|Hgt].
    + rewrite (get_cached_hit _ _ _ _ _ _ Hlook Hle). cbn [fst snd].
      repeat split.
      * intros [= <-]. exists entry. auto.
      * intros (e & [= <-] & <- & _). reflexivity.
      * discriminate.
      * discriminate.
      * intros e [= <-] Hstale. unfold CACHE_TTL_SECONDS in Hle. lia.
    + assert (Hlt : (CACHE_TTL_SECONDS * 1000000 < now - fetched_at entry)%Z) by lia.
      rewrite (get_cached_stale _ _ _ _ _ _ Hlook Hlt). cbn [fst snd].
      repeat split; try discriminate; try reflexivity.
      * intros (e & [= <-] & _ & Hle). unfold CACHE_TTL_SECONDS in Hlt. lia.
      * intros [x [=]].
      * apply lookup_delete_eq.
      * intros k Hk. apply lookup_delete_ne. intros E. apply Hk. symmetry. exact E.
  - rewrite (get_cached_absent _ _ _ _ _ Hlook). cbn [fst snd].
    repeat split; try discriminate; try reflexivity.
    + intros (e & [=] & _).
    + symmetry. apply delete_id. exact Hlook.
    + exact Hlook.
Qed.

(** ** The subscription store *)

Lemma user_subs_subscribe chat offer title slug data :
  user_subs chat (subscribe_to_offer chat offer title slug data)
  = <[offer := mk_meta title (or_empty slug) false]> (user_subs chat data).
Proof. unfold user_subs at 1. cbn. now rewrite lookup_insert_eq. Qed.

Lemma user_subs_unsubscribe chat offer data :
  user_subs chat (unsubscribe_from_offer chat offer data)
  = delete offer (user_subs chat data).
Proof.
  unfold unsubscribe_from_offer. case_bool_decide as Hsub.
  - unfold user_subs at 1. cbn. now rewrite lookup_insert_eq.
  - symmetry. apply delete_id. now apply eq_None_not_Some.
Qed.

Lemma subscribe_twice chat offer title slug title' slug' data :
  subscribe_to_offer chat offer title' slug' (subscribe_to_offer chat offer title slug data)
  = subscribe_to_offer chat offer title' slug' data.
Proof.
  unfold subscribe_to_offer at 1. rewrite user_subs_subscribe. cbn.
  unfold subscribe_to_offer. f_equal.
  now rewrite insert_insert_eq, insert_insert_eq.
Qed.

Lemma records_for_absent offer (subs : gmap string SubMeta) :
  subs !! offer = None -> records_for offer subs = [].
Proof.
  intros Hnone. unfold records_for.
  assert (Hall : Forall (fun kv : string * SubMeta => fst kv <> offer) (map_to_list subs)).
  { apply Forall_forall. intros [k v] Hin. cbn. intros ->.
    apply elem_of_map_to_list in Hin. congruence. }
  induction Hall as [|kv l Hkv _ IH]; [reflexivity|].
  now rewrite filter_cons_False.
Qed.

Lemma records_for_present offer (subs : gmap string SubMeta) meta :
  subs !! offer = Some meta -> records_for offer subs = [(offer, meta)].
Proof.
  intros Hsome. apply Permutation_singleton_r. unfold records_for.
  rewrite <- (map_to_list_delete subs offer meta Hsome).
  rewrite filter_cons_True by reflexivity.
  fold (records_for offer (delete offer subs)).
  rewrite records_for_absent by apply lookup_delete_eq. reflexivity.
Qed.

(** C9: after a subscribe the query answers true, after an unsubscribe it
    answers false; a second subscribe in a row is defined, equals a single
    one, and leaves exactly one record for the offer; unsubscribing an offer
    that has no record leaves the document as it is. *)
Theorem subscription_idempotence (chat : Z) (offer : string)
    (title title' slug slug' : option string) (data : Store) :
  is_subscribed_to_offer chat offer (subscribe_to_offer chat offer title slug data) = true
  /\ is_subscribed_to_offer chat offer (unsubscribe_from_offer chat offer data) = false
  /\ (let twice := subscribe_to_offer chat offer title' slug'
                     (subscribe_to_offer chat offer title slug data) in
      twice = subscribe_to_offer chat offer title' slug' data
      /\ records_for offer (user_subs chat twice)
         = [(offer, mk_meta title' (or_empty slug') false)])
  /\ (is_subscribed_to_offer chat offer data = false ->
      unsubscribe_from_offer chat offer data = data).
Proof.
  repeat split.
  - unfold is_subscribed_to_offer. rewrite user_subs_subscribe, lookup_insert_eq.
    apply bool_decide_eq_true. eauto.
  - unfold is_subscribed_to_offer. rewrite user_subs_unsubscribe, lookup_delete_eq.
    apply bool_decide_eq_false. intros [x [=]].
  - apply subscribe_twice.
  - apply records_for_present.
    now rewrite subscribe_twice, user_subs_subscribe, lookup_insert_eq.
  - unfold is_subscribed_to_offer, unsubscribe_from_offer.
    intros Hno. now rewrite Hno.
Qed.

(** C4, as stated, fails: subscribing again to an offer that is tracked and
    already notified stores [notified = false], with no unsubscribe before. *)
Lemma subscribe_resets_notified : ~ subscribe_keeps_notified.
Proof.
  intros H.
  destruct (H 7%Z "offer-1" (Some "Alpha") None
              (mk_store [] ∅ {[ 7%Z := {[ "offer-1" := mk_meta (Some "Alpha") "" true ]} ]})
              (mk_meta (Some "Alpha") "" true)) as (meta' & Hlook & Hflag).
  - reflexivity.
  - reflexivity.
  - rewrite user_subs_subscribe, lookup_insert_eq in Hlook.
    injection Hlook as <-. discriminate Hflag.
Qed.

(** C4, amended: a subscribe is an upsert that always stores
    [notified = false], whatever record was there: doing it twice equals doing
    it once, doing it after an unsubscribe equals doing it alone, on a tracked
    offer not yet notified it leaves [notified] as it was, and on a tracked
    offer already notified it resets the flag. Other offers and other users
    keep their records. *)
Theorem subscribe_upsert_unnotified (chat : Z) (offer : string)
    (title slug : option string) (data : Store) :
  let data' := subscribe_to_offer chat offer title slug data in
  user_subs chat data' !! offer = Some (mk_meta title (or_empty slug) false)
  /\ subscribe_to_offer chat offer title slug data' = data'
  /\ subscribe_to_offer chat offer title slug (unsubscribe_from_offer chat offer data) = data'
  /\ (forall meta, user_subs chat data !! offer = Some meta ->
        exists meta', user_subs chat data' !! offer = Some meta'
                      /\ notified meta' = false
                      /\ (notified meta = false -> notified meta' = notified meta))
  /\ (forall offer', offer' <> offer ->
        user_subs chat data' !! offer' = user_subs chat data !! offer')
  /\ (forall chat', chat' <> chat -> user_subs chat' data' = user_subs chat' data).
Proof.
  intros data'. subst data'. repeat split.
  - now rewrite user_subs_subscribe, lookup_insert_eq.
  - apply subscribe_twice.
  - unfold subscribe_to_offer at 1. rewrite user_subs_unsubscribe.
    unfold subscribe_to_offer. rewrite insert_delete_eq.
    unfold unsubscribe_from_offer. case_bool_decide; cbn; [|reflexivity].
    now rewrite insert_insert_eq.
  - intros meta _. eexists. rewrite user_subs_subscribe, lookup_insert_eq.
    split; [reflexivity|]. cbn. split; [reflexivity|]. intros ->. reflexivity.
  - intros offer' Hne. rewrite user_subs_subscribe. apply lookup_insert_ne. congruence.
  - intros chat' Hne. unfold user_subs, subscribe_to_offer. cbn.
    rewrite lookup_insert_ne by congruence. reflexivity.
Qed.

(** ** Store URLs *)

Lemma producthome_slug_find ms :
  producthome_slug ms = pageSlug <$> List.find is_producthome ms.
Proof.
  induction ms as [|m ms IH]; [reflexivity|]. cbn.
  destruct (is_producthome m); [reflexivity|exact IH].
Qed.

Lemma any_slug_find ms : any_slug ms = pageSlug <$> List.find has_slug ms.
Proof.
  induction ms as [|m ms IH]; [reflexivity|]. cbn. unfold has_slug at 1.
  destruct (truthy (pageSlug m)); [reflexivity|exact IH].
Qed.

Lemma lstrip_slash_no_slash s :
  Str.startswith s "/" = false -> Str.lstrip_slash s = s.
Proof.
  destruct s as [|c s]; [reflexivity|]. unfold Str.startswith, Str.lstrip_slash. cbn.
  unfold Str.is_slash. destruct (Ascii.eqb_spec c "/") as [->|Hne]; [|reflexivity].
  cbn. destruct s; discriminate.
Qed.

Lemma truthy_spec s : truthy s = true <-> s <> None /\ s <> Some EmptyString.
Proof.
  destruct s as [[|c s]|]; cbn; intuition congruence.
Qed.

(** C8, as stated, fails on a slug that begins with a slash: the slashes are
    removed before the prefix test, so [/bundles/x] is not prefixed
    with [p/]. *)
Lemma leading_slash_slug_not_as_claimed : ~ slug_used_as_claimed.
Proof.
  intros H.
  specialize (H (mk_element (Some "Gamma") None [] [] [] (Some "/bundles/x") None None None)
                "en-US" "/bundles/x" eq_refl eq_refl eq_refl).
  vm_compute in H. discriminate H.
Qed.

(** C8, amended: the URL comes from the first source, in this order, that
    yields a slug: the first mapping whose [pageType] is [producthome] up to
    case and whose [pageSlug] is not empty, the first mapping with a non-empty
    [pageSlug], the first offer-mapping with one, [productSlug], [urlSlug], and
    failing all the storefront root; so a [producthome] mapping wins over a
    [productSlug]. The slug first loses its leading slashes; what remains is
    used as it is when it begins with [p/], [bundles/] or [store/] and is
    prefixed with [p/] otherwise, which for a slug without a leading slash is
    the rule as the claim words it. *)
Theorem build_store_url_priority (el : Element) (locale : string) :
  build_store_url el locale =
    match List.find is_producthome (mappings el) with
    | Some m => slug_to_url locale (pageSlug m)
    | None =>
    match List.find has_slug (mappings el) with
    | Some m => slug_to_url locale (pageSlug m)
    | None =>
    match List.find has_slug (offerMappings el) with
    | Some m => slug_to_url locale (pageSlug m)
    | None =>
        if truthy (productSlug el) then slug_to_url locale (productSlug el)
        else if truthy (urlSlug el) then slug_to_url locale (urlSlug el)
        else "https://store.epicgames.com/"
    end end end
  /\ (forall m, In m (mappings el) -> is_producthome m = true ->
        exists m', In m' (mappings el) /\ is_producthome m' = true
                   /\ build_store_url el locale = slug_to_url locale (pageSlug m'))
  /\ (forall m, is_producthome m = true <->
        Str.lower (or_empty (pageType m)) = "producthome"
        /\ pageSlug m <> None /\ pageSlug m <> Some EmptyString)
  /\ (forall slug,
        let s := Str.lstrip_slash (or_empty slug) in
        slug_to_url locale slug =
          String.append "https://store.epicgames.com/"
            (String.append locale
              (String.append "/"
                (if Str.startswith s "p/" || Str.startswith s "bundles/"
                    || Str.startswith s "store/"
                 then s else String.append "p/" s))))
  /\ (forall slug, Str.startswith slug "/" = false ->
        slug_to_url locale (Some slug) = claimed_slug_url locale slug).
Proof.
  assert (Hfirst : build_store_url el locale =
    match List.find is_producthome (mappings el) with
    | Some m => slug_to_url locale (pageSlug m)
    | None =>
    match List.find has_slug (mappings el) with
    | Some m => slug_to_url locale (pageSlug m)
    | None =>
    match List.find has_slug (offerMappings el) with
    | Some m => slug_to_url locale (pageSlug m)
    | None =>
        if truthy (productSlug el) then slug_to_url locale (productSlug el)
        else if truthy (urlSlug el) then slug_to_url locale (urlSlug el)
        else "https://store.epicgames.com/"
    end end end).
  { unfold build_store_url.
    rewrite producthome_slug_find, !any_slug_find.
    destruct (List.find is_producthome (mappings el)); [reflexivity|].
    destruct (List.find has_slug (mappings el)); [reflexivity|].
    destruct (List.find has_slug (offerMappings el)); reflexivity. }
  split; [exact Hfirst|]. split; [|split; [|split]].
  - intros m Hin Hph. rewrite Hfirst.
    destruct (List.find is_producthome (mappings el)) as [m'|] eqn:Hfind.
    + apply List.find_some in Hfind as [Hin' Hph']. eauto.
    + eapply List.find_none in Hfind; [|exact Hin]. congruence.
  - intros m. unfold is_producthome. rewrite andb_true_iff, String.eqb_eq, truthy_spec.
    tauto.
  - intros slug s. subst s. unfold slug_to_url.
    destruct (_ || _ || _); reflexivity.
  - intros slug Hno. unfold slug_to_url, claimed_slug_url. cbn [or_empty].
    now rewrite lstrip_slash_no_slash.
Qed.

(** ** The classifier of current offers *)

Lemma bind_ok {A B : Type} (m : exc A) (f : A -> exc B) (b : B) :
  bind m f = Ok b -> exists a, m = Ok a /\ f a = Ok b.
Proof. destruct m as [a|e]; cbn; [eauto|discriminate]. Qed.

Lemma count_occ_filter {A : Type} (dec : forall x y : A, {x = y} + {x <> y})
    (f : A -> bool) (l : list A) (x : A) :
  count_occ dec (List.filter f l) x = if f x then count_occ dec l x else 0.
Proof.
  induction l as [|y l IH]; cbn.
  - now destruct (f x).
  - destruct (f y) eqn:Hy; cbn; destruct (dec y x) as [->|Hne]; rewrite ?IH, ?Hy; reflexivity.
Qed.

Section ClassifierProps.

Import Datetime.

Variable fromisoformat : string -> option datetime.

Lemma starts_by_ok now start a :
  starts_by now start = Ok a -> a = absent_or_past now start.
Proof.
  destruct start as [d|]; cbn; [|congruence].
  unfold cmp_now, instant. destruct (tzinfo d) as [off|]; cbn; [|discriminate].
  intros [= <-]. unfold Z.leb. now destruct (instant_us d off ?= now)%Z.
Qed.

Lemma ends_after_ok now end_ a :
  ends_after now end_ = Ok a -> a = absent_or_future now end_.
Proof.
  destruct end_ as [d|]; cbn; [|congruence].
  unfold cmp_now, instant. destruct (tzinfo d) as [off|]; cbn; [|discriminate].
  intros [= <-]. unfold Z.ltb. rewrite (Z.compare_antisym (instant_us d off) now).
  now destruct (instant_us d off ?= now)%Z.
Qed.

Lemma window_active_ok now po a :
  window_active now (window_bounds fromisoformat po) = Ok a -> a = window_free_at fromisoformat now po.
Proof.
  unfold window_active, window_free_at. intros H.
  apply bind_ok in H as (s & Hs & H). apply starts_by_ok in Hs. subst s.
  destruct (absent_or_past now (fst (window_bounds fromisoformat po))); cbn.
  - now apply ends_after_ok.
  - congruence.
Qed.

Lemma any_window_active_ok now pos a :
  any_window_active fromisoformat now pos = Ok a -> a = existsb (window_free_at fromisoformat now) pos.
Proof.
  induction pos as [|po pos IH]; cbn; [intros [= <-]; reflexivity|]. intros H.
  apply bind_ok in H as (a1 & H1 & H). apply window_active_ok in H1. rewrite <- H1.
  destruct a1; [injection H as <-; reflexivity|]. now apply IH.
Qed.

Lemma is_active_ok now current a :
  is_active fromisoformat now current = Ok a ->
  a = existsb (window_free_at fromisoformat now) (concat (map group_windows current)).
Proof.
  induction current as [|offer rest IH]; cbn; [intros [= <-]; reflexivity|]. intros H.
  apply bind_ok in H as (a1 & H1 & H). apply any_window_active_ok in H1.
  rewrite existsb_app, <- H1. destruct a1; [injection H as <-; reflexivity|]. now apply IH.
Qed.

Lemma free_now_ok now elements l :
  free_now fromisoformat now elements = Ok l ->
  l = List.filter (is_free_at fromisoformat now) elements.
Proof.
  revert l. induction elements as [|el rest IH]; intros l.
  - cbn. intros [= <-]. reflexivity.
  - cbn [free_now List.filter]. unfold is_free_at at 1, windows.
    destruct (current_offers el) as [|offer offers] eqn:Hcur.
    + cbn. apply IH.
    + intros H. apply bind_ok in H as (a & Ha & H). apply bind_ok in H as (tl & Htl & H).
      apply is_active_ok in Ha. rewrite <- Ha. apply IH in Htl. subst tl.
      destruct a; congruence.
Qed.

Lemma window_active_total now po :
  aware_bound (fst (window_bounds fromisoformat po)) -> aware_bound (snd (window_bounds fromisoformat po)) ->
  exists a, window_active now (window_bounds fromisoformat po) = Ok a.
Proof.
  unfold window_active. destruct (window_bounds fromisoformat po) as [start end_]. cbn [fst snd].
  intros Hs He.
  assert (exists a, starts_by now start = Ok a) as [a ->].
  { destruct start as [d|]; cbn; [|eauto]. cbn in Hs. destruct Hs as [off Hoff].
    unfold cmp_now. rewrite Hoff. cbn. eauto. }
  cbn. destruct a; [|eauto].
  destruct end_ as [d|]; cbn; [|eauto]. cbn in He. destruct He as [off Hoff].
  unfold cmp_now. rewrite Hoff. cbn. eauto.
Qed.

Lemma any_window_active_total now pos :
  Forall (fun po => aware_bound (fst (window_bounds fromisoformat po)) /\ aware_bound (snd (window_bounds fromisoformat po))) pos ->
  exists a, any_window_active fromisoformat now pos = Ok a.
Proof.
  induction 1 as [|po pos [Hs He] _ IH]; cbn; [eauto|].
  destruct (window_active_total now po Hs He) as [a ->]. cbn.
  destruct a; eauto.
Qed.

Lemma is_active_total now current :
  Forall (fun po => aware_bound (fst (window_bounds fromisoformat po)) /\ aware_bound (snd (window_bounds fromisoformat po)))
         (concat (map group_windows current)) ->
  exists a, is_active fromisoformat now current = Ok a.
Proof.
  induction current as [|offer rest IH]; cbn; [eauto|]. intros H.
  apply Forall_app in H as [H1 H2].
  destruct (any_window_active_total now _ H1) as [a ->]. cbn.
  destruct a; eauto.
Qed.

Lemma free_now_total now elements :
  Forall (offset_aware fromisoformat) elements ->
  exists l, free_now fromisoformat now elements = Ok l.
Proof.
  induction 1 as [|el rest Hel _ [tl IH]]; [cbn; eauto|].
  cbn [free_now].
  destruct (current_offers el) as [|offer offers] eqn:Hcur; [eauto|].
  unfold offset_aware, windows in Hel. rewrite Hcur in Hel.
  destruct (is_active_total now _ Hel) as [a ->]. cbn [bind]. rewrite IH. cbn. eauto.
Qed.

Lemma fetch_free_games_miss (c : Call) locale country (w : World) elements :
  fst (_get_cached (t_lookup c) locale country "current" (FREE_GAMES_CACHE w)) = None ->
  response c = Ok elements ->
  fst (fetch_free_games fromisoformat c locale country w)
  = free_now fromisoformat (t_now c) elements.
Proof.
  intros Hmiss Hresp. unfold fetch_free_games, fetch_with_cache.
  destruct (_get_cached _ _ _ _ _) as [cached cache]. cbn in Hmiss. subst cached.
  rewrite Hresp. cbn [bind].
  destruct (free_now fromisoformat (t_now c) elements); reflexivity.
Qed.

Lemma parse_fails_bounds po :
  parse_fails fromisoformat po -> window_bounds fromisoformat po = (None, None).
Proof.
  unfold parse_fails, window_bounds. intros [-> | ->]; [reflexivity|].
  now destruct (parse_bound fromisoformat (startDate po)).
Qed.

Lemma is_free_at_window now el offer po :
  In offer (current_offers el) -> In po (group_windows offer) ->
  window_free_at fromisoformat now po = true ->
  is_free_at fromisoformat now el = true.
Proof.
  intros Hoffer Hpo Hfree. unfold is_free_at, windows.
  apply existsb_exists. exists po. split; [|exact Hfree].
  apply in_concat. exists (group_windows offer). split; [|exact Hpo].
  now apply in_map.
Qed.

Lemma parse_bound_own s :
  parse_bound fromisoformat s
  = if unreadable fromisoformat s then None else Some (own_date fromisoformat s).
Proof.
  unfold parse_bound, unreadable, own_date. destruct (truthy s); [|reflexivity].
  now destruct (fromisoformat _).
Qed.

Lemma window_free_at_own now po :
  window_free_at fromisoformat now po
  = garbled fromisoformat po || open_at fromisoformat now po.
Proof.
  unfold window_free_at, window_bounds, garbled, open_at. rewrite !parse_bound_own.
  destruct (unreadable fromisoformat (startDate po)); [reflexivity|].
  destruct (unreadable fromisoformat (endDate po)); reflexivity.
Qed.

Lemma is_free_at_listed now el :
  is_free_at fromisoformat now el = listed_at fromisoformat now el.
Proof.
  unfold is_free_at, listed_at. induction (windows el) as [|po pos IH]; [reflexivity|].
  cbn [existsb]. now rewrite window_free_at_own, IH.
Qed.

Lemma dates_aware_offset_aware el :
  dates_aware fromisoformat el -> offset_aware fromisoformat el.
Proof.
  unfold dates_aware, offset_aware. intros H. eapply Forall_impl; [exact H|].
  clear H. intros po [Hs He].
  unfold window_bounds. rewrite !parse_bound_own.
  destruct (unreadable fromisoformat (startDate po)); [now split|].
  destruct (unreadable fromisoformat (endDate po)); now split.
Qed.

(** C2, amended: on a fresh fetch at the instant [now], the result is the
    catalog filtered, in order, by "has a window one of whose date strings is
    unreadable, or whose start is absent or at most [now] and whose end is
    absent or after [now]", each date read from its own string: an element
    is in the result as many times as it is in the catalog when it has such a
    window, whatever its other windows, and not at all otherwise. The fetch
    returns whenever every date carries a UTC offset. *)
Theorem fetch_current_free_exactly_once (c : Call) (locale country : string)
    (w : World) (elements : list Element) :
  fst (_get_cached (t_lookup c) locale country "current" (FREE_GAMES_CACHE w)) = None ->
  response c = Ok elements ->
  (Forall (dates_aware fromisoformat) elements ->
   exists l, fst (fetch_free_games fromisoformat c locale country w) = Ok l)
  /\ (forall l, fst (fetch_free_games fromisoformat c locale country w) = Ok l ->
        l = List.filter (listed_at fromisoformat (t_now c)) elements
        /\ (forall el, count_occ Element_eq_dec l el
                       = if listed_at fromisoformat (t_now c) el
                         then count_occ Element_eq_dec elements el else 0)
        /\ (forall el, In el l <->
                       In el elements /\
                       exists po, In po (windows el)
                         /\ (garbled fromisoformat po = true
                             \/ (absent_or_past (t_now c)
                                    (own_date fromisoformat (startDate po)) = true
                                 /\ absent_or_future (t_now c)
                                      (own_date fromisoformat (endDate po)) = true)))).
Proof.
  intros Hmiss Hresp. rewrite (fetch_free_games_miss _ _ _ _ _ Hmiss Hresp). split.
  - intros Haware. apply free_now_total.
    eapply Forall_impl; [exact Haware|]. intros el. apply dates_aware_offset_aware.
  - intros l Hl. apply free_now_ok in Hl.
    assert (Hl' : l = List.filter (listed_at fromisoformat (t_now c)) elements).
    { subst l. apply filter_ext. intros el. apply is_free_at_listed. }
    clear Hl. subst l. split; [reflexivity|]. split.
    + intros el. apply count_occ_filter.
    + intros el. rewrite filter_In. unfold listed_at. rewrite existsb_exists.
      split; intros [Hin (po & Hpo & H)]; (split; [exact Hin|]); exists po;
        (split; [exact Hpo|]).
      * apply orb_true_iff in H as [Hg|Ho]; [now left|right].
        unfold open_at in Ho. now apply andb_true_iff in Ho.
      * apply orb_true_iff. destruct H as [Hg|[H1 H2]]; [now left|right].
        unfold open_at. now rewrite H1, H2.
Qed.

(** C10: when parsing a window's start or end string fails, both bounds of
    the window are absent, the window evaluates to active without raising, and
    its element is in the result of every fetch that returns; the fetch does
    return when every bound that parses carries a UTC offset. *)
Theorem parse_failure_counts_as_active (c : Call) (locale country : string)
    (w : World) (elements : list Element) (el : Element) (offer : OfferGroup)
    (po : PromoWindow) :
  fst (_get_cached (t_lookup c) locale country "current" (FREE_GAMES_CACHE w)) = None ->
  response c = Ok elements ->
  In el elements -> In offer (current_offers el) -> In po (group_windows offer) ->
  parse_fails fromisoformat po ->
  window_bounds fromisoformat po = (None, None)
  /\ window_active (t_now c) (window_bounds fromisoformat po) = Ok true
  /\ (forall l, fst (fetch_free_games fromisoformat c locale country w) = Ok l -> In el l)
  /\ (Forall (offset_aware fromisoformat) elements ->
      exists l, fst (fetch_free_games fromisoformat c locale country w) = Ok l /\ In el l).
Proof.
  intros Hmiss Hresp Hel Hoffer Hpo Hfail.
  pose proof (parse_fails_bounds po Hfail) as Hb.
  assert (Hfree : is_free_at fromisoformat (t_now c) el = true).
  { apply (is_free_at_window _ _ offer po Hoffer Hpo).
    unfold window_free_at. now rewrite Hb. }
  assert (Hin : forall l, fst (fetch_free_games fromisoformat c locale country w) = Ok l ->
                          In el l).
  { intros l Hl. rewrite (fetch_free_games_miss _ _ _ _ _ Hmiss Hresp) in Hl.
    apply free_now_ok in Hl. subst l. apply filter_In. now split. }
  split; [exact Hb|]. split; [now rewrite Hb|]. split; [exact Hin|].
  intros Haware.
  destruct (free_now_total (t_now c) elements Haware) as [l Hl].
  rewrite <- (fetch_free_games_miss _ _ _ _ _ Hmiss Hresp) in Hl. eauto.
Qed.

End ClassifierProps.

Lemma fetch_current_free_exactly_once_witness :
  fst (fetch_free_games Datetime.iso_parse (call_2025 [alpha; beta; not_yet]) "en-US" "US"
         empty_world)
  = Ok [alpha; not_yet].
Proof.
  destruct (fetch_current_free_exactly_once Datetime.iso_parse
              (call_2025 [alpha; beta; not_yet])
              "en-US" "US" empty_world [alpha; beta; not_yet] eq_refl eq_refl)
    as [Hreturns Hresult].
  destruct Hreturns as [l Hl].
  - repeat constructor; vm_compute; eauto.
  - rewrite Hl. f_equal. apply Hresult in Hl. destruct Hl as [-> _]. reflexivity.
Defined.

(** C2, as stated, fails: an offer whose only window starts in the year 2999
    and has an unreadable end is listed in 2025, although its start is there
    and lies after [now]; the code drops both bounds of a window when either
    string fails to parse. *)
Lemma open_window_claim_fails : ~ listed_iff_open_window Datetime.iso_parse.
Proof.
  intros H.
  destruct (H (call_2025 [not_yet]) "en-US" "US" empty_world [not_yet] [not_yet] not_yet
              eq_refl eq_refl eq_refl) as [Hin _].
  destruct Hin as (_ & po & Hpo & Hopen); [left; reflexivity|].
  destruct Hpo as [<-|[]]. vm_compute in Hopen. discriminate Hopen.
Qed.

Lemma parse_failure_counts_as_active_witness :
  exists l,
    fst (fetch_free_games Datetime.iso_parse (call_2025 [beta; gamma]) "en-US" "US" empty_world)
    = Ok l /\ In gamma l.
Proof.
  destruct (parse_failure_counts_as_active Datetime.iso_parse (call_2025 [beta; gamma])
              "en-US" "US" empty_world [beta; gamma] gamma (mk_group [gamma_window])
              gamma_window eq_refl eq_refl) as (_ & _ & _ & Hreturns).
  - right. left. reflexivity.
  - left. reflexivity.
  - left. reflexivity.
  - left. reflexivity.
  - apply Hreturns. repeat constructor; vm_compute; eauto.
Defined.

(** ** The catalog client and its cache *)

Lemma get_cached_some now locale country kind cache items :
  fst (_get_cached now locale country kind cache) = Some items ->
  _get_cached now locale country kind cache = (Some items, cache)
  /\ exists entry, cache !! _cache_key locale country kind = Some entry
                   /\ cached_items entry = items.
Proof.
  unfold _get_cached. destruct (cache !! _) as [entry|]; [|discriminate].
  destruct (total_seconds_gt _ _); [discriminate|]. cbn. intros [= <-]. eauto.
Qed.

Lemma fetch_with_cache_hit kind classify c locale country w items :
  fst (_get_cached (t_lookup c) locale country kind (FREE_GAMES_CACHE w)) = Some items ->
  fetch_with_cache kind classify c locale country w = (Ok items, w).
Proof.
  intros Hhit. apply get_cached_some in Hhit as [Heq _].
  unfold fetch_with_cache. rewrite Heq. now destruct w.
Qed.

Lemma fetch_with_cache_miss kind classify c locale country w r w1 :
  fst (_get_cached (t_lookup c) locale country kind (FREE_GAMES_CACHE w)) = None ->
  fetch_with_cache kind classify c locale country w = (Ok r, w1) ->
  requests w1 = requests w ++ [promotions_url locale country]
  /\ FREE_GAMES_CACHE w1 !! _cache_key locale country kind = Some (mk_entry (t_store c) r).
Proof.
  intros Hmiss. unfold fetch_with_cache.
  destruct (_get_cached _ _ _ _ _) as [cached cache]. cbn in Hmiss. subst cached.
  destruct (bind _ _) as [items|e]; [|discriminate].
  intros [= <- <-]. cbn. split; [reflexivity|]. apply lookup_insert_eq.
Qed.

Lemma fetch_with_cache_idempotent kind classify :
  cache_idempotent kind (fetch_with_cache kind classify).
Proof.
  intros c1 c2 locale country w0 r1 w1 Hfirst Httl.
  destruct (fst (_get_cached (t_lookup c1) locale country kind (FREE_GAMES_CACHE w0)))
    as [items|] eqn:Hlook.
  - pose proof (fetch_with_cache_hit kind classify _ _ _ _ _ Hlook) as Hhit.
    rewrite Hhit in Hfirst. injection Hfirst as <- <-.
    apply get_cached_some in Hlook as [Hget (entry & Hentry & <-)].
    split; [|split; [|split]].
    + apply fetch_with_cache_hit.
      rewrite (get_cached_hit _ _ _ _ _ _ Hentry (Httl _ Hentry)). reflexivity.
    + lia.
    + intros items' [= <-]. split; reflexivity.
    + discriminate.
  - destruct (fetch_with_cache_miss _ _ _ _ _ _ _ _ Hlook Hfirst) as [Hreq Hentry].
    split; [|split; [|split]].
    + apply fetch_with_cache_hit.
      rewrite (get_cached_hit _ _ _ _ _ _ Hentry (Httl _ Hentry)). reflexivity.
    + rewrite Hreq, length_app. cbn. lia.
    + discriminate.
    + intros _. split; [exact Hreq|exact Hentry].
Qed.

(** C6: for [fetch_free_games] and for [fetch_upcoming_games] alike, when a
    call for a key returns and a second call for the same key reads the clock
    within the TTL of the cached entry, the second call returns the same items
    and issues no request, so both together issue at most one; a hit returns
    the cached items with no request, and a fresh fetch has populated the
    cache when it returns. *)
Theorem cache_idempotence (fromisoformat : string -> option Datetime.datetime) :
  cache_idempotent "current" (fetch_free_games fromisoformat)
  /\ cache_idempotent "upcoming" (fetch_upcoming_games fromisoformat).
Proof. split; apply fetch_with_cache_idempotent. Qed.

Lemma cache_idempotence_witness :
  exists w1,
    fetch_free_games Datetime.iso_parse (call_2025 [alpha; beta]) "en-US" "US" empty_world
    = (Ok [alpha], w1)
    /\ fetch_free_games Datetime.iso_parse
         (mk_call (new_year_2025 + 600 * 1000000) (Raise UpstreamError) 0 0) "en-US" "US" w1
       = (Ok [alpha], w1)
    /\ length (requests w1) = 1.
Proof.
  eexists. split; [reflexivity|].
  split; [|reflexivity].
  apply (proj1 (cache_idempotence Datetime.iso_parse) (call_2025 [alpha; beta]) _
           "en-US" "US" empty_world [alpha] _ eq_refl).
  intros entry Hentry. vm_compute in Hentry. injection Hentry as <-. vm_compute. discriminate.
Defined.

(** ** The notification scheduler *)

Section Scheduler.

Variable t : Tick.

Lemma notify_one_fields chat free_ids oid meta :
  sub_title (notify_one t chat free_ids oid meta) = sub_title meta
  /\ sub_pageSlug (notify_one t chat free_ids oid meta) = sub_pageSlug meta
  /\ notified (notify_one t chat free_ids oid meta)
     = notified meta || (bool_decide (oid ∈ free_ids) && delivers t chat oid).
Proof.
  unfold notify_one, due.
  destruct (notified meta) eqn:Hn, (bool_decide (oid ∈ free_ids)), (delivers t chat oid);
    cbn; rewrite ?Hn; auto.
Qed.

Lemma notify_offers_lookup chat free_ids (subs : gmap string SubMeta) oid :
  notify_offers t chat free_ids subs !! oid = notify_one t chat free_ids oid <$> subs !! oid.
Proof.
  unfold notify_offers. rewrite map_lookup_imap. now destruct (subs !! oid).
Qed.

Lemma any_sent_false chat free_ids (subs : gmap string SubMeta) oid meta :
  any_sent t chat free_ids subs = false -> subs !! oid = Some meta ->
  notify_one t chat free_ids oid meta = meta.
Proof.
  intros Hnone Hlook. unfold notify_one.
  destruct (due free_ids oid meta && delivers t chat oid) eqn:Hsent; [|reflexivity].
  unfold any_sent in Hnone.
  assert (Hex : existsb (fun '(oid, meta) => due free_ids oid meta && delivers t chat oid)
                        (map_to_list subs) = true).
  { apply existsb_exists. exists (oid, meta). split; [|exact Hsent].
    apply list_elem_of_In, elem_of_map_to_list. exact Hlook. }
  congruence.
Qed.

Lemma offer_messages_elem chat free_ids (subs : gmap string SubMeta) msg :
  msg ∈ offer_messages t chat free_ids subs <->
  exists oid meta, subs !! oid = Some meta /\ due free_ids oid meta = true
                   /\ msg = NowFree chat oid (now_free_text oid meta) (delivers t chat oid).
Proof.
  unfold offer_messages. rewrite list_elem_of_omap. split.
  - intros ([oid meta] & Hin & Hf). apply elem_of_map_to_list in Hin.
    destruct (due free_ids oid meta) eqn:Hdue; [|discriminate].
    injection Hf as <-. eauto.
  - intros (oid & meta & Hlook & Hdue & ->). exists (oid, meta).
    split; [now apply elem_of_map_to_list|]. now rewrite Hdue.
Qed.

Lemma process_chats_cons snapshot chat rest file :
  process_chats t snapshot (chat :: rest) file
  = let file' := if sent_any t snapshot chat
                 then persist chat (subs_after t snapshot chat) file else file in
    (fst (process_chats t snapshot rest file'),
     offer_messages t chat (free_ids_of (current_of t chat)) (default ∅ (snapshot !! chat))
       ++ snd (process_chats t snapshot rest file')).
Proof.
  cbn [process_chats]. unfold sent_any, subs_after. cbn zeta.
  now destruct (process_chats t snapshot rest _).
Qed.

Lemma process_chats_other snapshot chats file chat :
  chat ∉ chats ->
  offer_subs (fst (process_chats t snapshot chats file)) !! chat = offer_subs file !! chat.
Proof.
  revert file. induction chats as [|c rest IH]; intros file Hnotin; [reflexivity|].
  rewrite process_chats_cons. cbn zeta. cbn [fst].
  apply not_elem_of_cons in Hnotin as [Hne Hrest].
  rewrite IH by exact Hrest.
  destruct (sent_any t snapshot c); [|reflexivity].
  cbn. now rewrite lookup_insert_ne by congruence.
Qed.

Lemma process_chats_at snapshot chats file chat :
  NoDup chats -> chat ∈ chats ->
  offer_subs (fst (process_chats t snapshot chats file)) !! chat
  = if sent_any t snapshot chat then Some (subs_after t snapshot chat) else offer_subs file !! chat.
Proof.
  revert file. induction chats as [|c rest IH]; intros file Hnodup Hin.
  - now apply elem_of_nil in Hin.
  - apply NoDup_cons in Hnodup as [Hfresh Hnodup].
    rewrite process_chats_cons. cbn zeta. cbn [fst].
    apply elem_of_cons in Hin as [->|Hin].
    + rewrite process_chats_other by exact Hfresh.
      destruct (sent_any t snapshot c); [|reflexivity]. cbn. apply lookup_insert_eq.
    + rewrite IH by assumption.
      destruct (sent_any t snapshot chat); [reflexivity|].
      destruct (sent_any t snapshot c); [|reflexivity].
      cbn. apply lookup_insert_ne. intros ->. contradiction.
Qed.

Lemma process_chats_messages snapshot chats file msg :
  msg ∈ snd (process_chats t snapshot chats file) <->
  exists chat, chat ∈ chats
    /\ msg ∈ offer_messages t chat (free_ids_of (current_of t chat))
                            (default ∅ (snapshot !! chat)).
Proof.
  revert file. induction chats as [|c rest IH]; intros file.
  - cbn. split; [intros H; now apply elem_of_nil in H|].
    intros (chat & H & _). now apply elem_of_nil in H.
  - rewrite process_chats_cons. cbn zeta. cbn [snd]. rewrite elem_of_app, IH. split.
    + intros [H|(chat & Hin & H)].
      * exists c. split; [left|exact H].
      * exists chat. split; [now right|exact H].
    + intros (chat & Hin & H). apply elem_of_cons in Hin as [->|Hin]; [now left|].
      right. eauto.
Qed.

Lemma daily_job_record store chat subs oid meta :
  offer_subs store !! chat = Some subs -> subs !! oid = Some meta ->
  user_subs chat (fst (daily_job t store)) !! oid
  = Some (notify_one t chat (free_ids_of (current_of t chat)) oid meta).
Proof.
  intros Hsubs Hmeta. unfold daily_job.
  destruct (process_chats t (offer_subs store) _ store) as [final msgs] eqn:Hrun.
  cbn [fst]. change final with (fst (final, msgs)). rewrite <- Hrun.
  unfold user_subs. rewrite process_chats_at.
  - unfold sent_any, subs_after. rewrite Hsubs. cbn [from_option Datatypes.id].
    destruct (any_sent t chat (free_ids_of (current_of t chat)) subs) eqn:Hsent;
      cbn [from_option Datatypes.id].
    + rewrite notify_offers_lookup, Hmeta. reflexivity.
    + rewrite Hmeta. f_equal. symmetry.
      eapply any_sent_false; eassumption.
  - apply NoDup_elements.
  - apply elem_of_elements. unfold chat_ids_to_process.
    apply elem_of_union_r, elem_of_dom. eauto.
Qed.

Lemma daily_job_messages store chat oid text sent :
  NowFree chat oid text sent ∈ snd (daily_job t store) <->
  exists meta, user_subs chat store !! oid = Some meta
    /\ due (free_ids_of (current_of t chat)) oid meta = true
    /\ text = now_free_text oid meta /\ sent = delivers t chat oid.
Proof.
  unfold daily_job.
  destruct (process_chats t (offer_subs store) _ store) as [final msgs] eqn:Hrun.
  cbn [snd]. rewrite elem_of_app. change msgs with (snd (final, msgs)). rewrite <- Hrun.
  rewrite process_chats_messages. split.
  - intros [(c & _ & Hmsg)|Hdigest].
    + apply offer_messages_elem in Hmsg as (o & meta & Hlook & Hdue & [= -> -> -> ->]).
      exists meta. auto.
    + apply list_elem_of_fmap in Hdigest as (c & [=] & _).
  - intros (meta & Hlook & Hdue & -> & ->). left. exists chat. split.
    + apply elem_of_elements. unfold chat_ids_to_process.
      apply elem_of_union_r, elem_of_dom. unfold user_subs in Hlook.
      destruct (offer_subs store !! chat); [eauto|]. cbn in Hlook.
      now rewrite lookup_empty in Hlook.
    + apply offer_messages_elem. exists oid, meta. auto.
Qed.

End Scheduler.

Lemma user_subs_lookup chat store oid meta :
  user_subs chat store !! oid = Some meta <->
  exists subs, offer_subs store !! chat = Some subs /\ subs !! oid = Some meta.
Proof.
  unfold user_subs. destruct (offer_subs store !! chat) as [subs|]; cbn.
  - split; [eauto|]. now intros (? & [= <-] & ?).
  - rewrite lookup_empty. split; [discriminate|]. now intros (? & [=] & _).
Qed.

Lemma due_spec free_ids oid meta :
  due free_ids oid meta = true <-> oid ∈ free_ids /\ notified meta = false.
Proof.
  unfold due. rewrite andb_true_iff, bool_decide_eq_true, negb_true_iff. reflexivity.
Qed.

Lemma run_ticks_cons t ts store :
  run_ticks (t :: ts) store
  = (fst (run_ticks ts (fst (daily_job t store))),
     snd (daily_job t store) ++ snd (run_ticks ts (fst (daily_job t store)))).
Proof.
  cbn [run_ticks]. destruct (daily_job t store) as [store' msgs]. cbn [fst snd].
  now destruct (run_ticks ts store').
Qed.

Lemma run_ticks_notified ts store chat oid meta :
  user_subs chat store !! oid = Some meta -> notified meta = true ->
  (exists meta', user_subs chat (fst (run_ticks ts store)) !! oid = Some meta'
                 /\ notified meta' = true)
  /\ forall text sent, NowFree chat oid text sent ∉ snd (run_ticks ts store).
Proof.
  revert store meta. induction ts as [|t ts IH]; intros store meta Hlook Hflag.
  - cbn. split; [eauto|]. intros text sent H. now apply elem_of_nil in H.
  - rewrite run_ticks_cons. cbn [fst snd].
    pose proof Hlook as Hlook'. apply user_subs_lookup in Hlook' as (subs & Hsubs & Hmeta).
    pose proof (daily_job_record t store chat subs oid meta Hsubs Hmeta) as Hnext.
    destruct (notify_one_fields t chat (free_ids_of (current_of t chat)) oid meta)
      as (_ & _ & Hn).
    rewrite Hflag in Hn. cbn in Hn.
    destruct (IH _ _ Hnext Hn) as [Hkeeps Hsilent]. split; [exact Hkeeps|].
    intros text sent Hin. apply elem_of_app in Hin as [Hin|Hin].
    + apply daily_job_messages in Hin as (meta0 & Hlook0 & Hdue & _).
      rewrite Hlook in Hlook0. injection Hlook0 as <-.
      apply due_spec in Hdue as [_ Hdue]. congruence.
    + exact (Hsilent _ _ Hin).
Qed.

(** C1: for a per-offer subscription, one run of the job keeps the record and
    its metadata. If it was watching, it is notified after the run exactly
    when its offer id is in the chat's free set and the message is delivered;
    a failed delivery leaves it watching, and a message is attempted exactly
    when the id is in the free set, so the next run tries again. Once the flag
    is true it stays true over any later runs, whatever their free sets and
    deliveries, and no message about the offer is sent to the chat again. *)
Theorem notified_only_on_delivery (t : Tick) (later : list Tick) (store : Store)
    (chat : Z) (oid : string) (meta : SubMeta) :
  user_subs chat store !! oid = Some meta ->
  let free_ids := free_ids_of (current_of t chat) in
  let store' := fst (daily_job t store) in
  let out := snd (daily_job t store) in
  exists meta',
    user_subs chat store' !! oid = Some meta'
    /\ sub_title meta' = sub_title meta /\ sub_pageSlug meta' = sub_pageSlug meta
    /\ (notified meta = false ->
        (notified meta' = true <-> oid ∈ free_ids /\ delivers t chat oid = true)
        /\ (delivers t chat oid = false -> notified meta' = false)
        /\ (forall text sent,
              NowFree chat oid text sent ∈ out <->
              oid ∈ free_ids /\ text = now_free_text oid meta /\ sent = delivers t chat oid))
    /\ (notified meta = true ->
        notified meta' = true /\ forall text sent, NowFree chat oid text sent ∉ out)
    /\ (notified meta' = true ->
        (exists meta'', user_subs chat (fst (run_ticks later store')) !! oid = Some meta''
                        /\ notified meta'' = true)
        /\ forall text sent, NowFree chat oid text sent ∉ snd (run_ticks later store')).
Proof.
  intros Hlook free_ids store' out.
  pose proof Hlook as Hlook'. apply user_subs_lookup in Hlook' as (subs & Hsubs & Hmeta).
  pose proof (daily_job_record t store chat subs oid meta Hsubs Hmeta) as Hnext.
  destruct (notify_one_fields t chat free_ids oid meta) as (Htitle & Hslug & Hn).
  fold free_ids in Hnext. fold store' in Hnext.
  exists (notify_one t chat free_ids oid meta).
  split; [exact Hnext|]. split; [exact Htitle|]. split; [exact Hslug|].
  assert (Hmsgs : forall text sent,
            NowFree chat oid text sent ∈ out <->
            exists meta0, user_subs chat store !! oid = Some meta0
              /\ due free_ids oid meta0 = true
              /\ text = now_free_text oid meta0 /\ sent = delivers t chat oid).
  { intros text sent. apply daily_job_messages. }
  split; [|split].
  - intros Hwatch. rewrite Hn, Hwatch. cbn [orb]. split; [|split].
    + rewrite andb_true_iff, bool_decide_eq_true. reflexivity.
    + intros ->. apply andb_false_r.
    + intros text sent. rewrite Hmsgs. split.
      * intros (meta0 & Hlook0 & Hdue & -> & ->).
        rewrite Hlook in Hlook0. injection Hlook0 as <-.
        apply due_spec in Hdue as [Hfree _]. auto.
      * intros (Hfree & -> & ->). exists meta. split; [exact Hlook|].
        split; [|auto]. apply due_spec. auto.
  - intros Hflag. rewrite Hn, Hflag. split; [reflexivity|].
    intros text sent Hin. apply Hmsgs in Hin as (meta0 & Hlook0 & Hdue & _).
    rewrite Hlook in Hlook0. injection Hlook0 as <-.
    apply due_spec in Hdue as [_ Hdue]. congruence.
  - intros Hflag. exact (run_ticks_notified later store' chat oid _ Hnext Hflag).
Qed.

Lemma notified_only_on_delivery_witness :
  exists meta',
    user_subs 7 (fst (run_ticks [tick_with [alpha] true; tick_with [] true; tick_with [alpha] true]
                               watching_store)) !! "Alpha" = Some meta'
    /\ notified meta' = true.
Proof.
  destruct (notified_only_on_delivery (tick_with [alpha] true)
              [tick_with [] true; tick_with [alpha] true] watching_store 7 "Alpha"
              (mk_meta (Some "Alpha") "alpha" false) eq_refl)
    as (meta' & _ & _ & _ & Hwatching & _ & Hlater).
  rewrite run_ticks_cons. cbn [fst].
  apply Hlater. apply Hwatching; [reflexivity|].
  split; [|reflexivity]. vm_compute. reflexivity.
Defined.

(** ** The media resolver *)

Lemma or_else_assoc a b c : or_else a (or_else b c) = or_else (or_else a b) c.
Proof. unfold or_else. destruct (truthy a) eqn:Ha; [now rewrite Ha|reflexivity]. Qed.

Lemma or_else_None_r a : clean1 a = true -> or_else a None = a.
Proof. now destruct a as [[|c s]|]. Qed.

Lemma or_else_clean a b : clean1 a = true -> clean1 b = true -> clean1 (or_else a b) = true.
Proof. unfold or_else. now destruct (truthy a). Qed.

Lemma or_else_found a b : truthy a = true -> or_else a b = a.
Proof. unfold or_else. now intros ->. Qed.

Lemma merge_assoc a b c : merge a (merge b c) = merge (merge a b) c.
Proof. unfold merge. cbn [fst snd]. now rewrite !or_else_assoc. Qed.

Lemma merge_empty_l r : merge (None, None) r = r.
Proof. now destruct r. Qed.

Lemma merge_empty_r a : clean a -> merge a (None, None) = a.
Proof.
  destruct a as [d y]. intros [Hd Hy]. unfold merge. cbn [fst snd] in *.
  now rewrite !or_else_None_r.
Qed.

Lemma merge_clean a r : clean a -> clean r -> clean (merge a r).
Proof. intros [? ?] [? ?]. split; now apply or_else_clean. Qed.

Lemma is_video_nonempty v : is_video (Str.lower v) = true -> truthy (Some v) = true.
Proof. destruct v; [discriminate|reflexivity]. Qed.

Lemma is_youtube_nonempty v : is_youtube (Str.lower v) = true -> truthy (Some v) = true.
Proof. destruct v; [discriminate|reflexivity]. Qed.

Lemma truthy_clean o : truthy o = true -> clean1 o = true.
Proof. now destruct o as [[|c s]|]. Qed.

Lemma consider_str_clean s a : clean a -> clean (consider_str s a).
Proof.
  intros [Hd Hy]. unfold consider_str. cbv zeta. split; cbn [fst snd].
  - destruct (is_video _) eqn:Hv; cbn [andb]; [|exact Hd].
    destruct (truthy (fst a)); cbn [negb]; [exact Hd|].
    apply truthy_clean, is_video_nonempty, Hv.
  - destruct (is_youtube _) eqn:Hv; cbn [andb]; [|exact Hy].
    destruct (truthy (snd a)); cbn [negb]; [exact Hy|].
    apply truthy_clean, is_youtube_nonempty, Hv.
Qed.

Lemma good_bind (m : exc found) (f : found -> exc found) :
  good m -> (forall a, clean a -> good (f a)) -> good (bind m f).
Proof. destruct m; cbn; auto. Qed.

Lemma good1_bind (m : exc (option string)) (f : option string -> exc found) :
  good1 m -> (forall o, clean1 o = true -> good (f o)) -> good (bind m f).
Proof. destruct m; cbn; auto. Qed.

Lemma consider_good v a : clean a -> good (consider v a).
Proof.
  intros Ha. unfold consider.
  destruct (json_truthy v); [destruct v|]; cbn; auto using consider_str_clean.
Qed.

Lemma src_get_raises src k e : src_get src k = Raise e -> e = AttributeError.
Proof.
  unfold src_get. destruct (json_truthy src); [|discriminate].
  destruct src; intros [=]; auto.
Qed.

Lemma pick_from_list_good l : good1 (pick_from_list l).
Proof.
  induction l as [|src rest IH]; cbn; [reflexivity|].
  destruct (src_get src "src") as [a|e] eqn:Ha; cbn;
    [|now apply src_get_raises in Ha].
  assert (Hurl : forall url, good1 (match url with
                   | JStr u => if is_video (Str.lower u) then Ok (Some u) else pick_from_list rest
                   | _ => pick_from_list rest
                   end)).
  { intros [| | | |u| |]; try exact IH.
    destruct (is_video (Str.lower u)) eqn:Hv; [|exact IH].
    cbn [good1]. apply truthy_clean, is_video_nonempty, Hv. }
  destruct (json_truthy a); cbn; [apply Hurl|].
  destruct (src_get src "url") as [b|e] eqn:Hb; cbn;
    [apply Hurl|now apply src_get_raises in Hb].
Qed.

Lemma pick_from_sources_good sources : good1 (pick_from_sources sources).
Proof. destruct sources; try reflexivity. apply pick_from_list_good. Qed.

Section MediaResolverProps.

Variable format_value : json -> string.

Lemma hint_good k already kvs a : clean a -> good (hint k already kvs a).
Proof.
  intros Ha. unfold hint. destruct (lookup_key k kvs) as [v|]; [|exact Ha].
  destruct (json_truthy v && negb already); [now apply consider_good|exact Ha].
Qed.

Lemma hints_good kvs : good (hints format_value kvs).
Proof.
  unfold hints.
  match goal with |- good (bind (hint _ _ _ ?a0) _) => assert (Ha0 : clean a0) end.
  { destruct (get "provider" kvs); try (split; reflexivity).
    destruct (_ && _ && _); split; reflexivity. }
  apply good_bind; [now apply hint_good|]. intros a1 Ha1.
  apply good_bind; [now apply hint_good|]. intros a2 Ha2.
  apply good_bind; [now apply hint_good|]. intros a3 Ha3.
  apply good_bind.
  - destruct (lookup_key "video" kvs) as [[| | | | | |video]|]; try exact Ha3.
    apply good1_bind; [apply pick_from_sources_good|]. intros o Ho.
    destruct Ha3. split; [now apply or_else_clean|assumption].
  - intros a4 Ha4. destruct (lookup_key "sources" kvs) as [sources|]; [|exact Ha4].
    apply good1_bind; [apply pick_from_sources_good|]. intros o Ho.
    destruct Ha4. split; [now apply or_else_clean|assumption].
Qed.

Lemma scan_items_good (scan : json -> exc found) l a :
  Forall (fun x => good (scan x)) l -> clean a -> good (scan_items scan l a).
Proof.
  intros Hl. revert a. induction Hl as [|x l Hx _ IH]; intros a Ha; [exact Ha|].
  cbn. apply good_bind; [exact Hx|]. intros r Hr. apply IH. now apply merge_clean.
Qed.

Lemma scan_values_good (scan : json -> exc found) kvs a :
  Forall (fun kv => good (scan (snd kv))) kvs -> clean a -> good (scan_values scan kvs a).
Proof.
  intros Hl. revert a. induction Hl as [|[k v] l Hx _ IH]; intros a Ha; [exact Ha|].
  cbn in Hx. cbn [scan_values].
  assert (Hrec : good (bind (scan v) (fun r => scan_values scan l (merge a r)))).
  { apply good_bind; [exact Hx|]. intros r Hr. apply IH. now apply merge_clean. }
  destruct v; auto.
Qed.

(** The scan of any document returns a clean pair or raises
    [AttributeError]. *)
Lemma scan_modules_good obj : good (scan_modules format_value obj).
Proof.
  induction obj using json_nested_ind; try (split; reflexivity).
  - cbn. destruct s; cbn; apply consider_str_clean; split; reflexivity.
  - cbn. apply scan_items_good; [assumption|split; reflexivity].
  - cbn. apply good_bind; [apply hints_good|]. intros a Ha.
    now apply scan_values_good.
Qed.

Lemma scan_ok_clean obj r : scan_modules format_value obj = Ok r -> clean r.
Proof. intros H. pose proof (scan_modules_good obj) as Hg. now rewrite H in Hg. Qed.

Lemma scan_items_from l a :
  clean a ->
  scan_items (scan_modules format_value) l a
  = let* r := scan_items (scan_modules format_value) l (None, None) in Ok (merge a r).
Proof.
  revert a. induction l as [|x l IH]; intros a Ha.
  - cbn. now rewrite merge_empty_r.
  - cbn [scan_items]. destruct (scan_modules format_value x) as [r1|e] eqn:Hx; [|reflexivity].
    cbn [bind]. pose proof (scan_ok_clean _ _ Hx) as Hr1.
    rewrite merge_empty_l, (IH (merge a r1)) by now apply merge_clean.
    rewrite (IH r1) by exact Hr1.
    destruct (scan_items _ l (None, None)) as [r|e]; [|reflexivity].
    cbn. now rewrite merge_assoc.
Qed.

Lemma scan_values_from kvs a :
  clean a ->
  scan_values (scan_modules format_value) kvs a
  = let* r := scan_values (scan_modules format_value) kvs (None, None) in Ok (merge a r).
Proof.
  revert a. induction kvs as [|[k v] kvs IH]; intros a Ha.
  - cbn. now rewrite merge_empty_r.
  - assert (Hrec :
      bind (scan_modules format_value v)
           (fun r => scan_values (scan_modules format_value) kvs (merge a r))
      = let* r := (let* r1 := scan_modules format_value v in
                   scan_values (scan_modules format_value) kvs (merge (None, None) r1)) in
        Ok (merge a r)).
    { destruct (scan_modules format_value v) as [r1|e] eqn:Hx; [|reflexivity].
      cbn [bind]. pose proof (scan_ok_clean _ _ Hx) as Hr1.
      rewrite merge_empty_l, (IH (merge a r1)) by now apply merge_clean.
      rewrite (IH r1) by exact Hr1.
      destruct (scan_values _ kvs (None, None)) as [r|e]; [|reflexivity].
      cbn. now rewrite merge_assoc. }
    cbn [scan_values]. destruct v; try exact Hrec; now apply IH.
Qed.

Lemma consider_string s a : consider (JStr s) a = Ok (consider_str s a).
Proof. now destruct s. Qed.

Lemma scan_strings ss :
  scan_modules format_value (JArr (JStr <$> ss))
  = Ok (List.find is_direct (Str.strip <$> ss), List.find is_youtube_link (Str.strip <$> ss)).
Proof.
  induction ss as [|s ss IH]; [reflexivity|].
  cbn [scan_modules] in *. cbn [fmap list_fmap scan_items].
  change (scan_modules format_value (JStr s)) with (consider (JStr s) (None, None)).
  rewrite consider_string. cbn [bind].
  rewrite merge_empty_l, scan_items_from
    by (apply consider_str_clean; split; reflexivity).
  change (list_fmap string json JStr ss) with (JStr <$> ss). rewrite IH. cbn [bind].
  f_equal. unfold merge, consider_str. cbv zeta. cbn [fst snd truthy negb List.find].
  rewrite !andb_true_r. unfold is_direct, is_youtube_link. f_equal.
  - destruct (is_video (Str.lower (Str.strip s))) eqn:Hv; [|reflexivity].
    apply or_else_found, is_video_nonempty, Hv.
  - destruct (is_youtube (Str.lower (Str.strip s))) eqn:Hv; [|reflexivity].
    apply or_else_found, is_youtube_nonempty, Hv.
Qed.

Lemma keeps_refl a : keeps a a.
Proof. split; reflexivity. Qed.

Lemma consider_str_keeps v a : keeps a (consider_str v a).
Proof.
  unfold consider_str, keeps. cbn [fst snd]. split; intros ->.
  - now rewrite andb_false_r.
  - now rewrite andb_false_r.
Qed.

Lemma consider_keeps v a r : consider v a = Ok r -> keeps a r.
Proof.
  unfold consider. destruct (json_truthy v).
  - destruct v; try discriminate. intros [= <-]. apply consider_str_keeps.
  - intros [= <-]. apply consider_str_keeps.
Qed.

Lemma hint_keeps k already kvs a r : hint k already kvs a = Ok r -> keeps a r.
Proof.
  unfold hint. destruct (lookup_key k kvs) as [v|].
  - destruct (json_truthy v && negb already).
    + apply consider_keeps.
    + intros [= <-]. apply keeps_refl.
  - intros [= <-]. apply keeps_refl.
Qed.

Lemma hint_already k kvs a : hint k true kvs a = Ok a.
Proof.
  unfold hint. destruct (lookup_key k kvs) as [v|]; [|reflexivity].
  now rewrite andb_false_r.
Qed.

Lemma or_else_keeps (a : found) cand : keeps a (or_else (fst a) cand, snd a).
Proof.
  split; cbn [fst snd]; [|reflexivity]. apply or_else_found.
Qed.

Lemma hint_step_keeps kvs step a r :
  In step (hint_steps format_value kvs) -> step a = Ok r -> keeps a r.
Proof.
  cbn [hint_steps In]. intros [<-|[<-|[<-|[<-|[<-|[<-|[]]]]]]].
  - unfold provider_hint. intros [= <-].
    destruct (get "provider" kvs); try apply keeps_refl.
    destruct (truthy (snd a)) eqn:Hyt.
    + rewrite andb_false_r. apply keeps_refl.
    + destruct (_ && _ && _); [|apply keeps_refl].
      split; cbn [fst snd]; [reflexivity|congruence].
  - apply hint_keeps.
  - apply hint_keeps.
  - apply hint_keeps.
  - unfold video_sources_hint.
    destruct (lookup_key "video" kvs) as [[| | | | | |video]|];
      try (intros [= <-]; apply keeps_refl).
    destruct (pick_from_sources (get "sources" video)) as [cand|e]; [|discriminate].
    intros [= <-]. apply or_else_keeps.
  - unfold sources_hint. destruct (lookup_key "sources" kvs) as [sources|].
    + destruct (pick_from_sources sources) as [cand|e]; [|discriminate].
      intros [= <-]. apply or_else_keeps.
    + intros [= <-]. apply keeps_refl.
Qed.

Lemma run_steps_keeps (steps : list (found -> exc found)) a r :
  (forall step b c, In step steps -> step b = Ok c -> keeps b c) ->
  run_steps steps a = Ok r -> keeps a r.
Proof.
  revert a. induction steps as [|step steps IH]; intros a Hall; cbn [run_steps].
  - intros [= <-]. apply keeps_refl.
  - destruct (step a) as [b|e] eqn:Hstep; [|discriminate]. cbn [bind]. intros Hrun.
    pose proof (Hall step a b (or_introl eq_refl) Hstep) as [H1 H2].
    destruct (IH b (fun s x y Hs => Hall s x y (or_intror Hs)) Hrun) as [H3 H4].
    split; intros Ha.
    + rewrite <- (H1 Ha). apply H3. now rewrite (H1 Ha).
    + rewrite <- (H2 Ha). apply H4. now rewrite (H2 Ha).
Qed.

Lemma hints_run kvs :
  hints format_value kvs = run_steps (hint_steps format_value kvs) (None, None).
Proof.
  unfold hints, hint_steps, run_steps, provider_hint, video_sources_hint, sources_hint.
  cbn [bind].
  destruct (hint "youTubeUrl" _ kvs _) as [a1|]; [|reflexivity]. cbn [bind].
  destruct (hint "youtubeUrl" _ kvs a1) as [a2|]; [|reflexivity]. cbn [bind].
  destruct (hint "videoUrl" _ kvs a2) as [a3|]; [|reflexivity]. cbn [bind].
  destruct (lookup_key "video" kvs) as [[| | | | | |video]|]; cbn [bind];
    try (destruct (lookup_key "sources" kvs); [destruct (pick_from_sources _)|]; reflexivity).
  destruct (pick_from_sources (get "sources" video)) as [cand|]; [|reflexivity]. cbn [bind].
  destruct (lookup_key "sources" kvs); [destruct (pick_from_sources _)|]; reflexivity.
Qed.

(** C7: in the scan, what an earlier part of the walk found of a kind is
    kept and what it did not find is taken from the later parts: the result
    for a list is the result for its head merged with the result for its
    tail, the result for a dict is what its own hints give merged with the
    results for its values in order, and merging keeps a found value and
    fills an absent one; so among the strings of a list the first direct
    video and the first YouTube link are returned, each regardless of the
    other. A string considered never replaces a value found before it, a
    hint whose kind is already found changes nothing, and the hints of a
    dict are its six patterns tried in their order, each on what the ones
    before it have found: from any point on, what has been found is what the
    hints end with. On the document
    [{"modules":[{"youTubeUrl":"https://youtu.be/abc123"}]}] the resolver
    returns [(None, "https://youtu.be/abc123")]. The scan is defined by
    structural recursion on the document: on every document it ends, with a
    pair of non-empty findings or with [AttributeError] (the interpreter's
    recursion limit is not part of the model). *)
Theorem scan_first_match_wins :
  (forall a r : found,
     (truthy (fst a) = true -> fst (merge a r) = fst a)
     /\ (truthy (snd a) = true -> snd (merge a r) = snd a)
     /\ (fst a = None -> fst (merge a r) = fst r)
     /\ (snd a = None -> snd (merge a r) = snd r))
  /\ (forall x xs,
        scan_modules format_value (JArr (x :: xs))
        = let* r1 := scan_modules format_value x in
          let* r2 := scan_modules format_value (JArr xs) in
          Ok (merge r1 r2))
  /\ (forall kvs,
        scan_modules format_value (JObj kvs)
        = let* h := hints format_value kvs in
          let* r := scan_values (scan_modules format_value) kvs (None, None) in
          Ok (merge h r))
  /\ (forall k v kvs,
        scan_values (scan_modules format_value) ((k, v) :: kvs) (None, None)
        = match v with
          | JObj _ | JArr _ =>
              let* r1 := scan_modules format_value v in
              let* r2 := scan_values (scan_modules format_value) kvs (None, None) in
              Ok (merge r1 r2)
          | _ => scan_values (scan_modules format_value) kvs (None, None)
          end)
  /\ (forall ss,
        scan_modules format_value (JArr (JStr <$> ss))
        = Ok (List.find is_direct (Str.strip <$> ss),
              List.find is_youtube_link (Str.strip <$> ss)))
  /\ resolve format_value trailer_document = Ok (None, Some "https://youtu.be/abc123")
  /\ (forall content page_slug locale namespace,
        try_locales content [locale; "en"; "en-GB"] (slug_candidates page_slug namespace)
        = trailer_document ->
        fetch_trailer_urls format_value content page_slug locale namespace
        = Ok (None, Some "https://youtu.be/abc123"))
  /\ (forall obj,
        scan_modules format_value obj = Raise AttributeError
        \/ exists r, scan_modules format_value obj = Ok r /\ clean r)
  /\ (forall v a, keeps a (consider_str v a))
  /\ (forall k already kvs a r, hint k already kvs a = Ok r -> keeps a r)
  /\ (forall k kvs a, hint k true kvs a = Ok a)
  /\ (forall kvs,
        hints format_value kvs = run_steps (hint_steps format_value kvs) (None, None))
  /\ (forall kvs earlier later a r,
        hint_steps format_value kvs = earlier ++ later ->
        run_steps later a = Ok r -> keeps a r).
Proof.
  split; [|split; [|split; [|split; [|split; [|split; [|split]]]]]].
  - intros a r. unfold merge. cbn [fst snd]. repeat split.
    + apply or_else_found.
    + apply or_else_found.
    + now intros ->.
    + now intros ->.
  - intros x xs. cbn [scan_modules scan_items].
    destruct (scan_modules format_value x) as [r1|e] eqn:Hx; [|reflexivity].
    cbn [bind]. rewrite merge_empty_l. apply scan_items_from.
    exact (scan_ok_clean _ _ Hx).
  - intros kvs. cbn [scan_modules].
    pose proof (hints_good kvs) as Hh.
    destruct (hints format_value kvs) as [h|e]; [|reflexivity].
    cbn [bind]. now apply scan_values_from.
  - intros k v kvs. cbn [scan_values].
    assert (Hrec :
      bind (scan_modules format_value v)
           (fun r => scan_values (scan_modules format_value) kvs (merge (None, None) r))
      = let* r1 := scan_modules format_value v in
        let* r2 := scan_values (scan_modules format_value) kvs (None, None) in
        Ok (merge r1 r2)).
    { destruct (scan_modules format_value v) as [r1|e] eqn:Hv; [|reflexivity].
      cbn [bind]. rewrite merge_empty_l. apply scan_values_from.
      exact (scan_ok_clean _ _ Hv). }
    destruct v; try reflexivity; exact Hrec.
  - apply scan_strings.
  - reflexivity.
  - intros content page_slug locale namespace Hdoc.
    unfold fetch_trailer_urls. rewrite Hdoc. reflexivity.
  - split; [|split; [|split; [|split; [|split]]]].
    + intros obj. pose proof (scan_modules_good obj) as Hg.
      destruct (scan_modules format_value obj) as [r|e]; cbn in Hg.
      * right. eauto.
      * left. now subst e.
    + apply consider_str_keeps.
    + apply hint_keeps.
    + apply hint_already.
    + apply hints_run.
    + intros kvs earlier later a r Hsteps. apply run_steps_keeps.
      intros step b c Hin. apply (hint_step_keeps kvs).
      rewrite Hsteps. apply in_or_app. now right.
Qed.

End MediaResolverProps.

Lemma scan_first_match_wins_witness :
  fetch_trailer_urls (fun _ => "") (fun _ => Ok trailer_document) "alpha" "en-US" ""
  = Ok (None, Some "https://youtu.be/abc123")
  /\ scan_modules (fun _ => "")
       (JArr (JStr <$> [String.append "a.webm" nbsp; "https://youtu.be/x"; "b.mp4";
                        "https://youtube.com/y"]))
     = Ok (Some "a.webm", Some "https://youtu.be/x").
Proof.
  destruct (scan_first_match_wins (fun _ => "")) as (_ & _ & _ & _ & Hstrings & _ & Hdoc & _).
  split.
  - apply Hdoc. reflexivity.
  - rewrite Hstrings. reflexivity.
Defined.

(** ** The classifier of upcoming offers *)

(** C3: on a catalog whose two upcoming offers start an hour apart, the
    earlier one written with the offset [+02:00] and the later one with [Z],
    [fetch_upcoming_games] returns the later offer first: the sort compares
    the ISO texts of the starts, not their instants, so the result is not
    non-decreasing by [soonestStart]. *)
Theorem fetch_upcoming_mixed_offsets_order :
  exists first second t1 t2,
    fst (fetch_upcoming_games Datetime.iso_parse (call_2025 [early_bird; late_riser])
           "en-US" "US" empty_world) = Ok [first; second]
    /\ title first = Some "Late" /\ title second = Some "Early"
    /\ upcomingStart first = Some "2999-03-01T00:00:00+00:00"
    /\ upcomingStart second = Some "2999-03-01T01:00:00+02:00"
    /\ soonestStart Datetime.iso_parse new_year_2025 first = Some t1
    /\ soonestStart Datetime.iso_parse new_year_2025 second = Some t2
    /\ (t2 < t1)%Z.
Proof.
  do 4 eexists. split; [vm_compute; reflexivity|].
  repeat split; try reflexivity.
Qed.

Lemma string_compare_trans a b c :
  String.compare a b <> Gt -> String.compare b c <> Gt -> String.compare a c <> Gt.
Proof.
  revert b c. induction a as [|x a IH]; intros [|y b] [|z c]; cbn; try congruence.
  unfold Ascii.compare.
  destruct (N.compare_spec (N_of_ascii x) (N_of_ascii y)),
           (N.compare_spec (N_of_ascii y) (N_of_ascii z)),
           (N.compare_spec (N_of_ascii x) (N_of_ascii z));
    try congruence; try lia; eauto.
Qed.

Lemma string_leb_spec a b : String.leb a b = true <-> String.compare a b <> Gt.
Proof. unfold String.leb. destruct (String.compare a b); intuition congruence. Qed.

Lemma string_leb_trans a b c :
  String.leb a b = true -> String.leb b c = true -> String.leb a c = true.
Proof. rewrite !string_leb_spec. apply string_compare_trans. Qed.

Lemma string_leb_refl a : String.leb a a = true.
Proof. destruct (String.leb_total a a); assumption. Qed.

Lemma insert_by_key_perm x l : insert_by_key x l ≡ₚ x :: l.
Proof.
  induction l as [|y l IH]; cbn; [reflexivity|].
  destruct (String.leb (sort_key x) (sort_key y)); [reflexivity|].
  rewrite IH. apply Permutation_swap.
Qed.

Lemma insert_by_key_sorted x l :
  StronglySorted key_le l -> StronglySorted key_le (insert_by_key x l).
Proof.
  induction 1 as [|y l Hl IH Hy]; cbn.
  - repeat constructor.
  - destruct (String.leb (sort_key x) (sort_key y)) eqn:Hxy.
    + constructor; [now constructor|]. constructor; [exact Hxy|].
      eapply Forall_impl; [exact Hy|]. intros z Hz. unfold key_le in *.
      eapply string_leb_trans; eassumption.
    + constructor; [exact IH|]. rewrite insert_by_key_perm. constructor; [|exact Hy].
      unfold key_le. destruct (String.leb_total (sort_key x) (sort_key y)); congruence.
Qed.

Lemma insert_by_key_stable k x l : with_key k (insert_by_key x l) = with_key k (x :: l).
Proof.
  unfold with_key. induction l as [|y l IH]; cbn [insert_by_key]; [reflexivity|].
  destruct (String.leb (sort_key x) (sort_key y)) eqn:Hxy; [reflexivity|].
  rewrite filter_cons, IH, !filter_cons.
  destruct (decide (sort_key y = k)) as [Hy|Hy], (decide (sort_key x = k)) as [Hx|Hx];
    try reflexivity.
  rewrite Hx, Hy, string_leb_refl in Hxy. discriminate.
Qed.

Lemma sort_upcoming_spec l :
  sort_upcoming l ≡ₚ l
  /\ StronglySorted key_le (sort_upcoming l)
  /\ forall k, with_key k (sort_upcoming l) = with_key k l.
Proof.
  induction l as [|x l (Hperm & Hsorted & Hstable)]; cbn [sort_upcoming].
  - repeat split; constructor.
  - split; [|split].
    + now rewrite insert_by_key_perm, Hperm.
    + now apply insert_by_key_sorted.
    + intros k. rewrite insert_by_key_stable. unfold with_key in *.
      now rewrite !filter_cons, Hstable.
Qed.

Section UpcomingProps.

Import Datetime.

Variable fromisoformat : string -> option datetime.

Lemma upcoming_window_start now acc po acc' :
  (fst acc = true -> is_Some (snd acc)) ->
  upcoming_window fromisoformat now acc po = Ok acc' ->
  fst acc' = true -> is_Some (snd acc').
Proof.
  intros Hacc. unfold upcoming_window.
  destruct (parse_start fromisoformat po) as [start|]; [|now intros [= <-]].
  destruct (cmp_now start now) as [[| |]|]; cbn; try (now intros [= <-]); try discriminate.
  destruct (snd acc) as [starts_at|]; [|intros [= <-]; cbn; eauto].
  destruct (dt_cmp start starts_at); cbn; [|discriminate].
  intros [= <-]. cbn. eauto.
Qed.

Lemma upcoming_windows_start now pos acc acc' :
  (fst acc = true -> is_Some (snd acc)) ->
  upcoming_windows fromisoformat now acc pos = Ok acc' ->
  fst acc' = true -> is_Some (snd acc').
Proof.
  revert acc. induction pos as [|po pos IH]; intros acc Hacc; cbn.
  - now intros [= <-].
  - intros H. apply bind_ok in H as (acc1 & H1 & H).
    eapply IH; [|exact H]. eapply upcoming_window_start; eassumption.
Qed.

Lemma upcoming_groups_start now offers acc acc' :
  (fst acc = true -> is_Some (snd acc)) ->
  upcoming_groups fromisoformat now acc offers = Ok acc' ->
  fst acc' = true -> is_Some (snd acc').
Proof.
  revert acc. induction offers as [|offer offers IH]; intros acc Hacc; cbn.
  - now intros [= <-].
  - intros H. apply bind_ok in H as (acc1 & H1 & H).
    eapply IH; [|exact H]. eapply upcoming_windows_start; eassumption.
Qed.

Lemma upcoming_has_start now elements l e :
  upcoming fromisoformat now elements = Ok l -> e ∈ l ->
  exists d, upcomingStart e = Some (isoformat d).
Proof.
  revert l. induction elements as [|el rest IH]; intros l.
  - cbn. intros [= <-] Hin. now apply elem_of_nil in Hin.
  - cbn [upcoming]. destruct (upcoming_offers el) as [|offer offers]; [apply IH|].
    intros H Hin. apply bind_ok in H as (r & Hr & H). apply bind_ok in H as (tl & Htl & H).
    injection H as <-. destruct (fst r) eqn:Hfuture; [|eauto].
    apply elem_of_cons in Hin as [->|Hin]; [|eauto].
    assert (Hstart : is_Some (snd r)).
    { eapply upcoming_groups_start; [|exact Hr|exact Hfuture]. cbn. discriminate. }
    destruct Hstart as [d Hd]. exists d. cbn. now rewrite Hd.
Qed.

(** What [fetch_upcoming_games] does guarantee about order: its result is the
    list of upcoming elements, in catalog order, stably sorted by the ISO text
    of each element's soonest start, a text every element of the result has;
    two elements with the same text keep their catalog order. *)
Theorem upcoming_sorted_by_start_text (now : Z) (elements : list Element) (l : list Element) :
  upcoming_sorted fromisoformat now elements = Ok l ->
  exists l0,
    upcoming fromisoformat now elements = Ok l0
    /\ l ≡ₚ l0
    /\ StronglySorted key_le l
    /\ (forall k, with_key k l = with_key k l0)
    /\ (forall e, e ∈ l -> exists d, upcomingStart e = Some (isoformat d)).
Proof.
  unfold upcoming_sorted. intros H. apply bind_ok in H as (l0 & Hl0 & [= <-]).
  destruct (sort_upcoming_spec l0) as (Hperm & Hsorted & Hstable).
  exists l0. repeat split; try assumption.
  intros e He. rewrite Hperm in He. eapply upcoming_has_start; eassumption.
Qed.

End UpcomingProps.

Lemma upcoming_sorted_by_start_text_witness :
  exists l,
    upcoming_sorted Datetime.iso_parse new_year_2025
      [offer_upcoming "March" "2025-03-01T00:00:00Z";
       offer_upcoming "February" "2025-02-01T00:00:00Z"] = Ok l
    /\ title <$> l = [Some "February"; Some "March"]
    /\ StronglySorted key_le l.
Proof.
  eexists. split; [vm_compute; reflexivity|]. split; [reflexivity|].
  match goal with |- StronglySorted key_le ?l =>
    destruct (upcoming_sorted_by_start_text Datetime.iso_parse new_year_2025
                [offer_upcoming "March" "2025-03-01T00:00:00Z";
                 offer_upcoming "February" "2025-02-01T00:00:00Z"] l)
      as (_ & _ & _ & Hsorted & _)
  end.
  - vm_compute. reflexivity.
  - exact Hsorted.
Defined.

(** ** Upcoming offers: which elements are returned, and with which start *)

Lemma least_fold_min t ts : least (fold_right Z.min t ts) (t :: ts).
Proof.
  induction ts as [|u ts [Hin Hle]]; cbn.
  - split; [left|]. intros x Hx. apply list_elem_of_singleton in Hx. lia.
  - split.
    + destruct (Z.min_spec u (fold_right Z.min t ts)) as [[_ ->]|[_ ->]].
      * right. left.
      * apply elem_of_cons in Hin as [Hin|Hin]; [rewrite Hin; left|right; now right].
    + intros x Hx. apply elem_of_cons in Hx as [->|Hx].
      * specialize (Hle t (list_elem_of_here _ _)). lia.
      * apply elem_of_cons in Hx as [->|Hx]; [lia|].
        specialize (Hle x (list_elem_of_further _ _ _ Hx)). lia.
Qed.

Lemma least_unique m m' ts : least m ts -> least m' ts -> m = m'.
Proof. intros [Hin Hle] [Hin' Hle']. specialize (Hle _ Hin'). specialize (Hle' _ Hin). lia. Qed.

Section UpcomingSoonest.

Import Datetime.

Variable fromisoformat : string -> option datetime.

Lemma soonestStart_least now el m :
  soonestStart fromisoformat now el = Some m <-> least m (future_starts fromisoformat now el).
Proof.
  unfold soonestStart. destruct (future_starts fromisoformat now el) as [|t ts].
  - split; [discriminate|]. intros [Hin _]. now apply elem_of_nil in Hin.
  - split.
    + intros [= <-]. apply least_fold_min.
    + intros Hm. f_equal. eapply least_unique; [apply least_fold_min|exact Hm].
Qed.

Lemma upcoming_window_tracks now acc po acc' ts :
  upcoming_window fromisoformat now acc po = Ok acc' ->
  tracks_soonest acc ts ->
  tracks_soonest acc' (ts ++ omap (future_start fromisoformat now) [po]).
Proof.
  unfold upcoming_window, future_start. cbn [omap list_omap].
  destruct (parse_start fromisoformat po) as [start|];
    [|intros [= <-] H; now rewrite app_nil_r].
  unfold cmp_now, instant. destruct (tzinfo start) as [off|] eqn:Hoff; [|discriminate].
  cbn [bind]. unfold Z.ltb. rewrite (Z.compare_antisym (instant_us start off) now).
  destruct (instant_us start off ?= now)%Z eqn:Hcmp; cbn [CompOpp];
    try (intros [= <-] H; now rewrite app_nil_r).
  apply Z.compare_gt_iff in Hcmp. unfold tracks_soonest.
  destruct (snd acc) as [starts_at|].
  - intros H (Hfut & off' & Hoff' & Hin & Hle).
    unfold dt_cmp in H. rewrite Hoff, Hoff' in H. cbn [bind] in H. injection H as <-.
    cbn [fst snd]. split; [reflexivity|].
    destruct (Z.compare_spec (instant_us start off) (instant_us starts_at off')) as [Hc|Hc|Hc].
    + exists off'. split; [exact Hoff'|]. split.
      * apply elem_of_app. now left.
      * intros t Ht. apply elem_of_app in Ht as [Ht|Ht]; [now apply Hle|].
        apply list_elem_of_singleton in Ht. lia.
    + exists off. split; [exact Hoff|]. split.
      * apply elem_of_app. right. left.
      * intros t Ht. apply elem_of_app in Ht as [Ht|Ht].
        -- specialize (Hle _ Ht). lia.
        -- apply list_elem_of_singleton in Ht. lia.
    + exists off'. split; [exact Hoff'|]. split.
      * apply elem_of_app. now left.
      * intros t Ht. apply elem_of_app in Ht as [Ht|Ht]; [now apply Hle|].
        apply list_elem_of_singleton in Ht. lia.
  - intros [= <-] [_ ->]. cbn [fst snd app]. split; [reflexivity|].
    exists off. split; [exact Hoff|]. split; [left|].
    intros t Ht. apply list_elem_of_singleton in Ht. lia.
Qed.

Lemma upcoming_windows_tracks now pos acc acc' ts :
  upcoming_windows fromisoformat now acc pos = Ok acc' ->
  tracks_soonest acc ts ->
  tracks_soonest acc' (ts ++ omap (future_start fromisoformat now) pos).
Proof.
  revert acc ts. induction pos as [|po pos IH]; intros acc ts; cbn [upcoming_windows].
  - intros [= <-] H. cbn. now rewrite app_nil_r.
  - intros H Hacc. apply bind_ok in H as (acc1 & H1 & H).
    pose proof (upcoming_window_tracks _ _ _ _ _ H1 Hacc) as Hacc1.
    specialize (IH _ _ H Hacc1). rewrite <- app_assoc, <- omap_app in IH. exact IH.
Qed.

Lemma upcoming_groups_tracks now offers acc acc' ts :
  upcoming_groups fromisoformat now acc offers = Ok acc' ->
  tracks_soonest acc ts ->
  tracks_soonest acc'
    (ts ++ omap (future_start fromisoformat now) (concat (map group_windows offers))).
Proof.
  revert acc ts. induction offers as [|offer offers IH]; intros acc ts; cbn [upcoming_groups].
  - intros [= <-] H. cbn. now rewrite app_nil_r.
  - intros H Hacc. apply bind_ok in H as (acc1 & H1 & H).
    pose proof (upcoming_windows_tracks _ _ _ _ _ H1 Hacc) as Hacc1.
    specialize (IH _ _ H Hacc1). cbn [map concat]. rewrite omap_app, app_assoc. exact IH.
Qed.

Lemma upcoming_window_from now acc po acc' pos :
  upcoming_window fromisoformat now acc po = Ok acc' ->
  from_window fromisoformat acc pos ->
  from_window fromisoformat acc' (pos ++ [po]).
Proof.
  unfold upcoming_window, from_window. intros H Hacc.
  assert (Hold : forall d, snd acc = Some d ->
            exists po', po' ∈ pos ++ [po] /\ parse_start fromisoformat po' = Some d).
  { intros d Hd. destruct (Hacc d Hd) as (po' & Hin & Hpo'). exists po'.
    split; [apply elem_of_app; now left|exact Hpo']. }
  assert (Hnew : forall d, parse_start fromisoformat po = Some d ->
            exists po', po' ∈ pos ++ [po] /\ parse_start fromisoformat po' = Some d).
  { intros d Hd. exists po. split; [apply elem_of_app; right; left|exact Hd]. }
  destruct (parse_start fromisoformat po) as [start|] eqn:Hstart; [|now injection H as <-].
  destruct (cmp_now start now) as [c|e]; [|discriminate]. cbn [bind] in H.
  destruct c; try (now injection H as <-).
  destruct (snd acc) as [starts_at|] eqn:Hacc'.
  - destruct (dt_cmp start starts_at) as [c'|e]; [|discriminate]. cbn [bind] in H.
    injection H as <-. cbn [snd]. intros d [= <-].
    destruct c'; [now apply Hold|now apply Hnew|now apply Hold].
  - injection H as <-. cbn [snd]. intros d [= <-]. now apply Hnew.
Qed.

Lemma upcoming_windows_from now pos acc acc' met :
  upcoming_windows fromisoformat now acc pos = Ok acc' ->
  from_window fromisoformat acc met ->
  from_window fromisoformat acc' (met ++ pos).
Proof.
  revert acc met. induction pos as [|po pos IH]; intros acc met; cbn [upcoming_windows].
  - intros [= <-] H. now rewrite app_nil_r.
  - intros H Hacc. apply bind_ok in H as (acc1 & H1 & H).
    pose proof (upcoming_window_from _ _ _ _ _ H1 Hacc) as Hacc1.
    specialize (IH _ _ H Hacc1). now rewrite <- app_assoc in IH.
Qed.

Lemma upcoming_groups_from now offers acc acc' met :
  upcoming_groups fromisoformat now acc offers = Ok acc' ->
  from_window fromisoformat acc met ->
  from_window fromisoformat acc' (met ++ concat (map group_windows offers)).
Proof.
  revert acc met. induction offers as [|offer offers IH]; intros acc met; cbn [upcoming_groups].
  - intros [= <-] H. cbn. now rewrite app_nil_r.
  - intros H Hacc. apply bind_ok in H as (acc1 & H1 & H).
    pose proof (upcoming_windows_from _ _ _ _ _ H1 Hacc) as Hacc1.
    specialize (IH _ _ H Hacc1). cbn [map concat]. now rewrite app_assoc.
Qed.

Lemma upcoming_element now el r :
  upcoming_groups fromisoformat now (false, None) (upcoming_offers el) = Ok r ->
  if fst r
  then exists d off, snd r = Some d /\ tzinfo d = Some off
                     /\ soonestStart fromisoformat now el = Some (instant_us d off)
                     /\ (now < instant_us d off)%Z
                     /\ (exists po, po ∈ upcoming_windows_of el
                                    /\ parse_start fromisoformat po = Some d)
  else soonestStart fromisoformat now el = None.
Proof.
  intros H.
  assert (Hfrom : from_window fromisoformat r (upcoming_windows_of el)).
  { apply (upcoming_groups_from _ _ _ _ [] H). intros d [=]. }
  eapply (upcoming_groups_tracks _ _ _ _ []) in H; [|now split].
  cbn [app] in H. change (omap _ _) with (future_starts fromisoformat now el) in H.
  unfold tracks_soonest in H. destruct (snd r) as [d|] eqn:Hd.
  - destruct H as (-> & off & Hoff & Hleast). exists d, off.
    split; [reflexivity|]. split; [exact Hoff|]. split; [now apply soonestStart_least|].
    split; [|exact (Hfrom d Hd)].
    destruct Hleast as [Hin _]. unfold future_starts in Hin.
    apply list_elem_of_omap in Hin as (po & _ & Hpo).
    destruct (parse_start fromisoformat po) as [d'|]; [|discriminate].
    destruct (instant d') as [t|]; [|discriminate].
    destruct (now <? t)%Z eqn:Hlt; [|discriminate]. injection Hpo as <-.
    now apply Z.ltb_lt.
  - destruct H as [-> Hnil]. unfold soonestStart. now rewrite Hnil.
Qed.

Lemma upcoming_no_offers now el :
  upcoming_offers el = [] -> soonestStart fromisoformat now el = None.
Proof. intros H. unfold soonestStart, future_starts. now rewrite H. Qed.

Lemma upcoming_members now elements l :
  upcoming fromisoformat now elements = Ok l ->
  (forall e, e ∈ l ->
     exists el d off,
       el ∈ elements /\ e = set_upcomingStart (Some (isoformat d)) el
       /\ tzinfo d = Some off
       /\ soonestStart fromisoformat now el = Some (instant_us d off)
       /\ (now < instant_us d off)%Z
       /\ (exists po, po ∈ upcoming_windows_of el
                      /\ parse_start fromisoformat po = Some d))
  /\ (forall el, el ∈ elements -> is_Some (soonestStart fromisoformat now el) ->
        exists d, set_upcomingStart (Some (isoformat d)) el ∈ l).
Proof.
  revert l. induction elements as [|el rest IH]; intros l.
  - cbn. intros [= <-]. split; intros ? H; now apply elem_of_nil in H.
  - cbn [upcoming]. destruct (upcoming_offers el) as [|offer offers] eqn:Hoffers.
    + intros H. destruct (IH _ H) as [Hsound Hcomplete]. split.
      * intros e He. destruct (Hsound e He) as (el' & d & off & Hin & Hrest).
        exists el', d, off. split; [now right|exact Hrest].
      * intros el' Hin [m Hm]. apply elem_of_cons in Hin as [->|Hin]; [|eauto].
        rewrite (upcoming_no_offers now el Hoffers) in Hm. discriminate.
    + intros H. apply bind_ok in H as (r & Hr & H). apply bind_ok in H as (tl & Htl & H).
      injection H as <-. destruct (IH _ Htl) as [Hsound Hcomplete].
      rewrite <- Hoffers in Hr. apply upcoming_element in Hr.
      destruct (fst r).
      * destruct Hr as (d & off & -> & Hoff & Hsoon & Hfut & Hpo). cbn [fmap option_fmap option_map].
        split.
        -- intros e He. apply elem_of_cons in He as [->|He].
           ++ exists el, d, off. split; [left|auto].
           ++ destruct (Hsound e He) as (el' & d' & off' & Hin & Hrest).
              exists el', d', off'. split; [now right|exact Hrest].
        -- intros el' Hin Hsome. apply elem_of_cons in Hin as [->|Hin].
           ++ exists d. left.
           ++ destruct (Hcomplete el' Hin Hsome) as [d' Hd']. exists d'. now right.
      * split.
        -- intros e He. destruct (Hsound e He) as (el' & d' & off' & Hin & Hrest).
           exists el', d', off'. split; [now right|exact Hrest].
        -- intros el' Hin [m Hm]. apply elem_of_cons in Hin as [->|Hin]; [|eauto].
           congruence.
Qed.

(** Which elements [fetch_upcoming_games] returns on a fresh fetch: each
    returned element is a catalog element marked with the ISO text of the
    parsed start of one of its own upcoming windows, that start lies after
    [now] and no future start of the element is sooner; and every catalog
    element with a start after [now] is returned. Elements whose starts are all past, absent or unparsable are
    left out. *)
Theorem upcoming_returns_future_offers (now : Z) (elements l : list Element) :
  upcoming_sorted fromisoformat now elements = Ok l ->
  (forall e, e ∈ l ->
     exists el d off,
       el ∈ elements /\ e = set_upcomingStart (Some (isoformat d)) el
       /\ tzinfo d = Some off
       /\ soonestStart fromisoformat now el = Some (instant_us d off)
       /\ (now < instant_us d off)%Z
       /\ (exists po, po ∈ upcoming_windows_of el
                      /\ parse_start fromisoformat po = Some d))
  /\ (forall el, el ∈ elements -> is_Some (soonestStart fromisoformat now el) ->
        exists d, set_upcomingStart (Some (isoformat d)) el ∈ l)
  /\ (forall el, el ∈ elements -> soonestStart fromisoformat now el = None ->
        forall v, set_upcomingStart v el ∉ l).
Proof.
  unfold upcoming_sorted. intros H. apply bind_ok in H as (l0 & Hl0 & [= <-]).
  destruct (sort_upcoming_spec l0) as (Hperm & _ & _).
  destruct (upcoming_members _ _ _ Hl0) as [Hsound Hcomplete].
  split; [|split].
  - intros e He. rewrite Hperm in He. now apply Hsound.
  - intros el Hin Hsome. destruct (Hcomplete el Hin Hsome) as [d Hd].
    exists d. now rewrite Hperm.
  - intros el Hin Hnone v Hv. rewrite Hperm in Hv.
    destruct (Hsound _ Hv) as (el' & d & off & _ & Heq & _ & Hsoon & _ & _).
    assert (Hpromo : promotions el = promotions el').
    { apply (f_equal promotions) in Heq. exact Heq. }
    assert (Hsame : soonestStart fromisoformat now el = soonestStart fromisoformat now el').
    { unfold soonestStart, future_starts, upcoming_offers. now rewrite Hpromo. }
    congruence.
Qed.

End UpcomingSoonest.

Lemma upcoming_returns_future_offers_witness :
  exists d,
    set_upcomingStart (Some (Datetime.isoformat d)) early_bird
    ∈ [set_upcomingStart (Some "2999-03-01T01:00:00+02:00") early_bird].
Proof.
  destruct (upcoming_returns_future_offers Datetime.iso_parse new_year_2025
              [alpha; early_bird]
              [set_upcomingStart (Some "2999-03-01T01:00:00+02:00") early_bird] eq_refl)
    as (_ & Hcomplete & _).
  apply Hcomplete.
  - right. left.
  - vm_compute. eauto.
Defined.

(** ** The cache: writes, reads and keys *)

(** What is put under a key is what a lookup within the TTL returns; a second
    put overwrites the first; the entries of other keys are neither read nor
    changed by either operation. *)
Theorem cache_put_get (t t' : Z) (locale country kind : string)
    (items items' : list Element) (cache : gmap string CacheEntry) :
  (t' - t <= 600 * 1000000)%Z ->
  let cache' := _set_cached t locale country kind items cache in
  _get_cached t' locale country kind cache' = (Some items, cache')
  /\ _set_cached t' locale country kind items' cache'
     = _set_cached t' locale country kind items' cache
  /\ (forall now l c k,
        _cache_key l c k <> _cache_key locale country kind ->
        fst (_get_cached now l c k cache') = fst (_get_cached now l c k cache)
        /\ snd (_get_cached now locale country kind cache) !! _cache_key l c k
           = cache !! _cache_key l c k).
Proof.
  intros Hfresh cache'. subst cache'. split; [|split].
  - apply (get_cached_hit t' locale country kind _ (mk_entry t items)).
    + apply lookup_insert_eq.
    + exact Hfresh.
  - unfold _set_cached. apply insert_insert_eq.
  - intros now l c k Hne. split.
    + unfold _get_cached, _set_cached. cbv zeta.
      rewrite lookup_insert_ne by (intros E; apply Hne; now rewrite E).
      destruct (cache !! _cache_key l c k) as [entry|]; [|reflexivity].
      now destruct (total_seconds_gt _ _).
    + unfold _get_cached. cbv zeta.
      destruct (cache !! _cache_key locale country kind) as [entry|]; [|reflexivity].
      destruct (total_seconds_gt _ _); [|reflexivity].
      cbn [snd]. apply lookup_delete_ne. intros E. apply Hne. now rewrite E.
Qed.

Lemma cache_put_get_witness :
  _get_cached 600000000 "en-US" "US" "current" (_set_cached 0 "en-US" "US" "current" [alpha] ∅)
  = (Some [alpha], _set_cached 0 "en-US" "US" "current" [alpha] ∅).
Proof.
  apply (cache_put_get 0 600000000 "en-US" "US" "current" [alpha] [] ∅). vm_compute. discriminate.
Defined.

Lemma contains_bar_cons c s :
  Str.contains "|" (String c s) = Ascii.eqb c "|" || Str.contains "|" s.
Proof.
  cbn [Str.contains String.prefix].
  destruct (ascii_dec "|" c) as [<-|Hne].
  - cbn. now destruct s.
  - rewrite (proj2 (Ascii.eqb_neq c "|")) by congruence. reflexivity.
Qed.

Lemma append_bar_inj a a' r r' :
  no_bar a -> no_bar a' ->
  String.append a (String "|" r) = String.append a' (String "|" r') -> a = a' /\ r = r'.
Proof.
  unfold no_bar. revert a'. induction a as [|c a IH]; intros [|c' a'] Ha Ha'; cbn.
  - now intros [= ->].
  - intros [= <- _]. rewrite contains_bar_cons, Ascii.eqb_refl in Ha'. discriminate.
  - intros [= -> _]. rewrite contains_bar_cons, Ascii.eqb_refl in Ha. discriminate.
  - intros [= -> H]. rewrite contains_bar_cons in Ha, Ha'.
    apply orb_false_elim in Ha as [_ Ha]. apply orb_false_elim in Ha' as [_ Ha'].
    destruct (IH a' Ha Ha' H) as [-> ->]. auto.
Qed.

(** Cache keys of different requests differ whenever locale and country hold
    no [|]: then a key determines its locale, country and class. Without that
    condition they can coincide, since the key only joins the three with
    [|]. *)
Theorem cache_key_injective (locale country kind locale' country' kind' : string) :
  no_bar locale -> no_bar country -> no_bar locale' -> no_bar country' ->
  (_cache_key locale country kind = _cache_key locale' country' kind'
   <-> locale = locale' /\ country = country' /\ kind = kind')
  /\ _cache_key "a|b" "c" kind = _cache_key "a" "b|c" kind.
Proof.
  intros Hl Hc Hl' Hc'. split; [|reflexivity]. split.
  - unfold _cache_key. cbn [String.append]. intros H.
    apply append_bar_inj in H as [-> H]; try assumption.
    apply append_bar_inj in H as [-> ->]; auto.
  - now intros (-> & -> & ->).
Qed.

Lemma cache_key_injective_witness :
  _cache_key "en-US" "US" "current" = _cache_key "en-US" "US" "current"
  <-> "en-US" = "en-US" /\ "US" = "US" /\ "current" = "current".
Proof.
  apply (cache_key_injective "en-US" "US" "current" "en-US" "US" "current"); reflexivity.
Defined.

Lemma fetch_with_cache_failure kind classify c locale country w e w1 :
  fetch_with_cache kind classify c locale country w = (Raise e, w1) ->
  requests w1 = requests w ++ [promotions_url locale country]
  /\ FREE_GAMES_CACHE w1 !! _cache_key locale country kind = None
  /\ (forall k, k <> _cache_key locale country kind ->
        FREE_GAMES_CACHE w1 !! k = FREE_GAMES_CACHE w !! k)
  /\ ((exists e', response c = Raise e' /\ e = e')
      \/ exists elements, response c = Ok elements /\ classify (t_now c) elements = Raise e).
Proof.
  unfold fetch_with_cache.
  assert (Hget : forall items cache,
            _get_cached (t_lookup c) locale country kind (FREE_GAMES_CACHE w) = (items, cache) ->
            items = None ->
            cache !! _cache_key locale country kind = None
            /\ forall k, k <> _cache_key locale country kind ->
                  cache !! k = FREE_GAMES_CACHE w !! k).
  { intros items cache. unfold _get_cached. cbv zeta.
    destruct (FREE_GAMES_CACHE w !! _cache_key locale country kind) as [entry|] eqn:Hlook.
    - destruct (total_seconds_gt _ _); intros [= <- <-]; [|discriminate].
      intros _. split; [apply lookup_delete_eq|].
      intros k Hk. apply lookup_delete_ne. congruence.
    - intros [= <- <-] _. auto. }
  destruct (_get_cached _ _ _ _ _) as [[items|] cache]; [discriminate|].
  destruct (Hget None cache eq_refl eq_refl) as [Hnone Hother].
  destruct (response c) as [elements|e'] eqn:Hresp; cbn [bind].
  - destruct (classify (t_now c) elements) as [its|e''] eqn:Hcls; [discriminate|].
    intros [= <- <-]. cbn. repeat split; auto. right. eauto.
  - intros [= <- <-]. cbn. repeat split; auto. left. eauto.
Qed.

Lemma fetch_with_cache_absent kind classify c locale country w :
  FREE_GAMES_CACHE w !! _cache_key locale country kind = None ->
  requests (snd (fetch_with_cache kind classify c locale country w))
  = requests w ++ [promotions_url locale country].
Proof.
  intros Hnone. unfold fetch_with_cache.
  rewrite (get_cached_absent _ _ _ _ _ Hnone).
  destruct (bind _ _); reflexivity.
Qed.

(** A failure is not cached, and stale data is not served in its place: when
    [fetch_free_games] or [fetch_upcoming_games] raises (the request failed,
    or a comparison in the classifier did), it has issued one request, the
    cache holds no entry for the key afterwards, even if a stale one was there
    before, other keys are untouched, and the next call for the key issues a
    request again. *)
Theorem fetch_failure_not_cached (fromisoformat : string -> option Datetime.datetime) :
  failure_not_cached "current" (fetch_free_games fromisoformat)
  /\ failure_not_cached "upcoming" (fetch_upcoming_games fromisoformat).
Proof.
  split; intros c locale country w e w1 H;
    destruct (fetch_with_cache_failure _ _ _ _ _ _ _ _ H) as (Hreq & Hnone & Hother & _);
    (split; [exact Hreq|split; [exact Hnone|split; [exact Hother|]]]);
    intros c2; now apply fetch_with_cache_absent.
Qed.

Lemma fetch_failure_not_cached_witness :
  FREE_GAMES_CACHE
    (snd (fetch_free_games Datetime.iso_parse (mk_call 0 (Raise UpstreamError) 0 0) "en-US" "US"
            (mk_world (_set_cached (-601000000) "en-US" "US" "current" [alpha] ∅) [])))
  !! _cache_key "en-US" "US" "current" = None.
Proof.
  exact (proj1 (proj2 (proj1 (fetch_failure_not_cached Datetime.iso_parse)
           (mk_call 0 (Raise UpstreamError) 0 0) "en-US" "US"
           (mk_world (_set_cached (-601000000) "en-US" "US" "current" [alpha] ∅) [])
           UpstreamError _ eq_refl))).
Defined.

(** ** The scheduler: what a run leaves alone *)

Lemma process_chats_frame t snapshot chats file :
  chat_ids (fst (process_chats t snapshot chats file)) = chat_ids file
  /\ users (fst (process_chats t snapshot chats file)) = users file.
Proof.
  revert file. induction chats as [|c rest IH]; intros file; [now split|].
  rewrite process_chats_cons. cbn zeta. cbn [fst].
  destruct (IH (if sent_any t snapshot c
                then persist c (subs_after t snapshot c) file else file)) as [-> ->].
  now destruct (sent_any t snapshot c).
Qed.

Lemma notify_offers_unsent t chat free_ids (subs : gmap string SubMeta) :
  any_sent t chat free_ids subs = false -> notify_offers t chat free_ids subs = subs.
Proof.
  intros Hnone. apply map_eq. intros oid. rewrite notify_offers_lookup.
  destruct (subs !! oid) as [meta|] eqn:Hmeta; [|reflexivity].
  cbn. f_equal. eapply any_sent_false; eassumption.
Qed.

Lemma daily_job_user_subs t store chat :
  user_subs chat (fst (daily_job t store))
  = notify_offers t chat (free_ids_of (current_of t chat)) (user_subs chat store).
Proof.
  unfold daily_job.
  destruct (process_chats t (offer_subs store) _ store) as [final msgs] eqn:Hrun.
  cbn [fst]. change final with (fst (final, msgs)). rewrite <- Hrun.
  unfold user_subs at 1.
  destruct (decide (chat ∈ elements (chat_ids_to_process store))) as [Hin|Hout].
  - rewrite process_chats_at by (apply NoDup_elements || exact Hin).
    unfold sent_any, subs_after. fold (user_subs chat store).
    destruct (any_sent t chat _ (user_subs chat store)) eqn:Hsent; [reflexivity|].
    fold (user_subs chat store). now rewrite notify_offers_unsent.
  - rewrite process_chats_other by exact Hout.
    fold (user_subs chat store).
    assert (Hempty : user_subs chat store = ∅).
    { unfold user_subs. destruct (offer_subs store !! chat) as [subs|] eqn:Hsubs; [|reflexivity].
      exfalso. apply Hout, elem_of_elements, elem_of_union_r, elem_of_dom. eauto. }
    rewrite Hempty. apply map_eq. intros oid.
    now rewrite notify_offers_lookup, lookup_empty.
Qed.

Lemma get_offer_id_nonempty el oid : get_offer_id el = Some oid -> oid <> EmptyString.
Proof.
  unfold get_offer_id. destruct (truthy (id el)) eqn:Hid.
  - intros H. rewrite H in Hid. now destruct oid.
  - destruct (items el) as [|iid rest]; [discriminate|].
    destruct (truthy iid) eqn:Hiid; [|discriminate].
    intros H. rewrite H in Hiid. now destruct oid.
Qed.

Lemma free_ids_of_spec current oid :
  oid ∈ free_ids_of current <-> exists el, el ∈ current /\ get_offer_id el = Some oid.
Proof. unfold free_ids_of. rewrite elem_of_list_to_set, list_elem_of_omap. reflexivity. Qed.

Lemma notify_one_nothing_free t chat oid meta :
  notify_one t chat (free_ids_of []) oid meta = meta.
Proof.
  unfold notify_one, due. rewrite bool_decide_eq_false_2; [reflexivity|].
  rewrite free_ids_of_spec. intros (el & Hel & _). now apply elem_of_nil in Hel.
Qed.

(** What one run of [daily_job] leaves alone. It never changes the digest
    list or the preferences and never adds or removes a subscription record.
    A chat whose catalog fetch fails, or returns nothing, keeps its records as
    they are and gets no offer message. What happens to a chat's records
    depends only on that chat's own fetch and deliveries, not on any other
    chat's. An offer message names a non-empty id carried by an element of
    the chat's free list. *)
Theorem daily_job_frame (t : Tick) (store : Store) :
  let store' := fst (daily_job t store) in
  let out := snd (daily_job t store) in
  chat_ids store' = chat_ids store
  /\ users store' = users store
  /\ (forall chat, dom (user_subs chat store') = dom (user_subs chat store))
  /\ (forall chat,
        (exists e, free_games t chat = Raise e) \/ free_games t chat = Ok [] ->
        user_subs chat store' = user_subs chat store
        /\ forall oid text sent, NowFree chat oid text sent ∉ out)
  /\ (forall t' chat,
        free_games t' chat = free_games t chat ->
        (forall oid, delivers t' chat oid = delivers t chat oid) ->
        user_subs chat (fst (daily_job t' store)) = user_subs chat store')
  /\ (forall chat oid text sent,
        NowFree chat oid text sent ∈ out ->
        oid <> EmptyString
        /\ exists el, el ∈ current_of t chat /\ get_offer_id el = Some oid).
Proof.
  intros store' out. subst store' out.
  split; [|split; [|split; [|split; [|split]]]].
  - unfold daily_job.
    destruct (process_chats t (offer_subs store) _ store) as [final msgs] eqn:Hrun.
    cbn [fst]. change final with (fst (final, msgs)). rewrite <- Hrun.
    apply process_chats_frame.
  - unfold daily_job.
    destruct (process_chats t (offer_subs store) _ store) as [final msgs] eqn:Hrun.
    cbn [fst]. change final with (fst (final, msgs)). rewrite <- Hrun.
    apply process_chats_frame.
  - intros chat. rewrite daily_job_user_subs. apply set_eq. intros oid.
    rewrite !elem_of_dom, notify_offers_lookup.
    destruct (user_subs chat store !! oid); cbn; split; intros [x Hx]; eauto; discriminate.
  - intros chat Hempty.
    assert (Hcur : current_of t chat = []).
    { unfold current_of. destruct Hempty as [[e ->]| ->]; reflexivity. }
    split.
    + rewrite daily_job_user_subs, Hcur. apply map_eq. intros oid.
      rewrite notify_offers_lookup. destruct (user_subs chat store !! oid) as [meta|]; [|reflexivity].
      cbn [fmap option_fmap option_map]. f_equal; apply notify_one_nothing_free.
    + intros oid text sent Hin. apply daily_job_messages in Hin as (meta & _ & Hdue & _).
      apply due_spec in Hdue as [Hfree _]. rewrite Hcur in Hfree.
      apply free_ids_of_spec in Hfree as (el & Hel & _). now apply elem_of_nil in Hel.
  - intros t' chat Hfetch Hdeliver. rewrite !daily_job_user_subs.
    unfold current_of. rewrite Hfetch. apply map_eq. intros oid.
    rewrite !notify_offers_lookup. destruct (user_subs chat store !! oid) as [meta|]; [|reflexivity].
    cbn. f_equal. unfold notify_one. now rewrite Hdeliver.
  - intros chat oid text sent Hin. apply daily_job_messages in Hin as (meta & _ & Hdue & _).
    apply due_spec in Hdue as [Hfree _]. apply free_ids_of_spec in Hfree as (el & Hel & Hid).
    split; [eapply get_offer_id_nonempty; exact Hid|eauto].
Qed.

(** ** The digest list *)

Lemma remove_first_elem x y l : x ∈ remove_first y l -> x ∈ l.
Proof.
  induction l as [|z l IH]; cbn; [easy|].
  destruct (decide (y = z)); [now right|].
  intros H. apply elem_of_cons in H as [->|H]; [left|right; auto].
Qed.

Lemma remove_first_other x y l : x <> y -> x ∈ l -> x ∈ remove_first y l.
Proof.
  intros Hne. induction l as [|z l IH]; cbn; [easy|].
  intros H. destruct (decide (y = z)) as [->|Hz].
  - apply elem_of_cons in H as [->|H]; [contradiction|exact H].
  - apply elem_of_cons in H as [->|H]; [left|right; auto].
Qed.

Lemma remove_first_NoDup y l :
  NoDup l -> NoDup (remove_first y l) /\ y ∉ remove_first y l.
Proof.
  induction 1 as [|z l Hz Hl [IH1 IH2]]; cbn.
  - split; [constructor|]. apply not_elem_of_nil.
  - destruct (decide (y = z)) as [->|Hne]; [now split|]. split.
    + constructor; [|exact IH1]. intros H. apply Hz. eapply remove_first_elem, H.
    + apply not_elem_of_cons. now split.
Qed.

(** The digest list under [/subscribe] and [/unsubscribe]. As long as the
    list holds no chat twice, it never will; after [/subscribe] the chat is on
    it and a second [/subscribe] only answers "already subscribed"; after
    [/unsubscribe] it is off it and a second one only answers "not
    subscribed"; other chats stay as they were, and so do preferences and
    offer subscriptions. *)
Theorem digest_subscription (chat : Z) (data : Store) :
  NoDup (chat_ids data) ->
  let sub := fst (subscribe_cmd chat data) in
  let unsub := fst (unsubscribe_cmd chat data) in
  NoDup (chat_ids sub) /\ NoDup (chat_ids unsub)
  /\ chat ∈ chat_ids sub /\ (chat ∉ chat_ids unsub)
  /\ (forall c, c <> chat ->
        (c ∈ chat_ids sub <-> c ∈ chat_ids data) /\ (c ∈ chat_ids unsub <-> c ∈ chat_ids data))
  /\ subscribe_cmd chat sub = (sub, "You're already subscribed.")
  /\ unsubscribe_cmd chat unsub = (unsub, "You were not subscribed.")
  /\ users sub = users data /\ offer_subs sub = offer_subs data
  /\ users unsub = users data /\ offer_subs unsub = offer_subs data.
Proof.
  intros Hnodup sub unsub.
  assert (Hsub : NoDup (chat_ids sub) /\ chat ∈ chat_ids sub
                 /\ (forall c, c <> chat -> (c ∈ chat_ids sub <-> c ∈ chat_ids data))
                 /\ users sub = users data /\ offer_subs sub = offer_subs data).
  { subst sub. unfold subscribe_cmd. case_bool_decide as Hin; cbn [fst chat_ids users offer_subs].
    - split; [exact Hnodup|]. split; [exact Hin|]. split; [reflexivity|]. now split.
    - split; [|split; [|split; [|now split]]].
      + apply NoDup_app. split; [exact Hnodup|]. split; [|apply NoDup_singleton].
        intros x Hx Hx'. apply list_elem_of_singleton in Hx'. congruence.
      + apply elem_of_app. right. left.
      + intros c Hc. rewrite elem_of_app, list_elem_of_singleton. tauto. }
  assert (Hunsub : NoDup (chat_ids unsub) /\ (chat ∉ chat_ids unsub)
                 /\ (forall c, c <> chat -> (c ∈ chat_ids unsub <-> c ∈ chat_ids data))
                 /\ users unsub = users data /\ offer_subs unsub = offer_subs data).
  { subst unsub. unfold unsubscribe_cmd.
    case_bool_decide as Hin; cbn [fst chat_ids users offer_subs].
    - destruct (remove_first_NoDup chat _ Hnodup) as [H1 H2].
      split; [exact H1|]. split; [exact H2|]. split; [|now split].
      intros c Hc. split; [apply remove_first_elem|now apply remove_first_other].
    - split; [exact Hnodup|]. split; [exact Hin|]. split; [reflexivity|]. now split. }
  destruct Hsub as (Hs1 & Hs2 & Hs3 & Hs4 & Hs5).
  destruct Hunsub as (Hu1 & Hu2 & Hu3 & Hu4 & Hu5).
  split; [exact Hs1|]. split; [exact Hu1|]. split; [exact Hs2|]. split; [exact Hu2|].
  split; [intros c Hc; split; [now apply Hs3|now apply Hu3]|].
  split; [unfold subscribe_cmd; now rewrite bool_decide_eq_true_2|].
  split; [unfold unsubscribe_cmd; now rewrite bool_decide_eq_false_2|].
  split; [exact Hs4|]. split; [exact Hs5|]. split; [exact Hu4|]. exact Hu5.
Qed.

Lemma digest_subscription_witness :
  subscribe_cmd 7 (fst (subscribe_cmd 7 watching_store))
  = (fst (subscribe_cmd 7 watching_store), "You're already subscribed.")
  /\ (7%Z ∉ chat_ids (fst (unsubscribe_cmd 7 (fst (subscribe_cmd 7 watching_store))))).
Proof.
  assert (Hnodup : NoDup (chat_ids watching_store)) by constructor.
  destruct (digest_subscription 7 watching_store Hnodup)
    as (Hnodup' & _ & _ & _ & _ & Htwice & _).
  split; [exact Htwice|].
  destruct (digest_subscription 7 (fst (subscribe_cmd 7 watching_store)) Hnodup')
    as (_ & _ & _ & Hout & _).
  exact Hout.
Defined.

(** ** The user preferences *)

(** Preferences round trip. A chat that never set anything reads
    [("en-US", "US")]; after setting the locale (or the country) it reads the
    value set and keeps the other one; other chats read what they read
    before; [/setlocale] and [/setcountry] without an argument change nothing,
    and [/setcountry] stores what [str.upper] makes of its argument. Setting
    a preference touches neither the digest list nor the offer
    subscriptions. *)
Theorem user_prefs_round_trip (upper : string -> string)
    (chat : Z) (value : string) (data : Store) :
  (users data !! chat = None -> get_user_prefs chat data = ("en-US", "US"))
  /\ get_user_prefs chat (set_user_pref chat "locale" value data)
     = (value, snd (get_user_prefs chat data))
  /\ get_user_prefs chat (set_user_pref chat "country" value data)
     = (fst (get_user_prefs chat data), value)
  /\ (forall chat' key, chat' <> chat ->
        get_user_prefs chat' (set_user_pref chat key value data) = get_user_prefs chat' data)
  /\ (forall key, key <> "locale" -> key <> "country" ->
        get_user_prefs chat (set_user_pref chat key value data) = get_user_prefs chat data)
  /\ (forall key, chat_ids (set_user_pref chat key value data) = chat_ids data
                  /\ offer_subs (set_user_pref chat key value data) = offer_subs data)
  /\ fst (setlocale_cmd chat [] data) = data
  /\ fst (setcountry_cmd upper chat [] data) = data
  /\ (forall rest, fst (get_user_prefs chat (fst (setlocale_cmd chat (value :: rest) data)))
                   = value)
  /\ (forall rest,
        snd (get_user_prefs chat (fst (setcountry_cmd upper chat (value :: rest) data)))
        = upper value).
Proof.
  unfold get_user_prefs, set_user_pref. cbn [users chat_ids offer_subs fst snd].
  split; [intros ->; reflexivity|].
  split; [now rewrite lookup_insert_eq; cbn; rewrite lookup_insert_eq, lookup_insert_ne|].
  split; [now rewrite lookup_insert_eq; cbn; rewrite lookup_insert_eq, lookup_insert_ne|].
  split; [intros chat' key Hne; now rewrite lookup_insert_ne by congruence|].
  split; [intros key H1 H2; rewrite lookup_insert_eq; cbn;
          now rewrite !lookup_insert_ne by congruence|].
  split; [intros key; split; reflexivity|].
  split; [reflexivity|]. split; [reflexivity|].
  split; intros rest; cbn; unfold get_user_prefs, set_user_pref; cbn [users fst snd];
    rewrite lookup_insert_eq; cbn; now rewrite lookup_insert_eq.
Qed.

(** ** Images *)

Lemma first_with_type_some ptype imgs url :
  first_with_type ptype imgs = Some url ->
  exists img, img ∈ imgs /\ image_type img = Some ptype /\ image_url img = url
              /\ truthy url = true.
Proof.
  induction imgs as [|img rest IH]; cbn; [discriminate|].
  destruct (bool_decide _ && truthy _) eqn:Hc.
  - intros [= <-]. apply andb_true_iff in Hc as [Hty Hurl].
    apply bool_decide_eq_true in Hty. exists img. split; [left|auto].
  - intros H. destruct (IH H) as (img' & Hin & Hrest). exists img'. split; [now right|exact Hrest].
Qed.

Lemma first_with_type_none ptype imgs img :
  first_with_type ptype imgs = None -> img ∈ imgs -> image_type img = Some ptype ->
  truthy (image_url img) = false.
Proof.
  induction imgs as [|img' rest IH]; cbn; [intros _ H; now apply elem_of_nil in H|].
  destruct (bool_decide _ && truthy _) eqn:Hc; [discriminate|].
  intros Hnone Hin Hty. apply elem_of_cons in Hin as [->|Hin]; [|auto].
  rewrite bool_decide_eq_true_2 in Hc by exact Hty. exact Hc.
Qed.

Lemma first_preferred_best ptypes imgs img i :
  img ∈ imgs -> candidate ptypes i img ->
  exists img' j, j <= i /\ img' ∈ imgs /\ candidate ptypes j img'
                 /\ first_preferred ptypes imgs = Some (image_url img').
Proof.
  revert i. induction ptypes as [|p ptypes IH]; intros i Hin [(ptype & Hi & Hty) Hurl].
  - now rewrite lookup_nil in Hi.
  - cbn [first_preferred]. destruct (first_with_type p imgs) as [url|] eqn:Hfirst.
    + apply first_with_type_some in Hfirst as (img' & Hin' & Hty' & <- & Hurl').
      exists img', 0. split; [lia|]. split; [exact Hin'|]. split; [|reflexivity].
      split; [exists p; auto|exact Hurl'].
    + destruct i as [|i].
      * cbn in Hi. injection Hi as ->.
        rewrite (first_with_type_none _ _ _ Hfirst Hin Hty) in Hurl. discriminate.
      * destruct (IH i Hin) as (img' & j & Hj & Hin' & [(p' & Hj' & Hty') Hurl'] & Hres).
        { split; [exists ptype; auto|exact Hurl]. }
        exists img', (S j). split; [lia|]. split; [exact Hin'|]. split; [|exact Hres].
        split; [exists p'; auto|exact Hurl'].
Qed.

Lemma first_preferred_none ptypes imgs :
  (forall img i, img ∈ imgs -> ~ candidate ptypes i img) ->
  first_preferred ptypes imgs = None.
Proof.
  induction ptypes as [|p ptypes IH]; intros Hnone; [reflexivity|].
  cbn [first_preferred]. destruct (first_with_type p imgs) as [url|] eqn:Hfirst.
  - apply first_with_type_some in Hfirst as (img & Hin & Hty & Heq & Hurl).
    destruct (Hnone img 0 Hin). split; [exists p; auto|].
    now rewrite Heq.
  - apply IH. intros img i Hin [(ptype & Hi & Hty) Hurl].
    apply (Hnone img (S i) Hin). split; [exists ptype; auto|exact Hurl].
Qed.

(** Which image [pick_image_url] picks. If some image has a preferred type
    and a non-empty url, the result is the non-empty url of an image whose
    type ranks at least as high in the preference order as that image's. If
    no image qualifies, the result is whatever the first image carries as
    url, be it absent or empty, even when later images have one; and an empty
    list gives nothing. *)
Theorem pick_image_url_priority (key_images : list KeyImage) :
  (forall img i, img ∈ key_images -> candidate preferred_types i img ->
     exists img' j, j <= i /\ img' ∈ key_images /\ candidate preferred_types j img'
                    /\ pick_image_url key_images = image_url img')
  /\ ((forall img i, img ∈ key_images -> ~ candidate preferred_types i img) ->
      pick_image_url key_images = head key_images ≫= image_url)
  /\ (truthy (pick_image_url key_images) = true ->
      exists img, img ∈ key_images /\ image_url img = pick_image_url key_images).
Proof.
  split; [|split].
  - intros img i Hin Hcand.
    destruct (first_preferred_best _ _ _ _ Hin Hcand) as (img' & j & Hj & Hin' & Hc & Hres).
    exists img', j. unfold pick_image_url. rewrite Hres. auto.
  - intros Hnone. unfold pick_image_url. rewrite first_preferred_none by exact Hnone.
    now destruct key_images.
  - unfold pick_image_url.
    destruct (first_preferred preferred_types key_images) as [url|] eqn:Hfirst.
    + intros _. clear -Hfirst. revert Hfirst. generalize preferred_types.
      induction l as [|p l IH]; cbn; [discriminate|].
      destruct (first_with_type p key_images) as [u|] eqn:Hp; [|exact IH].
      intros [= <-]. apply first_with_type_some in Hp as (img & Hin & _ & Hu & _). eauto.
    + destruct key_images as [|img rest]; [discriminate|]. intros _. exists img. split; [left|auto].
Qed.

(** ** Page slugs *)

Lemma join_split_slash (s : string) : join_slash (split_slash s) = s.
Proof.
  induction s as [|c s IH]; [reflexivity|].
  cbn [split_slash]. destruct (Str.is_slash c) eqn:Hc.
  - apply Ascii.eqb_eq in Hc as ->.
    destruct (split_slash s) as [|part parts] eqn:Hs; cbn in *; now subst.
  - destruct (split_slash s) as [|part parts] eqn:Hs.
    + cbn in *. now subst.
    + destruct parts; cbn in *; now subst.
Qed.

Lemma is_store_prefix_spec (part : string) :
  is_store_prefix part = true <-> part = "p" \/ part = "bundles" \/ part = "store".
Proof.
  unfold is_store_prefix. rewrite !orb_true_iff, !String.eqb_eq. tauto.
Qed.

Lemma split_slash_prefixed (pre r : string) :
  is_store_prefix pre = true ->
  split_slash (String.append pre (String "/" r)) = pre :: split_slash r.
Proof. intros [->|[->| ->]]%is_store_prefix_spec; reflexivity. Qed.

Lemma normalize_slug_prefixed (slug : option string) (pre r : string) :
  is_store_prefix pre = true ->
  Str.lstrip_slash (Str.strip (or_empty slug)) = String.append pre (String "/" r) ->
  normalize_slug slug = r.
Proof.
  intros Hpre Hs. unfold normalize_slug. cbv zeta. rewrite Hs.
  rewrite split_slash_prefixed by exact Hpre. rewrite Hpre. apply join_split_slash.
Qed.

Lemma normalize_slug_bare (slug : option string) :
  is_store_prefix (Str.lstrip_slash (Str.strip (or_empty slug))) = true ->
  normalize_slug slug = "".
Proof.
  intros Hs. unfold normalize_slug. cbv zeta.
  apply is_store_prefix_spec in Hs as [->|[->| ->]]; reflexivity.
Qed.

Lemma startswith_append (p x : string) : Str.startswith (String.append p x) p = true.
Proof.
  unfold Str.startswith. induction p as [|a p IH]; [now destruct x|].
  change (String.prefix (String a p) (String a (String.append p x)) = true).
  cbn [String.prefix]. now destruct (ascii_dec a a).
Qed.

Lemma normalize_slug_other (slug : option string) :
  let s := Str.lstrip_slash (Str.strip (or_empty slug)) in
  is_store_prefix s = false ->
  Str.startswith s "p/" = false ->
  Str.startswith s "bundles/" = false ->
  Str.startswith s "store/" = false ->
  normalize_slug slug = s.
Proof.
  cbv zeta. unfold normalize_slug. cbv zeta.
  generalize (Str.lstrip_slash (Str.strip (or_empty slug))). intros s Hbare Hp Hb Hs.
  pose proof (join_split_slash s) as Hjoin.
  destruct (split_slash s) as [|part rest]; [exact Hjoin|].
  destruct (is_store_prefix part) eqn:Hpart; [|exact Hjoin].
  exfalso. destruct rest as [|next rest].
  - cbn in Hjoin. subst part. congruence.
  - change (join_slash (part :: next :: rest))
      with (String.append part (String "/" (join_slash (next :: rest)))) in Hjoin.
    subst s. apply is_store_prefix_spec in Hpart as [->|[->| ->]].
    + pose proof (startswith_append "p/" (join_slash (next :: rest))) as E.
      exact (diff_true_false (eq_trans (eq_sym E) Hp)).
    + pose proof (startswith_append "bundles/" (join_slash (next :: rest))) as E.
      exact (diff_true_false (eq_trans (eq_sym E) Hb)).
    + pose proof (startswith_append "store/" (join_slash (next :: rest))) as E.
      exact (diff_true_false (eq_trans (eq_sym E) Hs)).
Qed.

(** What [normalize_slug] of [get_page_slug] removes. With [s] the slug after
    [strip()] and [lstrip("/")]: a leading [p/], [bundles/] or [store/] is
    removed, once only; a slug that is just [p], [bundles] or [store] becomes
    empty; every other slug is returned as [s]. *)
Theorem normalize_slug_cases (slug : option string) :
  (forall pre r, is_store_prefix pre = true ->
     Str.lstrip_slash (Str.strip (or_empty slug)) = String.append pre (String "/" r) ->
     normalize_slug slug = r)
  /\ (is_store_prefix (Str.lstrip_slash (Str.strip (or_empty slug))) = true ->
      normalize_slug slug = "")
  /\ (is_store_prefix (Str.lstrip_slash (Str.strip (or_empty slug))) = false ->
      Str.startswith (Str.lstrip_slash (Str.strip (or_empty slug))) "p/" = false ->
      Str.startswith (Str.lstrip_slash (Str.strip (or_empty slug))) "bundles/" = false ->
      Str.startswith (Str.lstrip_slash (Str.strip (or_empty slug))) "store/" = false ->
      normalize_slug slug = Str.lstrip_slash (Str.strip (or_empty slug))).
Proof.
  split; [|split].
  - intros pre r. apply normalize_slug_prefixed.
  - apply normalize_slug_bare.
  - apply (normalize_slug_other slug).
Qed.

Lemma producthome_slug_truthy ms slug :
  producthome_slug ms = Some slug -> truthy slug = true.
Proof.
  induction ms as [|m ms IH]; cbn; [discriminate|].
  destruct (is_producthome m) eqn:Hm; [|exact IH].
  intros [= <-]. unfold is_producthome in Hm. now apply andb_true_iff in Hm.
Qed.

Lemma any_slug_truthy ms slug : any_slug ms = Some slug -> truthy slug = true.
Proof.
  induction ms as [|m ms IH]; cbn; [discriminate|].
  destruct (truthy (pageSlug m)) eqn:Hm; [|exact IH]. now intros [= <-].
Qed.

Lemma source_slug_truthy el slug : source_slug el = Some slug -> truthy slug = true.
Proof.
  unfold source_slug.
  destruct (producthome_slug (mappings el)) eqn:H1.
  { intros [= <-]. eapply producthome_slug_truthy; eauto. }
  destruct (any_slug (mappings el)) eqn:H2.
  { intros [= <-]. eapply any_slug_truthy; eauto. }
  destruct (any_slug (offerMappings el)) eqn:H3.
  { intros [= <-]. eapply any_slug_truthy; eauto. }
  destruct (truthy (productSlug el)) eqn:H4; [now intros [= <-]|].
  destruct (truthy (urlSlug el)) eqn:H5; [now intros [= <-]|discriminate].
Qed.

Lemma build_store_url_source el locale :
  build_store_url el locale =
  match source_slug el with
  | Some slug => slug_to_url locale slug
  | None => "https://store.epicgames.com/"
  end.
Proof.
  unfold build_store_url, source_slug.
  destruct (producthome_slug (mappings el)); [reflexivity|].
  destruct (any_slug (mappings el)); [reflexivity|].
  destruct (any_slug (offerMappings el)); [reflexivity|].
  destruct (truthy (productSlug el)); [reflexivity|].
  now destruct (truthy (urlSlug el)).
Qed.

Lemma get_page_slug_source el : get_page_slug el = normalize_slug <$> source_slug el.
Proof.
  unfold get_page_slug, source_slug.
  destruct (producthome_slug (mappings el)); [reflexivity|].
  destruct (any_slug (mappings el)); [reflexivity|].
  destruct (any_slug (offerMappings el)); [reflexivity|].
  destruct (truthy (productSlug el)); [reflexivity|].
  now destruct (truthy (urlSlug el)).
Qed.

Lemma slug_to_url_not_root locale slug :
  slug_to_url locale slug <> "https://store.epicgames.com/".
Proof.
  unfold slug_to_url. cbv zeta.
  destruct (_ || _ || _); cbn; intros [= E]; destruct locale; discriminate E.
Qed.

(** [get_page_slug] and [build_store_url] read the same slug of an element.
    [get_page_slug] yields nothing exactly when [build_store_url] falls back
    to the store's front page; and when it yields a page slug, that is the
    normalisation of a non-empty slug from which [build_store_url] forms its
    link. *)
Theorem get_page_slug_same_source (el : Element) (locale : string) :
  (get_page_slug el = None <-> build_store_url el locale = "https://store.epicgames.com/")
  /\ (forall page_slug, get_page_slug el = Some page_slug ->
      exists slug, truthy slug = true
                   /\ page_slug = normalize_slug slug
                   /\ build_store_url el locale = slug_to_url locale slug).
Proof.
  rewrite get_page_slug_source, build_store_url_source.
  destruct (source_slug el) as [slug|] eqn:Hsrc; cbn.
  - split.
    + split; [discriminate|]. intros E. now apply slug_to_url_not_root in E.
    + intros page_slug [= <-]. exists slug. split; [|auto].
      eapply source_slug_truthy; eauto.
  - split; [tauto|discriminate].
Qed.

Lemma now_free_text_link oid meta :
  now_free_text oid meta =
  String.append "Now free: "
   (String.append (if truthy (sub_title meta) then or_empty (sub_title meta) else oid)
    (String.append (String "010" EmptyString) (notification_link (sub_pageSlug meta)))).
Proof. unfold now_free_text, notification_link. now destruct (sub_pageSlug meta). Qed.

(** The link of a "now free" notification against the store link of the same
    slug. For a slug without surrounding white space that does not lead into
    [bundles/] or [store/] and whose normalisation is not empty, the
    notification, built from the stored page slug, links to the same page as
    [build_store_url] does for locale en-US. For a slug under [bundles/] or
    [store/] the two differ: the notification points below [/p/]. *)
Theorem notification_link_vs_store_url (slug : option string) :
  Str.strip (or_empty slug) = or_empty slug ->
  (Str.startswith (Str.lstrip_slash (or_empty slug)) "bundles/" = false ->
   Str.startswith (Str.lstrip_slash (or_empty slug)) "store/" = false ->
   normalize_slug slug <> "" ->
   notification_link (normalize_slug slug) = slug_to_url "en-US" slug)
  /\ (forall r,
        Str.lstrip_slash (or_empty slug) = String.append "bundles/" r
        \/ Str.lstrip_slash (or_empty slug) = String.append "store/" r ->
        normalize_slug slug = r
        /\ notification_link (normalize_slug slug) <> slug_to_url "en-US" slug).
Proof.
  intros Hstrip. split.
  - intros Hb Hs Hne.
    assert (Hlink : forall p, p <> "" ->
              notification_link p = String.append "https://store.epicgames.com/en-US/p/" p).
    { intros [|c p] Hp; [congruence|reflexivity]. }
    rewrite (Hlink _ Hne). unfold slug_to_url. cbv zeta. rewrite Hb, Hs, !orb_false_r.
    destruct (Str.startswith (Str.lstrip_slash (or_empty slug)) "p/") eqn:Hp.
    + unfold Str.startswith in Hp.
      destruct (Str.lstrip_slash (or_empty slug)) as [|c1 rest] eqn:Hslug; [discriminate Hp|].
      cbn [String.prefix] in Hp. destruct (ascii_dec "p" c1) as [<-|]; [|discriminate Hp].
      destruct rest as [|c2 r]; [discriminate Hp|].
      cbn [String.prefix] in Hp. destruct (ascii_dec "/" c2) as [<-|]; [|discriminate Hp].
      rewrite (normalize_slug_prefixed slug "p" r); [reflexivity|reflexivity|].
      now rewrite Hstrip, Hslug.
    + destruct (is_store_prefix (Str.lstrip_slash (or_empty slug))) eqn:Hbare.
      * destruct Hne. apply normalize_slug_bare. now rewrite Hstrip.
      * rewrite (normalize_slug_other slug); rewrite Hstrip; auto.
  - intros r Hr.
    assert (Hn : normalize_slug slug = r).
    { destruct Hr as [Hr|Hr].
      - apply (normalize_slug_prefixed slug "bundles" r); [reflexivity|]. now rewrite Hstrip, Hr.
      - apply (normalize_slug_prefixed slug "store" r); [reflexivity|]. now rewrite Hstrip, Hr. }
    split; [exact Hn|]. rewrite Hn. unfold slug_to_url. cbv zeta.
    destruct Hr as [-> | ->]; destruct r; intros E; vm_compute in E; discriminate E.
Qed.

Lemma notification_link_vs_store_url_witness :
  notification_link (normalize_slug (Some "/p/fortnite")) = slug_to_url "en-US" (Some "/p/fortnite")
  /\ normalize_slug (Some "bundles/trilogy") = "trilogy"
  /\ notification_link (normalize_slug (Some "bundles/trilogy"))
     <> slug_to_url "en-US" (Some "bundles/trilogy").
Proof.
  split.
  - refine (proj1 (notification_link_vs_store_url (Some "/p/fortnite") eq_refl)
              eq_refl eq_refl _).
    vm_compute. discriminate.
  - exact (proj2 (notification_link_vs_store_url (Some "bundles/trilogy") eq_refl)
             "trilogy" (or_introl eq_refl)).
Defined.

(** ** Trailer lookups *)

Section TrailerFetch.

Variable format_value : json -> string.
Variable content : string -> exc json.

Lemma try_slugs_none base slugs :
  (forall s, s ∈ slugs -> no_document (content (String.append base s))) ->
  try_slugs content base slugs = JNull.
Proof.
  induction slugs as [|s slugs IH]; intros Hall; [reflexivity|].
  cbn [try_slugs]. destruct (Hall s) as [-> | [e ->]]; [left|reflexivity|].
  apply IH. intros s' Hs'. apply Hall. now right.
Qed.

Lemma try_slugs_first base earlier slug later data :
  (forall s, s ∈ earlier -> exists e, content (String.append base s) = Raise e) ->
  content (String.append base slug) = Ok data ->
  try_slugs content base (earlier ++ slug :: later) = data.
Proof.
  intros Hearlier Hslug. induction earlier as [|s earlier IH]; cbn [app try_slugs].
  - now rewrite Hslug.
  - destruct (Hearlier s) as [e ->]; [left|].
    apply IH. intros s' Hs'. apply Hearlier. now right.
Qed.

Lemma try_locales_none locales slugs :
  (forall loc s, loc ∈ locales -> s ∈ slugs -> no_document (content (content_url loc s))) ->
  try_locales content locales slugs = JNull.
Proof.
  induction locales as [|loc locales IH]; intros Hall; [reflexivity|].
  cbn [try_locales]. rewrite try_slugs_none.
  - apply IH. intros loc' s Hloc Hs. apply Hall; [now right|exact Hs].
  - intros s Hs. apply (Hall loc s); [left|exact Hs].
Qed.

(** When no request yields a document, [fetch_trailer_urls] reports that it
    found nothing and does not raise: if every address it can try, for the
    chat's locale, "en" and "en-GB" and for every slug candidate, raises or
    answers [null], the result is [(None, None)]. *)
Theorem fetch_trailer_urls_unavailable (page_slug locale namespace : string) :
  (forall loc slug,
     loc ∈ [locale; "en"; "en-GB"] -> slug ∈ slug_candidates page_slug namespace ->
     no_document (content (content_url loc slug))) ->
  fetch_trailer_urls format_value content page_slug locale namespace = Ok (None, None).
Proof.
  intros Hall. unfold fetch_trailer_urls. now rewrite try_locales_none.
Qed.

(** The document [fetch_trailer_urls] reads is that of the first slug
    candidate, in the chat's locale, whose request succeeds: if the
    candidates before it raise and its own request answers a document other
    than [null], the result is what the scan of that document gives; later
    candidates and the fallback locales play no part. *)
Theorem fetch_trailer_urls_first_success
    (page_slug locale namespace : string) (earlier later : list string)
    (slug : string) (data : json) :
  slug_candidates page_slug namespace = earlier ++ slug :: later ->
  (forall s, s ∈ earlier -> exists e, content (content_url locale s) = Raise e) ->
  content (content_url locale slug) = Ok data ->
  data <> JNull ->
  fetch_trailer_urls format_value content page_slug locale namespace
  = resolve format_value data.
Proof.
  intros Hcands Hearlier Hslug Hdata. unfold fetch_trailer_urls.
  cbn [try_locales]. rewrite Hcands.
  rewrite (try_slugs_first _ earlier slug later data Hearlier Hslug).
  now destruct data.
Qed.

End TrailerFetch.

Lemma fetch_trailer_urls_unavailable_witness :
  fetch_trailer_urls (fun _ => "") (fun _ => Raise UpstreamError) "alan-wake" "de" "epic"
  = Ok (None, None).
Proof.
  apply (fetch_trailer_urls_unavailable (fun _ => "") (fun _ => Raise UpstreamError)
           "alan-wake" "de" "epic").
  intros loc slug _ _. right. exists UpstreamError. reflexivity.
Defined.

Lemma fetch_trailer_urls_first_success_witness :
  fetch_trailer_urls (fun _ => "") (only_at (content_url "en-US" "alan-wake") trailer_document)
    "alan-wake-1a2b3c" "en-US" ""
  = Ok (None, Some "https://youtu.be/abc123").
Proof.
  apply (fetch_trailer_urls_first_success (fun _ => "")
           (only_at (content_url "en-US" "alan-wake") trailer_document)
           "alan-wake-1a2b3c" "en-US" "" ["alan-wake-1a2b3c"] [] "alan-wake" trailer_document).
  - vm_compute. reflexivity.
  - intros s Hs. apply list_elem_of_singleton in Hs as ->.
    exists UpstreamError. vm_compute. reflexivity.
  - vm_compute. reflexivity.
  - discriminate.
Defined.

Lemma rev_string_append (s t : string) :
  List.rev (list_ascii_of_string (String.append s t))
  = List.rev (list_ascii_of_string t) ++ List.rev (list_ascii_of_string s).
Proof.
  induction s as [|c s IH]; cbn [list_ascii_of_string List.rev].
  - change (String.append "" t) with t. now rewrite app_nil_r.
  - change (String.append (String c s) t) with (String c (String.append s t)).
    cbn [list_ascii_of_string List.rev]. rewrite IH. now rewrite app_assoc.
Qed.

Lemma hex6_rev (h : string) :
  hex6 h = true ->
  exists h6 h5 h4 h3 h2 h1,
    List.rev (list_ascii_of_string h) = [h6; h5; h4; h3; h2; h1]
    /\ is_hex h6 && is_hex h5 && is_hex h4 && is_hex h3 && is_hex h2 && is_hex h1 = true.
Proof.
  unfold hex6. intros [Hlen Hhex]%andb_true_iff. apply Nat.eqb_eq in Hlen.
  destruct h as [|c1 [|c2 [|c3 [|c4 [|c5 [|c6 [|c7 h]]]]]]]; try discriminate Hlen.
  cbn in Hhex. exists c6, c5, c4, c3, c2, c1. split; [reflexivity|].
  repeat (apply andb_true_iff in Hhex as [? Hhex]).
  repeat (apply andb_true_iff; split); assumption.
Qed.

Lemma strip_content_id_suffix (s h : string) :
  hex6 h = true ->
  strip_content_id (String.append s (String "-" h)) = s.
Proof.
  intros (h6 & h5 & h4 & h3 & h2 & h1 & Hrev & Hhex)%hex6_rev.
  unfold strip_content_id. cbv zeta. rewrite rev_string_append.
  cbn [list_ascii_of_string List.rev]. rewrite Hrev.
  cbn [app drop_hex_suffix]. rewrite Hhex. cbn [andb Ascii.eqb Bool.eqb].
  rewrite rev_involutive. apply string_of_list_ascii_of_string.
Qed.

(** A page slug that ends in a content id, a dash and six hexadecimal
    digits, is retried without it. For a non-empty [s] and such digits [h]
    the candidates for [s-h] are [s-h] and [s], followed, when a namespace is
    given, by [namespace/s-h] and [namespace/s], in this order. *)
Theorem slug_candidates_content_id (s h namespace : string) :
  s <> "" -> hex6 h = true ->
  slug_candidates (String.append s (String "-" h)) namespace
  = [String.append s (String "-" h); s]
    ++ (if nonempty namespace
        then [String.append namespace (String.append "/" (String.append s (String "-" h)));
              String.append namespace (String.append "/" s)]
        else []).
Proof.
  intros Hs Hh. unfold slug_candidates. cbv zeta.
  rewrite strip_content_id_suffix by exact Hh.
  assert (Hne : nonempty s = true) by (destruct s; [congruence|reflexivity]).
  assert (Hlong : nonempty (String.append s (String "-" h)) = true) by now destruct s.
  assert (Hdiff : String.eqb s (String.append s (String "-" h)) = false).
  { apply String.eqb_neq. clear. induction s as [|c s IH]; [discriminate|].
    change (String.append (String c s) (String "-" h))
      with (String c (String.append s (String "-" h))).
    intros [= E]. exact (IH E). }
  rewrite Hne, Hdiff. cbn [andb negb].
  destruct (nonempty namespace) eqn:Hns; [|reflexivity].
  assert (Hpre : forall t, nonempty (String.append namespace (String.append "/" t)) = true).
  { intros t. destruct namespace; [discriminate Hns|reflexivity]. }
  cbn [app List.filter]. now rewrite Hlong, Hne, !Hpre.
Qed.

Lemma slug_candidates_content_id_witness :
  slug_candidates "alan-wake-1A2b3c" "epic"
  = ["alan-wake-1A2b3c"; "alan-wake"; "epic/alan-wake-1A2b3c"; "epic/alan-wake"].
Proof.
  apply (slug_candidates_content_id "alan-wake" "1A2b3c" "epic"); [discriminate|reflexivity].
Defined.

(** ** The YouTube search *)

Lemma append_cons (c : ascii) (s t : string) :
  String.append (String c s) t = String c (String.append s t).
Proof. reflexivity. Qed.

Lemma append_empty (t : string) : String.append "" t = t.
Proof. reflexivity. Qed.

Lemma strip_prefix_spec (p s t : string) :
  strip_prefix p s = Some t <-> s = String.append p t.
Proof.
  revert s. induction p as [|a p IH]; intros s; cbn [strip_prefix].
  - rewrite append_empty. split; congruence.
  - rewrite append_cons. destruct s as [|b s]; [split; discriminate|].
    destruct (Ascii.eqb_spec a b) as [<-|Hab].
    + rewrite IH. split; congruence.
    + split; [discriminate|congruence].
Qed.

Lemma take_id_spec (n : nat) (s id rest : string) :
  take_id n s = Some (id, rest)
  <-> s = String.append id rest /\ String.length id = n
      /\ forallb is_id_char (list_ascii_of_string id) = true.
Proof.
  revert s id rest. induction n as [|n IH]; intros s id rest; cbn [take_id].
  - split.
    + intros [= <- <-]. auto.
    + intros (-> & Hlen & _). destruct id; [reflexivity|discriminate Hlen].
  - destruct s as [|c s].
    + split; [discriminate|]. intros (Hs & Hlen & _).
      destruct id; [discriminate Hlen|discriminate Hs].
    + destruct (is_id_char c) eqn:Hc.
      * destruct (take_id n s) as [[id' rest']|] eqn:Htake.
        -- apply IH in Htake as (-> & Hlen & Hall). split.
           ++ intros [= <- <-]. rewrite append_cons. cbn. rewrite Hc, Hall. auto.
           ++ intros (Hs & Hlen' & Hall'). destruct id as [|c' id]; [discriminate Hlen'|].
              rewrite append_cons in Hs. injection Hs as <- Hs.
              cbn in Hlen', Hall'. apply andb_true_iff in Hall' as [_ Hall'].
              assert (Hsome : take_id n (String.append id' rest') = Some (id, rest)).
              { apply IH. split; [exact Hs|]. split; [lia|exact Hall']. }
              assert (Hsome' : take_id n (String.append id' rest') = Some (id', rest')).
              { apply IH. auto. }
              congruence.
        -- split; [discriminate|]. intros (Hs & Hlen' & Hall').
           destruct id as [|c' id]; [discriminate Hlen'|].
           rewrite append_cons in Hs. injection Hs as <- Hs.
           cbn in Hlen', Hall'. apply andb_true_iff in Hall' as [_ Hall'].
           assert (Hsome : take_id n s = Some (id, rest)).
           { apply IH. split; [exact Hs|]. split; [lia|exact Hall']. }
           congruence.
      * split; [discriminate|]. intros (Hs & Hlen' & Hall').
        destruct id as [|c' id]; [discriminate Hlen'|].
        rewrite append_cons in Hs. injection Hs as <- Hs.
        cbn in Hall'. rewrite Hc in Hall'. discriminate Hall'.
Qed.

Lemma match_here_spec (s id : string) :
  match_here s = Some id
  <-> valid_id id
      /\ exists post,
           s = String.append video_id_key (String.append id (String dquote post)).
Proof.
  unfold match_here, valid_id. split.
  - destruct (strip_prefix video_id_key s) as [t|] eqn:Hkey; [|discriminate].
    apply strip_prefix_spec in Hkey as ->.
    destruct (take_id 11 t) as [[id' [|q post]]|] eqn:Htake; try discriminate.
    destruct (Ascii.eqb_spec q dquote) as [->|]; [|discriminate].
    intros [= ->]. apply take_id_spec in Htake as (-> & Hlen & Hall). eauto.
  - intros ([Hlen Hall] & post & ->).
    assert (Hkey : strip_prefix video_id_key
                     (String.append video_id_key (String.append id (String dquote post)))
                   = Some (String.append id (String dquote post))).
    { now apply strip_prefix_spec. }
    rewrite Hkey.
    assert (Htake : take_id 11 (String.append id (String dquote post))
                    = Some (id, String dquote post)).
    { apply take_id_spec. auto. }
    rewrite Htake. now rewrite Ascii.eqb_refl.
Qed.

Lemma find_video_id_some (html id : string) :
  find_video_id html = Some id -> valid_id id /\ occurs_in id html.
Proof.
  induction html as [|c html IH]; cbn [find_video_id].
  - destruct (match_here "") as [id'|] eqn:Hm; [|discriminate].
    intros [= ->]. apply match_here_spec in Hm as (Hv & post & Hs).
    split; [exact Hv|]. exists "", post. exact Hs.
  - destruct (match_here (String c html)) as [id'|] eqn:Hm.
    + intros [= ->]. apply match_here_spec in Hm as (Hv & post & Hs).
      split; [exact Hv|]. exists "", post. exact Hs.
    + intros (Hv & pre & post & ->)%IH. split; [exact Hv|].
      exists (String c pre), post. reflexivity.
Qed.

Lemma find_video_id_none (html id : string) :
  find_video_id html = None -> valid_id id -> ~ occurs_in id html.
Proof.
  intros Hnone Hv (pre & post & ->). revert Hnone.
  induction pre as [|c pre IH].
  - rewrite append_empty.
    assert (Hm : match_here
                   (String.append video_id_key (String.append id (String dquote post)))
                 = Some id).
    { apply match_here_spec. eauto. }
    unfold video_id_key in *. rewrite append_cons in *. cbn [find_video_id].
    now rewrite Hm.
  - rewrite append_cons. cbn [find_video_id].
    destruct (match_here _); [discriminate|exact IH].
Qed.

(** What [search_youtube_trailer] returns for the reply it gets. A link is
    only returned for a reply with status 200 and is [https://youtu.be/]
    followed by an id of eleven characters among letters, digits, [_] and
    [-] that stands in the page as a quoted [videoId] entry. Nothing is
    returned exactly when the status is not 200 or the page holds no such
    entry; and once the request has answered, the function does not raise. *)
Theorem search_youtube_trailer_link
    (http_get : string -> exc (Z * string)) (query : string) (status : Z) (html : string) :
  http_get (search_url query) = Ok (status, html) ->
  (forall link, search_youtube_trailer http_get query = Ok (Some link) ->
     status = 200%Z
     /\ exists id, valid_id id /\ occurs_in id html
                   /\ link = String.append "https://youtu.be/" id)
  /\ (search_youtube_trailer http_get query = Ok None
      <-> status <> 200%Z \/ forall id, valid_id id -> ~ occurs_in id html)
  /\ (exists result, search_youtube_trailer http_get query = Ok result).
Proof.
  intros Hget. unfold search_youtube_trailer. rewrite Hget. cbn [bind fst snd].
  destruct (Z.eqb_spec status 200) as [->|Hstatus]; cbn [negb].
  - destruct (find_video_id html) as [id|] eqn:Hfind.
    + apply find_video_id_some in Hfind as [Hv Hocc]. split; [|split].
      * intros link [= <-]. split; [reflexivity|]. eauto.
      * split; [discriminate|]. intros [Hne|Hno]; [congruence|]. destruct (Hno id Hv Hocc).
      * eauto.
    + split; [|split].
      * discriminate.
      * split; [|reflexivity]. intros _. right. intros id. now apply find_video_id_none.
      * eauto.
  - split; [|split].
    + discriminate.
    + split; [auto|reflexivity].
    + eauto.
Qed.

Lemma search_youtube_trailer_link_witness :
  (forall link,
     search_youtube_trailer (answers 200 results_page) "alan wake trailer" = Ok (Some link) ->
     200%Z = 200%Z
     /\ exists id, valid_id id /\ occurs_in id results_page
                   /\ link = String.append "https://youtu.be/" id)
  /\ (search_youtube_trailer (answers 200 results_page) "alan wake trailer" = Ok None
      <-> 200%Z <> 200%Z \/ forall id, valid_id id -> ~ occurs_in id results_page)
  /\ (exists result,
        search_youtube_trailer (answers 200 results_page) "alan wake trailer" = Ok result).
Proof.
  exact (search_youtube_trailer_link (answers 200 results_page) "alan wake trailer"
           200%Z results_page eq_refl).
Defined.

Lemma hex_digits_unreserved (c : ascii) :
  is_unreserved (hex_digit (N_of_ascii c / 16)) = true
  /\ is_unreserved (hex_digit (N_of_ascii c mod 16)) = true.
Proof. destruct c as [[] [] [] [] [] [] [] []]; vm_compute; split; reflexivity. Qed.

Lemma hex_value_digits (c : ascii) :
  hex_value (hex_digit (N_of_ascii c / 16)) = (N_of_ascii c / 16)%N
  /\ hex_value (hex_digit (N_of_ascii c mod 16)) = (N_of_ascii c mod 16)%N.
Proof. destruct c as [[] [] [] [] [] [] [] []]; vm_compute; split; reflexivity. Qed.

Lemma hex_digits_inj (c1 c2 : ascii) :
  hex_digit (N_of_ascii c1 / 16) = hex_digit (N_of_ascii c2 / 16) ->
  hex_digit (N_of_ascii c1 mod 16) = hex_digit (N_of_ascii c2 mod 16) ->
  c1 = c2.
Proof.
  intros Hhi Hlo.
  destruct (hex_value_digits c1) as [H1 L1], (hex_value_digits c2) as [H2 L2].
  rewrite Hhi, H2 in H1. rewrite Hlo, L2 in L1.
  rewrite <- (ascii_N_embedding c1), <- (ascii_N_embedding c2). f_equal.
  rewrite (N.div_mod (N_of_ascii c1) 16), (N.div_mod (N_of_ascii c2) 16) by lia. lia.
Qed.

Lemma quote_plus_inj (q1 q2 : string) : quote_plus q1 = quote_plus q2 -> q1 = q2.
Proof.
  revert q2. induction q1 as [|c1 q1 IH]; intros [|c2 q2]; cbn [quote_plus].
  - reflexivity.
  - destruct (is_unreserved c2), (Ascii.eqb c2 " "); discriminate.
  - destruct (is_unreserved c1), (Ascii.eqb c1 " "); discriminate.
  - destruct (is_unreserved c1) eqn:U1, (is_unreserved c2) eqn:U2.
    + intros [= -> E]. f_equal. exact (IH _ E).
    + destruct (Ascii.eqb c2 " "); intros [= -> E]; discriminate U1.
    + destruct (Ascii.eqb c1 " "); intros [= <- E]; discriminate U2.
    + destruct (Ascii.eqb_spec c1 " ") as [->|N1], (Ascii.eqb_spec c2 " ") as [->|N2].
      * intros [= E]. f_equal. exact (IH _ E).
      * discriminate.
      * discriminate.
      * intros [= Hhi Hlo E]. f_equal; [exact (hex_digits_inj _ _ Hhi Hlo)|exact (IH _ E)].
Qed.

Lemma quote_plus_safe (query : string) : query_safe (quote_plus query).
Proof.
  unfold query_safe. induction query as [|c query IH]; cbn [quote_plus].
  - intros c Hc. cbn in Hc. now apply elem_of_nil in Hc.
  - destruct (hex_digits_unreserved c) as [Hhi Hlo].
    destruct (is_unreserved c) eqn:U; [|destruct (Ascii.eqb c " ")];
      cbn [list_ascii_of_string]; intros a Ha;
      repeat (apply elem_of_cons in Ha as [->|Ha]); auto.
Qed.

(** The address of the YouTube search. The query is written into it with
    letters, digits and [_.-~] only, a [+] for each space and [%XX] for any
    other byte, and no two queries share an address. *)
Theorem search_url_encodes_query :
  (forall query, query_safe (quote_plus query))
  /\ (forall q1 q2, search_url q1 = search_url q2 -> q1 = q2).
Proof.
  split; [exact quote_plus_safe|].
  intros q1 q2 E. apply quote_plus_inj. unfold search_url in E.
  repeat (rewrite !append_cons in E; injection E as E). exact E.
Qed.
